(** * SlackChannelChameleon: the adaptive rule engine of [rules.ts]

    A shallow embedding of the rule catalog, the ruleset search
    ([mutateRuleset], [makeEasierRuleset], [makeHarderRuleset],
    [randomValidRuleset]), the feedback controller ([evaluateChange],
    [updateRules], [addToViolationHistory]) and the per-message evaluator
    ([getViolations]), followed by the properties the specification states
    about them.

    Conventions of the embedding
    - a JavaScript [Set<string>] is the list of its members in insertion
      order, without duplicates;
    - [Math.random()] is an oracle: the functions consume a list of draws,
      each a rational in [0,1);
    - [Date.now()] is an input of the function that reads it;
    - a call either returns, throws a [TypeError], or is still running when
      the supplied draws are used up ([completion]). *)

From Stdlib Require Import List String ZArith QArith Qround Bool Arith Lia Permutation.
Import ListNotations.

Local Open Scope string_scope.
Local Open Scope list_scope.
Local Open Scope nat_scope.

(* ================================================================== *)
(** ** Completions and the random oracle *)
(* ================================================================== *)

Inductive completion (A : Type) : Type :=
| Normal (a : A)   (* the call returns [a] *)
| Throw            (* the call throws (a TypeError on [undefined]) *)
| Pending.         (* the draws ran out while the call was still looping *)

Arguments Normal {A} a.
Arguments Throw {A}.
Arguments Pending {A}.

Definition cbind {A B} (c : completion A) (k : A -> completion B) : completion B :=
  match c with
  | Normal a => k a
  | Throw => Throw
  | Pending => Pending
  end.

(** One value of [Math.random()]: a number in [0,1). *)
Definition in_unit_interval (q : Q) : bool :=
  Qle_bool 0 q && negb (Qle_bool 1 q).

Record Draw : Type := mkDraw {
  value : Q;
  value_range : in_unit_interval value = true
}.

(** Computations that call [Math.random()]. *)
Definition Rand (A : Type) : Type := list Draw -> completion (A * list Draw).

Definition ret {A} (a : A) : Rand A := fun draws => Normal (a, draws).

Definition bind {A B} (m : Rand A) (k : A -> Rand B) : Rand B :=
  fun draws =>
    match m draws with
    | Normal (a, draws') => k a draws'
    | Throw => Throw
    | Pending => Pending
    end.

Definition lift {A} (c : completion A) : Rand A :=
  fun draws => cbind c (fun a => Normal (a, draws)).

(** [Math.random()] itself. *)
Definition Math_random : Rand Draw :=
  fun draws =>
    match draws with
    | [] => Pending
    | d :: draws' => Normal (d, draws')
    end.

Declare Scope rand_scope.
Delimit Scope rand_scope with rand.
Notation "x <- m ;; k" := (bind m (fun x => k))
  (at level 61, m at next level, right associativity) : rand_scope.

(** [Math.floor(Math.random() * n)] for the draw [d]. *)
Definition randomIndex (d : Draw) (n : nat) : nat :=
  Z.to_nat (Qfloor (value d * inject_Z (Z.of_nat n))).

(** [x < y] on numbers. *)
Definition Qlt_bool (x y : Q) : bool := negb (Qle_bool y x).

(** [Array.from({ length: n }, () => m)]: [n] calls of [m], in order. *)
Fixpoint Array_from {A} (n : nat) (m : Rand A) : Rand (list A) :=
  match n with
  | O => ret []
  | S n' => (x <- m ;; xs <- Array_from n' m ;; ret (x :: xs))%rand
  end.

(** [xs.map(f)] and [xs.filter(p)] for callbacks that may throw. *)
Fixpoint Array_map {A B} (f : A -> completion B) (xs : list A) : completion (list B) :=
  match xs with
  | [] => Normal []
  | x :: xs' => cbind (f x) (fun y => cbind (Array_map f xs') (fun ys => Normal (y :: ys)))
  end.

Fixpoint Array_filter {A} (p : A -> completion bool) (xs : list A) : completion (list A) :=
  match xs with
  | [] => Normal []
  | x :: xs' =>
      cbind (p x) (fun b =>
      cbind (Array_filter p xs') (fun ys => Normal (if b then x :: ys else ys)))
  end.

(** [xs.pop()]: the last element, [undefined] ([None]) on an empty array. *)
Fixpoint Array_pop {A} (xs : list A) : option A :=
  match xs with
  | [] => None
  | [x] => Some x
  | _ :: xs' => Array_pop xs'
  end.

(** [Array.prototype.sort(comparefn)]. The comparators of [rules.ts] are not
    consistent comparison functions (they ignore their second argument), so
    ECMAScript leaves the resulting order to the engine. The development is
    therefore parametric in the engine's sort, of which it only assumes that
    it rearranges the array. *)
Class ArraySort : Type := {
  Array_sort : forall (A : Type), (A -> A -> Z) -> list A -> list A;
  Array_sort_permutation :
    forall (A : Type) (comparefn : A -> A -> Z) (xs : list A),
      Permutation (Array_sort A comparefn xs) xs
}.

(* ================================================================== *)
(** ** [Set<string>] *)
(* ================================================================== *)

Definition StringSet : Type := list string.

Definition Set_has (s : StringSet) (x : string) : bool :=
  existsb (String.eqb x) s.

Definition Set_add (x : string) (s : StringSet) : StringSet :=
  if Set_has s x then s else s ++ [x].

Definition Set_delete (x : string) (s : StringSet) : StringSet :=
  filter (fun y => negb (String.eqb x y)) s.

Definition Set_size (s : StringSet) : nat := List.length s.

(** [new Set(iterable)]: the members are added one by one. *)
Definition new_Set (xs : list string) : StringSet :=
  fold_left (fun s x => Set_add x s) xs [].

(* ================================================================== *)
(** ** The rule catalog *)
(* ================================================================== *)

(** [type Rule]. The [check] capability consults the chat platform and a
    word list outside the engine; it is modelled by the oracle of
    [getViolations] below. [conflictsWith] is optional in the source. *)
Record Rule : Type := mkRule {
  id : string;
  name : string;
  description : string;
  conflictsWith : option (list string);
  difficulty : Z
}.

(** [rules.find(rule => rule.id === x)] *)
Definition findRule (rules : list Rule) (x : string) : option Rule :=
  find (fun rule => String.eqb (id rule) x) rules.

(** The [conflicts.forEach] pass that expands the pairs into the rules'
    [conflictsWith] arrays. [pushConflict target other] is
    [rule.conflictsWith ??= []; rule.conflictsWith.push(other)] on the first
    rule whose id is [target]. *)
Fixpoint pushConflict (target other : string) (rules : list Rule) : list Rule :=
  match rules with
  | [] => []
  | rule :: rest =>
      if String.eqb (id rule) target
      then mkRule (id rule) (name rule) (description rule)
             (Some (match conflictsWith rule with
                    | Some cs => cs
                    | None => []
                    end ++ [other]))
             (difficulty rule) :: rest
      else rule :: pushConflict target other rest
  end.

Definition resolveConflict (rules : list Rule) (pair : string * string) : list Rule :=
  let (rule1ID, rule2ID) := pair in
  match findRule rules rule1ID, findRule rules rule2ID with
  | Some _, Some _ => pushConflict rule2ID rule1ID (pushConflict rule1ID rule2ID rules)
  | _, _ => rules (* console.error; return *)
  end.

Definition resolveConflicts (rules : list Rule) (conflicts : list (string * string)) : list Rule :=
  fold_left resolveConflict conflicts rules.

(* ================================================================== *)
(** ** Rule adjustment: tunables *)
(* ================================================================== *)

Definition minimumTimeBetweenChanges : Z := 1000 * 60 * 5.
Definition maximumTimeBetweenChanges : Z := 1000 * 60 * 60 * 5.
Definition minFailRatio : Q := 1 # 10.
Definition maxFailRatio : Q := 1 # 2.
Definition minimumSampleSize : nat := 10.
Definition maximumMessagesUntilChange : nat := 100.
Definition changeChance : Q := 3 # 10.
Definition completeChangeChance : Q := 1 # 20.
Definition initialRoughDifficulty : Z := 6.
Definition mutationIterations : nat := 15.
Definition mutationAmount : nat := 3.

(** The result of a division of two array lengths: [0/0] is [NaN] and
    [x/0] is [Infinity]; every comparison with [NaN] is false. *)
Inductive number : Type :=
| Num (q : Q)
| Infinity
| NaN.

Definition divide (x y : nat) : number :=
  match y, x with
  | O, O => NaN
  | O, S _ => Infinity
  | S _, _ => Num (Z.of_nat x # Pos.of_nat y)
  end.

Definition number_gt (x : number) (y : Q) : bool :=
  match x with
  | Num q => Qlt_bool y q
  | Infinity => true
  | NaN => false
  end.

Definition number_lt (x : number) (y : Q) : bool :=
  match x with
  | Num q => Qlt_bool q y
  | Infinity => false
  | NaN => false
  end.

(** A sort comparator has to produce a number; the comparators below call
    [calculateDifficulty] only on rulesets on which the preceding [filter]
    has already called it successfully, so the default is never used. *)
Definition numberOf (c : completion Z) : Z :=
  match c with
  | Normal z => z
  | _ => 0%Z
  end.

(** The engine state: [activeRules], [violationHistoryForThisRuleset] and
    [lastRulesetChange]. *)
Record ViolationRecord : Type := mkRecord { violations : list Rule }.

Record EngineState : Type := mkState {
  activeRules : StringSet;
  violationHistoryForThisRuleset : list ViolationRecord;
  lastRulesetChange : Z
}.

(** What [updateRules] announces (console and channel). *)
Record ChangeEvent : Type := mkEvent {
  reason : string;
  newRuleset : StringSet
}.

(** [{ success, ruleset }] *)
Record MakeResult : Type := mkResult {
  success : bool;
  ruleset : StringSet
}.

Definition getFailRatio (st : EngineState) : number :=
  let messagesViolatingRules :=
    List.length (filter (fun record => 0 <? List.length (violations record))
                        (violationHistoryForThisRuleset st)) in
  divide messagesViolatingRules (List.length (violationHistoryForThisRuleset st)).

Definition addToViolationHistory (violations : list Rule) (st : EngineState) : EngineState :=
  mkState (activeRules st)
          (violationHistoryForThisRuleset st ++ [mkRecord violations])
          (lastRulesetChange st).

(** [updateRules], up to its first [await]: the state is rewritten before
    anything is posted. [now] is the value of its [Date.now()]. *)
Definition updateRules (newRuleset : StringSet) (reason : string) (now : Z)
    (st : EngineState) : EngineState * ChangeEvent :=
  let newRuleset := new_Set newRuleset in
  let cleared : StringSet := [] in
  let active := fold_left (fun active rule => Set_add rule active) newRuleset cleared in
  (mkState active [] now, mkEvent reason active).

Section Engine.

Variable rules : list Rule.
Context {engine : ArraySort}.

Definition isValidRuleset (ruleset : StringSet) : bool :=
  let conflicts :=
    flat_map (fun rule => match conflictsWith rule with
                          | Some cs => cs
                          | None => []
                          end)
             (filter (fun rule => Set_has ruleset (id rule)) rules) in
  negb (existsb (fun conflict => Set_has ruleset conflict) conflicts).

(** [calculateDifficulty]; [rules.find(...)!.difficulty] throws on an id
    that is not in the catalog. *)
Definition calculateDifficulty (ruleset : StringSet) : completion Z :=
  cbind (Array_map (fun x => match findRule rules x with
                             | Some rule => Normal (difficulty rule)
                             | None => Throw
                             end) ruleset)
        (fun weights => Normal (fold_left (fun acc val => (acc + val)%Z) weights 0%Z)).

(** The [do ... while(!isValidRuleset(newRuleset))] loop of [mutateRuleset]:
    one draw per attempt. *)
Fixpoint toggleUntilValid (oldRuleset : StringSet) (draws : list Draw)
    : completion (StringSet * list Draw) :=
  match draws with
  | [] => Pending
  | d :: draws' =>
      let newRuleset := new_Set oldRuleset in
      match nth_error rules (randomIndex d (List.length rules)) with
      | None => Throw (* [ruleToChange.id] on [undefined] *)
      | Some ruleToChange =>
          let newRuleset :=
            if Set_has newRuleset (id ruleToChange)
            then Set_delete (id ruleToChange) newRuleset
            else Set_add (id ruleToChange) newRuleset in
          if isValidRuleset newRuleset
          then Normal (newRuleset, draws')
          else toggleUntilValid oldRuleset draws'
      end
  end.

Fixpoint mutateLoop (amount : nat) (newRuleset : StringSet) : Rand StringSet :=
  match amount with
  | O => ret newRuleset
  | S amount' =>
      (newRuleset' <- toggleUntilValid (new_Set newRuleset) ;;
       mutateLoop amount' newRuleset')%rand
  end.

Definition mutateRuleset (currentRuleset : StringSet) (amount : nat) : Rand StringSet :=
  mutateLoop amount (new_Set currentRuleset).

Definition makeEasierRuleset (currentRuleset : StringSet) : Rand MakeResult :=
  (mutatedRulesets <-
     Array_from mutationIterations (mutateRuleset currentRuleset mutationAmount) ;;
   filtered <-
     lift (Array_filter
             (fun ruleset =>
                cbind (calculateDifficulty ruleset) (fun d =>
                cbind (calculateDifficulty currentRuleset) (fun c =>
                Normal (d <? c)%Z)))
             mutatedRulesets) ;;
   let sorted :=
     Array_sort StringSet
       (fun a b => numberOf (cbind (calculateDifficulty currentRuleset) (fun c =>
                             cbind (calculateDifficulty a) (fun d =>
                             Normal (c - d)%Z))))
       filtered in
   match Array_pop sorted with
   | None => ret (mkResult false currentRuleset)
   | Some closestRuleset => ret (mkResult true closestRuleset)
   end)%rand.

Definition makeHarderRuleset (currentRuleset : StringSet) : Rand MakeResult :=
  (mutatedRulesets <-
     Array_from mutationIterations (mutateRuleset currentRuleset mutationAmount) ;;
   filtered <-
     lift (Array_filter
             (fun ruleset =>
                cbind (calculateDifficulty ruleset) (fun d =>
                cbind (calculateDifficulty currentRuleset) (fun c =>
                Normal (d >? c)%Z)))
             mutatedRulesets) ;;
   let sorted :=
     Array_sort StringSet
       (fun a b => numberOf (cbind (calculateDifficulty a) (fun d =>
                             cbind (calculateDifficulty currentRuleset) (fun c =>
                             Normal (d - c)%Z))))
       filtered in
   match Array_pop sorted with
   | None => ret (mkResult false currentRuleset)
   | Some closestRuleset => ret (mkResult true closestRuleset)
   end)%rand.

Definition getAdditionalValidRules (currentRuleset : StringSet) : StringSet :=
  new_Set
    (map id
       (filter (fun rule => negb (Set_has currentRuleset (id rule))
                            && isValidRuleset (new_Set (currentRuleset ++ [id rule])))
               rules)).

(** The [while] loop of [randomValidRuleset]: one draw per added rule. An
    index outside [validRules] would add [undefined], on which the next
    [calculateDifficulty] throws. *)
Fixpoint growRuleset (roughDifficulty : Q) (ruleset : StringSet) (draws : list Draw)
    : completion (StringSet * list Draw) :=
  match calculateDifficulty ruleset with
  | Normal d =>
      if Qlt_bool (inject_Z d) roughDifficulty then
        let validRules := getAdditionalValidRules ruleset in
        if Set_size validRules =? 0 then Normal (ruleset, draws)
        else
          match draws with
          | [] => Pending
          | r :: draws' =>
              match nth_error validRules (randomIndex r (Set_size validRules)) with
              | Some ruleToAdd => growRuleset roughDifficulty (Set_add ruleToAdd ruleset) draws'
              | None => Throw
              end
          end
      else Normal (ruleset, draws)
  | Throw => Throw
  | Pending => Pending
  end.

(** [randomValidRuleset roughDifficulty attempt]: the recursion on
    [attempt < 10] is a recursion on the retries that are left,
    [10 - attempt]. *)
Fixpoint randomValidRulesetRetry (retriesLeft : nat) (roughDifficulty : Q)
    : Rand StringSet :=
  (ruleset <- growRuleset roughDifficulty [] ;;
   match Set_size ruleset, retriesLeft with
   | O, S retriesLeft' => randomValidRulesetRetry retriesLeft' roughDifficulty
   | _, _ => ret ruleset
   end)%rand.

Definition randomValidRuleset (roughDifficulty : Q) (attempt : nat) : Rand StringSet :=
  randomValidRulesetRetry (10 - attempt) roughDifficulty.

(** The four places where [evaluateChange] replaces the ruleset by
    [randomValidRuleset((initialRoughDifficulty + calculateDifficulty(activeRules)) / 2)]. *)
Definition regenerate (reason : string) (updatedAt : Z) (st : EngineState)
    : Rand (EngineState * option ChangeEvent) :=
  (d <- lift (calculateDifficulty (activeRules st)) ;;
   newRuleset <- randomValidRuleset (inject_Z (initialRoughDifficulty + d) / 2) 0 ;;
   let (st', event) := updateRules newRuleset reason updatedAt st in
   ret (st', Some event))%rand.

(** [evaluateChange]. [now] is its own [Date.now()], [updatedAt] the one
    [updateRules] reads if the ruleset is replaced. The call of
    [getFailRatio] is the parameter [failRatioOf], so that a statement can
    say where it is called; [evaluateChange] below is the function of the
    source. The result is the next state and what was announced. *)
Definition evaluateChangeWith (failRatioOf : EngineState -> completion number)
    (now updatedAt : Z) (st : EngineState) : Rand (EngineState * option ChangeEvent) :=
  let completeChange : Rand (EngineState * option ChangeEvent) :=
    (r <- Math_random ;;
     if Qlt_bool (value r) completeChangeChance
     then regenerate "The ruleset has been changed entirely by chance." updatedAt st
     else ret (st, None))%rand in
  let timeSinceLastChange := (now - lastRulesetChange st)%Z in
  if (timeSinceLastChange <? minimumTimeBetweenChanges)%Z then ret (st, None)
  else if (timeSinceLastChange >? maximumTimeBetweenChanges)%Z then
    regenerate "The ruleset has been changed entirely, since it has been a long time since it was last changed." updatedAt st
  else if List.length (violationHistoryForThisRuleset st) <? minimumSampleSize then ret (st, None)
  else if maximumMessagesUntilChange <? List.length (violationHistoryForThisRuleset st) then
    regenerate "The ruleset has been changed entirely, since there have been a lot of messages since it was last changed." updatedAt st
  else
    (r <- Math_random ;;
     if Qlt_bool (value r) changeChance then
       failRatio <- lift (failRatioOf st) ;;
       if number_gt failRatio maxFailRatio then
         newRuleset <- makeEasierRuleset (activeRules st) ;;
         if negb (success newRuleset) then
           regenerate "The fail ratio is high, but the ruleset couldn't be made easier, so we're changing it entirely." updatedAt st
         else
           let (st', event) :=
             updateRules (ruleset newRuleset)
               "The ruleset has been made easier since the fail ratio is high." updatedAt st in
           ret (st', Some event)
       else if number_lt failRatio minFailRatio then
         newRuleset <- makeHarderRuleset (activeRules st) ;;
         if negb (success newRuleset) then
           regenerate "The fail ratio is low, but the ruleset couldn't be made harder, so we're changing it entirely." updatedAt st
         else
           let (st', event) :=
             updateRules (ruleset newRuleset)
               "The ruleset has been made harder since the fail ratio is low." updatedAt st in
           ret (st', Some event)
       else completeChange
     else completeChange)%rand.

Definition evaluateChange (now updatedAt : Z) (st : EngineState)
    : Rand (EngineState * option ChangeEvent) :=
  evaluateChangeWith (fun st => Normal (getFailRatio st)) now updatedAt st.

Definition initializeRules (updatedAt : Z) (st : EngineState)
    : Rand (EngineState * option ChangeEvent) :=
  (newRuleset <- randomValidRuleset (inject_Z initialRoughDifficulty) 0 ;;
   let (st', event) :=
     updateRules newRuleset "An initial ruleset has been created." updatedAt st in
   ret (st', Some event))%rand.

End Engine.

(** The module state when [rules.ts] has been loaded at time [loadedAt]. *)
Definition loadedState (loadedAt : Z) : EngineState := mkState [] [] loadedAt.

(* ================================================================== *)
(** ** Rule checking: [getViolations] *)
(* ================================================================== *)

(** What one call [rule.check(message, app)] does. A promise settles some
    time after the call; [Promise.all] depends on that order. *)
Inductive CheckResult : Type :=
| Returned (result : bool)
| Threw (error : string)
| Resolved (after : nat) (result : bool)
| Rejected (after : nat) (error : string).

Inductive settled (A : Type) : Type :=
| Fulfilled (v : A)
| RejectedWith (error : string).

Arguments Fulfilled {A} v.
Arguments RejectedWith {A} error.

Record Promise (A : Type) : Type := mkPromise {
  settlesAfter : nat;
  state : settled A
}.

Arguments mkPromise {A} settlesAfter state.
Arguments settlesAfter {A} p.
Arguments state {A} p.

(** The reason of the rejection that happens first, if there is one; of
    two at the same time the earlier in the array. *)
Fixpoint firstRejection {A} (promises : list (Promise A)) : option (nat * string) :=
  match promises with
  | [] => None
  | p :: rest =>
      match state p, firstRejection rest with
      | RejectedWith e, Some (t, e') =>
          if settlesAfter p <=? t then Some (settlesAfter p, e) else Some (t, e')
      | RejectedWith e, None => Some (settlesAfter p, e)
      | Fulfilled _, later => later
      end
  end.

Fixpoint fulfilledValues {A} (promises : list (Promise A)) : list A :=
  match promises with
  | [] => []
  | p :: rest =>
      match state p with
      | Fulfilled v => v :: fulfilledValues rest
      | RejectedWith _ => fulfilledValues rest
      end
  end.

(** [await Promise.all(promises)] *)
Definition Promise_all {A} (promises : list (Promise A)) : settled (list A) :=
  match firstRejection promises with
  | Some (_, e) => RejectedWith e
  | None => Fulfilled (fulfilledValues promises)
  end.

(** The callback of [.map] in [getViolations], for a check that did not
    throw: the promise of [undefined] ([None]) or of the violated rule. *)
Definition violationPromise (rule : Rule) (result : CheckResult) : Promise (option Rule) :=
  match result with
  | Returned b => mkPromise 0 (Fulfilled (if b then None else Some rule))
  | Resolved t b => mkPromise t (Fulfilled (if b then None else Some rule))
  | Rejected t e => mkPromise t (RejectedWith e)
  | Threw e => mkPromise 0 (RejectedWith e)
  end.

(** The [.map] over the active rules: the rules whose check has been
    called, and the promises, or the error of a check that threw (which
    ends the [map] and with it the call). *)
Fixpoint launchChecks (check : Rule -> string -> CheckResult) (message : string)
    (active : list Rule) : list Rule * (string + list (Promise (option Rule))) :=
  match active with
  | [] => ([], inr [])
  | rule :: rest =>
      match check rule message with
      | Threw e => ([rule], inl e)
      | result =>
          let (called, promises) := launchChecks check message rest in
          (rule :: called,
           match promises with
           | inl e => inl e
           | inr ps => inr (violationPromise rule result :: ps)
           end)
      end
  end.

Record Evaluation : Type := mkEvaluation {
  checksCalled : list Rule;
  outcome : settled (list Rule)
}.

Definition getViolations (rules : list Rule) (check : Rule -> string -> CheckResult)
    (activeRules : StringSet) (message : string) : Evaluation :=
  let (called, violationPromises) :=
    launchChecks check message (filter (fun rule => Set_has activeRules (id rule)) rules) in
  mkEvaluation called
    match violationPromises with
    | inl e => RejectedWith e
    | inr promises =>
        match Promise_all promises with
        | Fulfilled violations =>
            Fulfilled (flat_map (fun violation => match violation with
                                                  | Some rule => [rule]
                                                  | None => []
                                                  end) violations)
        | RejectedWith e => RejectedWith e
        end
    end.

(* ================================================================== *)
(** ** The catalog of [rules.ts] *)
(* ================================================================== *)

Module Chameleon.

Definition rulesLiteral : list Rule :=
  [ mkRule "all-lowercase" "Lowercase messages"
      "all messages must be in lowercase. stay calm." None 1;
    mkRule "all-uppercase" "Uppercase messages"
      "ALL MESSAGES MUST BE IN UPPERCASE. SHOUTING IS ENCOURAGED!" None 1;
    mkRule "only-emojis" "Only emojis"
      ":rocket: :100: :fire:" None 2;
    mkRule "unique-messages" "Unique messages"
      "Be original! No messages should be returned by a search in this workspace." None 5;
    mkRule "no-common-words" "No common words"
      "Cultivate novelty! Messages exclude English's 1000 commonest vocables." None 4;
    mkRule "never-repeats-letters" "Never repeats letters"
      "No letter should be repeated in a message." None 5;
    mkRule "every-letter" "Every letter"
      "Every letter in the English alphabet should appear at least once in a message." None 4;
    mkRule "no-spaces" "No spaces"
      "Messages should not contain any spaces." None 3;
    mkRule "no-punctuation" "No punctuation"
      "Messages should not contain any punctuation." None 2 ].

Definition conflicts : list (string * string) :=
  [ ("all-lowercase", "all-uppercase");
    ("only-emojis", "all-lowercase");
    ("only-emojis", "all-uppercase");
    ("only-emojis", "no-common-words");
    ("only-emojis", "never-repeats-letters");
    ("only-emojis", "every-letter");
    ("only-emojis", "no-spaces");
    ("only-emojis", "no-punctuation");
    ("never-repeats-letters", "every-letter");
    ("no-common-words", "no-spaces") ].

(** [rules] once the module has been loaded. *)
Definition rules : list Rule := resolveConflicts rulesLiteral conflicts.

End Chameleon.

(** A draw given by its numerator and denominator. *)
Definition draw (n : Z) (d : positive) (H : in_unit_interval (n # d) = true) : Draw :=
  mkDraw (n # d) H.

(* ================================================================== *)
(** ** The sort of the V8 engine *)
(* ================================================================== *)

(** Node runs [rules.ts] on V8, whose [Array.prototype.sort] is TimSort. An
    array shorter than 64 elements is one run: the leading run is found by
    comparing each element with its predecessor ([comparefn(a[i], a[i-1])]),
    reversed if it is strictly descending, and the remaining elements are
    added by binary insertion. The arrays sorted by [rules.ts] have at most
    [mutationIterations] elements. *)
Module V8.

Section Sort.

Context {A : Type}.
Variable comparefn : A -> A -> Z.

(** How many elements after [previous] continue the run. *)
Fixpoint runContinues (descending : bool) (previous : A) (rest : list A) : nat :=
  match rest with
  | [] => 0
  | current :: rest' =>
      let order := comparefn current previous in
      if (if descending then (0 <=? order)%Z else (order <? 0)%Z)
      then 0
      else S (runContinues descending current rest')
  end.

(** [CountAndMakeRun]: the leading run, made ascending, and the rest. *)
Definition countAndMakeRun (xs : list A) : list A * list A :=
  match xs with
  | x0 :: x1 :: rest =>
      let descending := (comparefn x1 x0 <? 0)%Z in
      let runLength := 2 + runContinues descending x1 rest in
      let run := firstn runLength xs in
      (if descending then rev run else run, skipn runLength xs)
  | _ => (xs, [])
  end.

(** The binary search of [BinaryInsertionSort] for the place of [pivot] in
    [sorted], between [left] and [right]. *)
Fixpoint insertionPoint (steps : nat) (pivot : A) (sorted : list A) (left right : nat) : nat :=
  match steps with
  | O => left
  | S steps' =>
      if left <? right then
        let mid := left + (right - left) / 2 in
        if (comparefn pivot (nth mid sorted pivot) <? 0)%Z
        then insertionPoint steps' pivot sorted left mid
        else insertionPoint steps' pivot sorted (S mid) right
      else left
  end.

Definition insertPivot (sorted : list A) (pivot : A) : list A :=
  let left := insertionPoint (List.length sorted) pivot sorted 0 (List.length sorted) in
  firstn left sorted ++ pivot :: skipn left sorted.

Definition sort (xs : list A) : list A :=
  let (run, rest) := countAndMakeRun xs in
  fold_left insertPivot rest run.

End Sort.

(** The sort rearranges the array, whatever the comparator does. *)
Lemma insertPivot_permutation {A} (comparefn : A -> A -> Z) (sorted : list A) (pivot : A) :
  Permutation (insertPivot comparefn sorted pivot) (pivot :: sorted).
Proof.
  unfold insertPivot.
  set (left := insertionPoint _ _ _ _ _ _).
  rewrite <- (firstn_skipn left sorted) at 3.
  symmetry. apply Permutation_middle.
Qed.

Lemma insertAll_permutation {A} (comparefn : A -> A -> Z) (rest run : list A) :
  Permutation (fold_left (insertPivot comparefn) rest run) (run ++ rest).
Proof.
  revert run. induction rest as [|x rest IH]; intros run; simpl.
  - now rewrite app_nil_r.
  - rewrite IH. rewrite insertPivot_permutation.
    apply (Permutation_middle run rest x).
Qed.

Lemma countAndMakeRun_permutation {A} (comparefn : A -> A -> Z) (xs : list A) :
  Permutation (fst (countAndMakeRun comparefn xs) ++ snd (countAndMakeRun comparefn xs)) xs.
Proof.
  unfold countAndMakeRun.
  destruct xs as [|x0 [|x1 xs]]; try (cbn [fst snd]; now rewrite app_nil_r).
  cbv zeta. set (n := 2 + runContinues comparefn _ x1 xs).
  set (l := x0 :: x1 :: xs). cbn [fst snd].
  transitivity (firstn n l ++ skipn n l); [|now rewrite firstn_skipn].
  apply Permutation_app_tail.
  destruct (comparefn x1 x0 <? 0)%Z; [symmetry; apply Permutation_rev | reflexivity].
Qed.

Lemma sort_permutation (A : Type) (comparefn : A -> A -> Z) (xs : list A) :
  Permutation (sort comparefn xs) xs.
Proof.
  unfold sort.
  assert (H := countAndMakeRun_permutation comparefn xs).
  destruct (countAndMakeRun comparefn xs) as [run rest].
  now rewrite insertAll_permutation.
Qed.

(** A comparator that is positive on the elements of the array leaves the
    array as it is. *)
Lemma runContinues_positive {A} (comparefn : A -> A -> Z) (previous : A) (rest : list A) :
  (forall a b, In a rest -> 0 < comparefn a b)%Z ->
  runContinues comparefn false previous rest = List.length rest.
Proof.
  revert previous. induction rest as [|x rest IH]; intros previous H; simpl.
  - reflexivity.
  - destruct (Z.ltb_spec (comparefn x previous) 0) as [L|_].
    + specialize (H x previous (or_introl eq_refl)). lia.
    + rewrite IH; [reflexivity|]. intros a b Ha. apply H. now right.
Qed.

Lemma sort_positive {A} (comparefn : A -> A -> Z) (xs : list A) :
  (forall a b, In a xs -> 0 < comparefn a b)%Z -> sort comparefn xs = xs.
Proof.
  intros H. unfold sort, countAndMakeRun.
  destruct xs as [|x0 [|x1 xs]]; try reflexivity.
  destruct (Z.ltb_spec (comparefn x1 x0) 0) as [L|_].
  - specialize (H x1 x0 (or_intror (or_introl eq_refl))). lia.
  - rewrite runContinues_positive
      by (intros a b Ha; apply H; right; now right).
    change (2 + List.length xs) with (List.length (x0 :: x1 :: xs)).
    now rewrite firstn_all, skipn_all.
Qed.

End V8.

#[export] Instance V8_engine : ArraySort := {|
  Array_sort := fun A comparefn xs => V8.sort comparefn xs;
  Array_sort_permutation := V8.sort_permutation
|}.

(* ================================================================== *)
(** ** The checks of the synchronous rules *)
(* ================================================================== *)

(** The [check] functions of the rule literal that neither call the
    platform nor read the word list. A message is a [string] of bytes; the
    two case conversions are those of JavaScript on messages of ASCII
    characters, which is what the statements about them assume. *)
Module Checks.

Import Stdlib.Strings.Ascii.

Definition codeOf (c : ascii) : nat := nat_of_ascii c.

Definition colon : ascii := ":"%char.

Definition space : ascii := " "%char.

Definition isAsciiChar (c : ascii) : bool := codeOf c <? 128.

Definition isUpper (c : ascii) : bool := (65 <=? codeOf c) && (codeOf c <=? 90).

Definition isLower (c : ascii) : bool := (97 <=? codeOf c) && (codeOf c <=? 122).

Definition lowerChar (c : ascii) : ascii :=
  if isUpper c then ascii_of_nat (codeOf c + 32) else c.

Definition upperChar (c : ascii) : ascii :=
  if isLower c then ascii_of_nat (codeOf c - 32) else c.

Fixpoint mapChars (f : ascii -> ascii) (s : string) : string :=
  match s with
  | EmptyString => EmptyString
  | String c s' => String (f c) (mapChars f s')
  end.

(** [s.toLowerCase()] and [s.toUpperCase()] *)
Definition toLowerCase (s : string) : string := mapChars lowerChar s.

Definition toUpperCase (s : string) : string := mapChars upperChar s.

(** [s.split(separator)] for a separator of one character. *)
Fixpoint split (separator : ascii) (s : string) : list string :=
  match s with
  | EmptyString => [EmptyString]
  | String c s' =>
      if Ascii.eqb c separator then EmptyString :: split separator s'
      else match split separator s' with
           | word :: words => String c word :: words
           | [] => [String c EmptyString]
           end
  end.

(** [s.split("")]: the characters, each as a string. *)
Definition characters (s : string) : list string :=
  map (fun c => String c EmptyString) (list_ascii_of_string s).

(** [s.startsWith(c)] and [s.endsWith(c)] for one character. *)
Definition startsWith (c : ascii) (s : string) : bool :=
  match s with
  | EmptyString => false
  | String first _ => Ascii.eqb first c
  end.

Fixpoint endsWith (c : ascii) (s : string) : bool :=
  match s with
  | EmptyString => false
  | String last EmptyString => Ascii.eqb last c
  | String _ s' => endsWith c s'
  end.

(** [s.includes(c)] for one character. *)
Definition includes (c : ascii) (s : string) : bool :=
  existsb (fun c' => Ascii.eqb c' c) (list_ascii_of_string s).

(** [s.match(/[...]/)] is not [null]: some character is in the class. *)
Definition matchesClass (class : ascii -> bool) (s : string) : bool :=
  existsb class (list_ascii_of_string s).

(** The class [[a-z]] under the flag [i]. *)
Definition isLetter (c : ascii) : bool := isLower c || isUpper c.

(** The class [[.,!?:;]]. *)
Definition isPunctuation (c : ascii) : bool :=
  existsb (Ascii.eqb c) ["."; ","; "!"; "?"; ":"; ";"]%char.

(** [message.toLowerCase().split("").filter(char => char.match(/[a-z]/i))] *)
Definition letters (message : string) : list string :=
  filter (fun char => matchesClass isLetter char) (characters (toLowerCase message)).

Definition all_lowercase (message : string) : bool :=
  String.eqb message (toLowerCase message).

Definition all_uppercase (message : string) : bool :=
  String.eqb message (toUpperCase message).

Definition only_emojis (message : string) : bool :=
  forallb (fun word => startsWith colon word && endsWith colon word) (split space message).

Definition never_repeats_letters (message : string) : bool :=
  Set_size (new_Set (letters message)) =? List.length (letters message).

Definition every_letter (message : string) : bool :=
  Set_size (new_Set (letters message)) =? 26.

Definition no_spaces (message : string) : bool := negb (includes space message).

Definition no_punctuation (message : string) : bool :=
  negb (matchesClass isPunctuation message).

End Checks.

(* ================================================================== *)
(** ** The message handler of [index.ts] *)
(* ================================================================== *)

(** The fields of a message event that the handler reads; [None] is
    [undefined]. *)
Record SlackMessage : Type := mkMessage {
  subtype : option string;
  channel : string;
  user : string;
  text : option string;
  ts : string
}.

(** What the handler sends to the platform. *)
Inductive Post : Type :=
| Say (body thread_ts : string)
| ReactionsAdd (emoji inChannel timestamp : string).

(** How a run of the handler ends before it touches the engine: it
    returns at once, it is rejected with an error, or it reaches the two
    engine calls with the violations to record. [posted] is what the
    platform accepted. *)
Inductive HandlerRun : Type :=
| Ignored
| Failed (posted : list Post) (error : string)
| Passed (posted : list Post) (violations : list Rule).

Definition newline : string := String (Ascii.ascii_of_nat 10) EmptyString.

Definition violationMessages (violations : list Rule) : list string :=
  map (fun violation =>
         ("  :x: " ++ name violation ++ ": " ++ description violation)%string)
      violations.

Definition replyText (message : SlackMessage) (violations : list Rule) : string :=
  ("<@" ++ user message ++ ">, Your message violates the following rules:" ++ newline
   ++ String.concat newline (violationMessages violations))%string.

Definition emojiFor (violations : list Rule) : string :=
  if 0 <? List.length violations then "x" else "tw_white_check_mark".

(** The handler of [app.message], up to [addToViolationHistory]. [say]
    and [reactionsAdd] are the errors with which the platform rejects the
    two calls, if it does; [CHANNEL_ID] is the environment variable. The
    result also lists the rules whose check has been called. *)
Definition receiveMessage (rules : list Rule) (check : Rule -> string -> CheckResult)
    (CHANNEL_ID : option string) (say reactionsAdd : option string)
    (activeRules : StringSet) (message : SlackMessage) : list Rule * HandlerRun :=
  let otherSubtype :=
    match subtype message with
    | Some s => negb (String.eqb s "thread_broadcast")
    | None => false
    end in
  let otherChannel :=
    match CHANNEL_ID with
    | Some c => negb (String.eqb (channel message) c)
    | None => true
    end in
  if otherSubtype then ([], Ignored)
  else if otherChannel then ([], Ignored)
  else
    let evaluation :=
      getViolations rules check activeRules
        (match text message with Some t => t | None => "" end) in
    (checksCalled evaluation,
     match outcome evaluation with
     | RejectedWith e => Failed [] e
     | Fulfilled violations =>
         let replied :=
           if 0 <? List.length violations
           then match say with
                | Some e => inl e
                | None => inr [Say (replyText message violations) (ts message)]
                end
           else inr [] in
         match replied with
         | inl e => Failed [] e
         | inr posted =>
             match reactionsAdd with
             | Some e => Failed posted e
             | None =>
                 Passed (posted ++ [ReactionsAdd (emojiFor violations)
                                      (channel message) (ts message)])
                        violations
             end
         end
     end).

(** The end of the handler: [addToViolationHistory(violations);
    evaluateChange(app)], on the engine state of that moment. *)
Definition recordAndEvaluate (rules : list Rule) {engine : ArraySort}
    (now updatedAt : Z) (violations : list Rule) (st : EngineState)
    : Rand (EngineState * option ChangeEvent) :=
  evaluateChange rules now updatedAt (addToViolationHistory violations st).

(* ================================================================== *)
(** ** Notions used in the statements *)
(* ================================================================== *)

Definition sameMembers (s t : StringSet) : Prop :=
  forall x, Set_has s x = Set_has t x.

(** One accepted toggle of [mutateRuleset]: the membership of one id flips. *)
Definition flipped (s r : StringSet) : Prop :=
  exists x,
    (Set_has s x = true /\ r = Set_delete x s) \/
    (Set_has s x = false /\ r = Set_add x s).

(** The set after the membership of [x] has been flipped. *)
Definition toggled (x : string) (s : StringSet) : StringSet :=
  if Set_has s x then Set_delete x s else Set_add x s.

(** [amount] accepted toggles in a row. *)
Inductive flips : nat -> StringSet -> StringSet -> Prop :=
| flips_none s : flips 0 s s
| flips_step n s s' r : flipped s s' -> flips n s' r -> flips (S n) s r.

(** [new Set([...a, ...b])] *)
Definition Set_union (a b : StringSet) : StringSet := new_Set (a ++ b).

Definition Zsum (ws : list Z) : Z := fold_right Z.add 0%Z ws.

(** The weight [calculateDifficulty] adds for the id [x]. *)
Definition weightOf (rules : list Rule) (x : string) : Z :=
  match findRule rules x with
  | Some rule => difficulty rule
  | None => 0%Z
  end.

(** The rules that are not in the set yet: what is left for the loop of
    [randomValidRuleset] to add. *)
Definition absent (rules : list Rule) (s : StringSet) : list Rule :=
  filter (fun rule => negb (Set_has s (id rule))) rules.

(** The state after a replacement by [installed] at time [updatedAt]. *)
Definition replacedBy (rules : list Rule) (installed : StringSet) (updatedAt : Z)
    (result : EngineState * option ChangeEvent) : Prop :=
  isValidRuleset rules installed = true /\ NoDup installed /\
  fst result = mkState installed [] updatedAt /\
  exists reason, snd result = Some (mkEvent reason installed).

(** The runs of [index.ts]: [initializeRules] once the module is loaded,
    then, in any order, [addToViolationHistory] and [evaluateChange] (after
    a message, or from the timer). *)
Inductive reachable (rules : list Rule) {engine : ArraySort} : EngineState -> Prop :=
| reach_initialize (loadedAt updatedAt : Z) draws st event draws' :
    initializeRules rules updatedAt (loadedState loadedAt) draws
      = Normal ((st, event), draws') ->
    reachable rules st
| reach_record (violations : list Rule) st :
    reachable rules st ->
    reachable rules (addToViolationHistory violations st)
| reach_evaluate (now updatedAt : Z) draws st st' event draws' :
    reachable rules st ->
    evaluateChange rules now updatedAt st draws = Normal ((st', event), draws') ->
    reachable rules st'.

(** The error of a check that failed, by throwing or by rejecting. *)
Definition checkFailure (result : CheckResult) : option string :=
  match result with
  | Threw e | Rejected _ e => Some e
  | Returned _ | Resolved _ _ => None
  end.

(** A rule is violated when its check produced [false]. *)
Definition violated (result : CheckResult) : bool :=
  match result with
  | Returned b | Resolved _ b => negb b
  | Threw _ | Rejected _ _ => false
  end.

(** A stand-in for [getFailRatio] that throws when it is called on a
    history shorter than [minimumSampleSize]. *)
Definition guardedFailRatio (st : EngineState) : completion number :=
  if List.length (violationHistoryForThisRuleset st) <? minimumSampleSize
  then Throw
  else Normal (getFailRatio st).

(** [rule.conflictsWith ?? []] *)
Definition conflictsOf (rule : Rule) : list string :=
  match conflictsWith rule with
  | Some cs => cs
  | None => []
  end.

(** The catalog records that the rule with id [x] conflicts with [c]. *)
Definition conflictRecorded (rules : list Rule) (x c : string) : Prop :=
  exists rule, In rule rules /\ id rule = x /\ In c (conflictsOf rule).

(** The ids of a pair are both ids of catalog rules: the pair is not
    skipped by the [conflicts.forEach] pass. *)
Definition knownPair (rules : list Rule) (pair : string * string) : Prop :=
  In (fst pair) (map id rules) /\ In (snd pair) (map id rules).

(** The two announcements of a change made by mutation. *)
Definition madeEasier : string :=
  "The ruleset has been made easier since the fail ratio is high.".

Definition madeHarder : string :=
  "The ruleset has been made harder since the fail ratio is low.".

(** The record of a message that violated at least one rule. *)
Definition violating (record : ViolationRecord) : bool :=
  0 <? List.length (violations record).

(** The message is made of ASCII characters. *)
Definition isAscii (message : string) : bool :=
  forallb Checks.isAsciiChar (list_ascii_of_string message).

(** The characters of the message, as it is written. *)
Definition charactersOf (message : string) : list Ascii.ascii :=
  list_ascii_of_string message.

(** The letters [a] to [z], each as a string. *)
Definition alphabet : list string :=
  map (fun code => String (Ascii.ascii_of_nat code) EmptyString) (seq 97 26).

(** [message.text || ""] *)
Definition textOf (message : SlackMessage) : string :=
  match text message with
  | Some t => t
  | None => ""
  end.

(** The message is one the handler looks at: it has no subtype or is a
    thread broadcast, and it was sent in the configured channel. *)
Definition relevant (CHANNEL_ID : option string) (message : SlackMessage) : Prop :=
  (subtype message = None \/ subtype message = Some "thread_broadcast") /\
  CHANNEL_ID = Some (channel message).

Definition isReaction (post : Post) : bool :=
  match post with
  | ReactionsAdd _ _ _ => true
  | Say _ _ => false
  end.

(* ================================================================== *)
(** ** Example data *)
(* ================================================================== *)

(** Draws that select the rule at index [i] of the nine-rule catalog: the
    value [(2i+1)/18], for which [Math.floor((2i+1)/18 * 9) = i]. *)
Definition pick (i : Z) (H : in_unit_interval ((2 * i + 1) # 18) = true) : Draw :=
  draw (2 * i + 1) 18 H.

Definition pick0 : Draw := pick 0 eq_refl.
Definition pick3 : Draw := pick 3 eq_refl.
Definition pick6 : Draw := pick 6 eq_refl.
Definition pick7 : Draw := pick 7 eq_refl.
Definition pick8 : Draw := pick 8 eq_refl.

(** A draw below [changeChance], which makes [evaluateChange] look at the
    fail ratio. *)
Definition lowDraw : Draw := draw 1 10 eq_refl.

(** A valid ruleset of difficulty 6. *)
Definition exampleRuleset : StringSet := ["all-lowercase"; "unique-messages"].

(** Draws for the fifteen candidates made from [exampleRuleset], three per
    candidate. [easierDraws] makes the first candidate drop [all-lowercase]
    (difficulty 5), the last one drop [unique-messages] (difficulty 1) and
    the others add [no-punctuation] (difficulty 8); [harderDraws] makes the
    first candidate add [no-punctuation] (difficulty 8), the last one add
    three rules (difficulty 15) and the others drop [unique-messages]. *)
Definition easierDraws : list Draw :=
  [pick8; pick8; pick0]
  ++ List.concat (repeat [pick8; pick8; pick8] 13)
  ++ [pick3; pick8; pick8].

Definition harderDraws : list Draw :=
  [pick8; pick8; pick8]
  ++ List.concat (repeat [pick3; pick8; pick8] 13)
  ++ [pick8; pick7; pick6].

(** A history in which every message violated a rule. *)
Definition allFailed (n : nat) : list ViolationRecord :=
  repeat (mkRecord (firstn 1 Chameleon.rules)) n.

(** The search of the workspace fails (the check of [unique-messages]
    rejects); the message has a capital letter, so the check of
    [all-lowercase] returns [false]. *)
Definition searchFails (rule : Rule) (message : string) : CheckResult :=
  if String.eqb (id rule) "unique-messages" then Rejected 1 "search failed"
  else if String.eqb (id rule) "all-lowercase" then Returned false
  else Returned true.

(** A catalog whose only rule conflicts with itself. *)
Definition selfConflicting : list Rule :=
  resolveConflicts [mkRule "only" "Only" "the only rule" None 1] [("only", "only")].

(** The check of [unique-messages] throws before it returns a promise; the
    check of [all-lowercase] returns [false]. *)
Definition searchThrows (rule : Rule) (message : string) : CheckResult :=
  if String.eqb (id rule) "unique-messages" then Threw "search unavailable"
  else if String.eqb (id rule) "all-lowercase" then Returned false
  else Returned true.

(** The catalog rules of the example ruleset, in catalog order. *)
Definition exampleActive : list Rule :=
  filter (fun rule => Set_has exampleRuleset (id rule)) Chameleon.rules.

Definition noRule : Rule := mkRule "" "" "" None 0.

(** A message with a capital letter, sent in the channel [C0123456789]. *)
Definition helloMessage : SlackMessage :=
  mkMessage None "C0123456789" "U0001" (Some "Hello") "1700000000.000100".

(** The reply to [helloMessage] under the ruleset [all-lowercase], and
    the rule it names. *)
Definition lowercaseOnly : list Rule :=
  filter (fun rule => Set_has ["all-lowercase"] (id rule)) Chameleon.rules.

Definition helloPosts : list Post :=
  [Say (replyText helloMessage lowercaseOnly) (ts helloMessage);
   ReactionsAdd "x" (channel helloMessage) (ts helloMessage)].

(* ================================================================== *)
(** * Properties *)
(* ================================================================== *)

(** ** Sets *)

Lemma Set_has_In (s : StringSet) (x : string) : Set_has s x = true <-> In x s.
Proof.
  unfold Set_has. rewrite existsb_exists. split.
  - intros [y [Hy E]]. apply String.eqb_eq in E. now subst.
  - intros H. exists x. split; [assumption | apply String.eqb_refl].
Qed.

Lemma Set_has_not_In (s : StringSet) (x : string) : Set_has s x = false <-> ~ In x s.
Proof.
  rewrite <- Set_has_In. destruct (Set_has s x); split; congruence.
Qed.

Lemma Set_has_app (s t : StringSet) (x : string) :
  Set_has (s ++ t) x = Set_has s x || Set_has t x.
Proof. unfold Set_has. apply existsb_app. Qed.

Lemma Set_has_add (s : StringSet) (x y : string) :
  Set_has (Set_add x s) y = String.eqb y x || Set_has s y.
Proof.
  unfold Set_add. destruct (Set_has s x) eqn:E.
  - destruct (String.eqb_spec y x) as [->|]; simpl; [now rewrite E | reflexivity].
  - rewrite Set_has_app. simpl. rewrite orb_false_r. apply orb_comm.
Qed.

Lemma Set_has_delete (s : StringSet) (x y : string) :
  Set_has (Set_delete x s) y = negb (String.eqb y x) && Set_has s y.
Proof.
  unfold Set_delete. induction s as [|z s IH]; simpl.
  - now rewrite andb_false_r.
  - destruct (String.eqb_spec x z) as [->|Hxz]; simpl.
    + rewrite IH. destruct (String.eqb_spec y z); simpl; reflexivity.
    + rewrite IH. destruct (String.eqb_spec y z) as [->|]; simpl.
      * destruct (String.eqb_spec z x); [congruence | reflexivity].
      * reflexivity.
Qed.

Lemma new_Set_from (xs : list string) (s : StringSet) (y : string) :
  Set_has (fold_left (fun s x => Set_add x s) xs s) y = Set_has s y || Set_has xs y.
Proof.
  revert s. induction xs as [|x xs IH]; intros s; simpl.
  - now rewrite orb_false_r.
  - rewrite IH, Set_has_add. rewrite (String.eqb_sym y x).
    destruct (Set_has s y), (String.eqb x y), (Set_has xs y); reflexivity.
Qed.

Lemma Set_has_new_Set (xs : list string) : sameMembers (new_Set xs) xs.
Proof. intros y. unfold new_Set. now rewrite new_Set_from. Qed.

Lemma NoDup_Set_add (x : string) (s : StringSet) : NoDup s -> NoDup (Set_add x s).
Proof.
  intros H. unfold Set_add. destruct (Set_has s x) eqn:E; [assumption|].
  apply Set_has_not_In in E.
  apply NoDup_rev in H. rewrite <- (rev_involutive (s ++ [x])).
  apply NoDup_rev. rewrite rev_app_distr. simpl. constructor; [|assumption].
  now rewrite <- in_rev.
Qed.

Lemma NoDup_Set_delete (x : string) (s : StringSet) : NoDup s -> NoDup (Set_delete x s).
Proof. intros H. unfold Set_delete. now apply NoDup_filter. Qed.

Lemma NoDup_fold_add (xs : list string) (s : StringSet) :
  NoDup s -> NoDup (fold_left (fun s x => Set_add x s) xs s).
Proof.
  revert s. induction xs as [|x xs IH]; intros s H; simpl; [assumption|].
  apply IH. now apply NoDup_Set_add.
Qed.

Lemma NoDup_new_Set (xs : list string) : NoDup (new_Set xs).
Proof. apply NoDup_fold_add. constructor. Qed.

Lemma fold_add_fresh (xs : list string) (s : StringSet) :
  NoDup (s ++ xs) -> fold_left (fun s x => Set_add x s) xs s = s ++ xs.
Proof.
  revert s. induction xs as [|x xs IH]; intros s H; simpl.
  - now rewrite app_nil_r.
  - assert (E : Set_has s x = false).
    { apply Set_has_not_In. intros Hin. apply NoDup_remove_2 in H.
      apply H. apply in_or_app. now left. }
    unfold Set_add at 2. rewrite E.
    replace (s ++ x :: xs) with ((s ++ [x]) ++ xs) in * by now rewrite <- app_assoc.
    now apply IH.
Qed.

(** Copying a set gives the same set. *)
Lemma new_Set_NoDup (s : StringSet) : NoDup s -> new_Set s = s.
Proof. intros H. unfold new_Set. now rewrite fold_add_fresh. Qed.

Lemma Set_size_add (x : string) (s : StringSet) :
  Set_has s x = false -> Set_size (Set_add x s) = S (Set_size s).
Proof.
  intros E. unfold Set_add, Set_size. rewrite E, length_app. simpl. lia.
Qed.

Lemma Set_size_delete (x : string) (s : StringSet) :
  NoDup s -> Set_has s x = true -> S (Set_size (Set_delete x s)) = Set_size s.
Proof.
  unfold Set_size, Set_delete. induction s as [|z s IH]; intros Hnd E; simpl in *.
  - discriminate.
  - inversion Hnd as [|? ? Hz Hs]; subst.
    destruct (String.eqb_spec x z) as [->|Hxz]; simpl.
    + f_equal. clear IH E Hs Hnd. induction s as [|w s IHs]; simpl; [reflexivity|].
      destruct (String.eqb_spec z w) as [->|]; simpl.
      * exfalso. apply Hz. now left.
      * f_equal. apply IHs. intros Hin. apply Hz. now right.
    + f_equal. apply IH; assumption.
Qed.

(** Two duplicate-free lists with the same members have the same size. *)
Lemma sameMembers_size (s t : StringSet) :
  NoDup s -> NoDup t -> sameMembers s t -> Set_size s = Set_size t.
Proof.
  intros Hs Ht H. unfold Set_size. apply Permutation_length.
  apply NoDup_Permutation; try assumption.
  intros x. rewrite <- !Set_has_In. now rewrite H.
Qed.

Lemma forallb_false_witness {A} (f : A -> bool) (xs : list A) :
  forallb f xs = false -> exists x, In x xs /\ f x = false.
Proof.
  induction xs as [|y xs IH]; simpl; [discriminate|].
  destruct (f y) eqn:E; simpl.
  - intros H. destruct (IH H) as [x [Hin Hx]]. exists x. auto.
  - intros _. exists y. auto.
Qed.

Lemma existsb_pointwise {A} (f g : A -> bool) (xs : list A) :
  (forall x, f x = g x) -> existsb f xs = existsb g xs.
Proof.
  intros H. induction xs as [|x xs IH]; simpl; [reflexivity|].
  now rewrite H, IH.
Qed.

(** Sets that differ differ on some string. *)
Lemma different_members (s t : StringSet) :
  ~ sameMembers s t -> exists x, Set_has s x <> Set_has t x.
Proof.
  intros H.
  destruct (forallb (fun x => Bool.eqb (Set_has s x) (Set_has t x)) (s ++ t)) eqn:E.
  - exfalso. apply H. intros x.
    destruct (Set_has (s ++ t) x) eqn:Hx.
    + rewrite forallb_forall in E. apply Bool.eqb_prop, E. now apply Set_has_In.
    + rewrite Set_has_app in Hx. apply orb_false_elim in Hx. destruct Hx; congruence.
  - apply forallb_false_witness in E. destruct E as [x [_ Hx]].
    exists x. intros Heq. rewrite Heq, Bool.eqb_reflx in Hx. discriminate.
Qed.

(** ** The monad *)

Lemma bind_Normal {A B} (m : Rand A) (k : A -> Rand B) draws b draws' :
  bind m k draws = Normal (b, draws') ->
  exists a draws1, m draws = Normal (a, draws1) /\ k a draws1 = Normal (b, draws').
Proof.
  unfold bind. destruct (m draws) as [[a draws1]| |]; try discriminate.
  intros H. now exists a, draws1.
Qed.

Lemma lift_Normal {A} (c : completion A) draws a draws' :
  lift c draws = Normal (a, draws') -> c = Normal a /\ draws' = draws.
Proof.
  unfold lift, cbind. destruct c; try discriminate.
  intros H. inversion H. auto.
Qed.

Lemma cbind_Normal {A B} (c : completion A) (k : A -> completion B) b :
  cbind c k = Normal b -> exists a, c = Normal a /\ k a = Normal b.
Proof.
  unfold cbind. destruct c; try discriminate. intros H. now exists a.
Qed.

Lemma ret_Normal {A} (a b : A) draws draws' :
  ret a draws = Normal (b, draws') -> b = a /\ draws' = draws.
Proof. unfold ret. intros H. inversion H. auto. Qed.

(** Takes a hypothesis that a sequence of binds returned apart. *)
Ltac returned H :=
  repeat match type of H with
  | bind _ _ _ = Normal _ =>
      let a := fresh "a" in let d := fresh "draws" in
      let H1 := fresh "Hcall" in
      apply bind_Normal in H; destruct H as [a [d [H1 H]]]
  end.

Lemma Array_from_Forall {A} (P : A -> Prop) (m : Rand A) :
  (forall draws a draws', m draws = Normal (a, draws') -> P a) ->
  forall n draws xs draws',
    Array_from n m draws = Normal (xs, draws') -> Forall P xs /\ List.length xs = n.
Proof.
  intros Hm. induction n as [|n IH]; intros draws xs draws' H; simpl in H.
  - apply ret_Normal in H. destruct H as [-> _]. split; [constructor | reflexivity].
  - returned H. apply ret_Normal in H. destruct H as [-> _].
    destruct (IH _ _ _ Hcall0) as [Hall Hlen].
    split; [constructor; eauto | simpl; now rewrite Hlen].
Qed.

Lemma Array_filter_In {A} (p : A -> completion bool) (xs ys : list A) :
  Array_filter p xs = Normal ys ->
  forall y, In y ys -> In y xs /\ p y = Normal true.
Proof.
  revert ys. induction xs as [|x xs IH]; intros ys H y Hy; simpl in H.
  - inversion H; subst. destruct Hy.
  - apply cbind_Normal in H. destruct H as [b [Hb H]].
    apply cbind_Normal in H. destruct H as [zs [Hzs H]].
    inversion H; subst; clear H.
    destruct b.
    + destruct Hy as [<-|Hy]; [split; [now left | assumption]|].
      destruct (IH _ Hzs _ Hy). split; [now right | assumption].
    + destruct (IH _ Hzs _ Hy). split; [now right | assumption].
Qed.

Lemma Array_pop_In {A} (xs : list A) (x : A) : Array_pop xs = Some x -> In x xs.
Proof.
  induction xs as [|y xs IH]; simpl; [discriminate|].
  destruct xs as [|z xs].
  - intros H. inversion H. now left.
  - intros H. right. now apply IH.
Qed.

Lemma Array_pop_None {A} (xs : list A) : Array_pop xs = None -> xs = [].
Proof.
  induction xs as [|y xs IH]; simpl; [reflexivity|].
  destruct xs as [|z xs]; [discriminate|].
  intros H. specialize (IH H). discriminate.
Qed.

Lemma Array_pop_last {A} (xs : list A) (x : A) : Array_pop (xs ++ [x]) = Some x.
Proof.
  induction xs as [|y xs IH]; simpl; [reflexivity|].
  rewrite IH. destruct (xs ++ [x]) eqn:E; [|reflexivity].
  now destruct xs.
Qed.

(** ** Validity is preserved by the search *)

Section Validity.

Variable rules : list Rule.

Lemma isValidRuleset_sameMembers (s t : StringSet) :
  sameMembers s t -> isValidRuleset rules s = isValidRuleset rules t.
Proof.
  intros H. unfold isValidRuleset. f_equal.
  rewrite (filter_ext _ (fun rule => Set_has t (id rule)))
    by (intros rule; apply H).
  apply existsb_pointwise. intros x. apply H.
Qed.

Lemma isValidRuleset_empty : isValidRuleset rules [] = true.
Proof.
  unfold isValidRuleset. simpl.
  replace (filter (fun _ : Rule => false) rules) with (@nil Rule); [reflexivity|].
  induction rules; simpl; auto.
Qed.

Lemma isValidRuleset_new_Set (s : StringSet) :
  isValidRuleset rules (new_Set s) = isValidRuleset rules s.
Proof. apply isValidRuleset_sameMembers, Set_has_new_Set. Qed.

Lemma toggleUntilValid_accepts (oldRuleset : StringSet) (draws : list Draw) r draws' :
  toggleUntilValid rules oldRuleset draws = Normal (r, draws') ->
  isValidRuleset rules r = true /\ flipped (new_Set oldRuleset) r.
Proof.
  induction draws as [|d draws IH]; simpl; [discriminate|].
  destruct (nth_error rules (randomIndex d (List.length rules))) as [ruleToChange|];
    [|discriminate].
  destruct (Set_has (new_Set oldRuleset) (id ruleToChange)) eqn:Hhas.
  - destruct (isValidRuleset rules (Set_delete (id ruleToChange) (new_Set oldRuleset))) eqn:V.
    + intros H. inversion H; subst. split; [assumption|].
      exists (id ruleToChange). now left.
    + apply IH.
  - destruct (isValidRuleset rules (Set_add (id ruleToChange) (new_Set oldRuleset))) eqn:V.
    + intros H. inversion H; subst. split; [assumption|].
      exists (id ruleToChange). now right.
    + apply IH.
Qed.

Lemma flipped_NoDup (s r : StringSet) : NoDup s -> flipped s r -> NoDup r.
Proof.
  intros Hs [x [[_ ->]|[_ ->]]];
    [now apply NoDup_Set_delete | now apply NoDup_Set_add].
Qed.

Lemma flipped_parity (s r : StringSet) :
  NoDup s -> flipped s r -> Nat.even (Set_size r) = negb (Nat.even (Set_size s)).
Proof.
  intros Hs [x [[Hx ->]|[Hx ->]]].
  - rewrite <- (Set_size_delete x s Hs Hx). rewrite Nat.even_succ, <- Nat.negb_even.
    now rewrite negb_involutive.
  - rewrite (Set_size_add x s Hx). now rewrite Nat.even_succ, <- Nat.negb_even.
Qed.

(** What [amount] accepted toggles do to a set. *)
Lemma mutateLoop_returns (amount : nat) (s : StringSet) draws r draws' :
  NoDup s ->
  mutateLoop rules amount s draws = Normal (r, draws') ->
  NoDup r /\
  (isValidRuleset rules s = true \/ 0 < amount -> isValidRuleset rules r = true) /\
  Nat.even (Set_size r) = Nat.even (amount + Set_size s).
Proof.
  revert s draws. induction amount as [|n IH]; intros s draws Hs H; simpl in H.
  - apply ret_Normal in H. destruct H as [-> _].
    split; [assumption|]. split; [|reflexivity].
    intros [V|L]; [assumption | lia].
  - returned H. rewrite (new_Set_NoDup s Hs) in Hcall.
    apply toggleUntilValid_accepts in Hcall. destruct Hcall as [Va Hflip].
    rewrite (new_Set_NoDup s Hs) in Hflip.
    assert (Ha : NoDup a) by (eapply flipped_NoDup; eassumption).
    destruct (IH _ _ Ha H) as [Hr [Vr Pr]].
    split; [assumption|]. split; [intros _; apply Vr; now left |].
    rewrite Pr. rewrite !Nat.even_add. rewrite (flipped_parity s a Hs Hflip).
    rewrite Nat.even_succ, <- Nat.negb_even.
    destruct (Nat.even n), (Nat.even (Set_size s)); reflexivity.
Qed.

Lemma mutateRuleset_returns (currentRuleset : StringSet) (amount : nat) draws r draws' :
  mutateRuleset rules currentRuleset amount draws = Normal (r, draws') ->
  NoDup r /\
  (isValidRuleset rules currentRuleset = true \/ 0 < amount -> isValidRuleset rules r = true) /\
  Nat.even (Set_size r) = Nat.even (amount + Set_size (new_Set currentRuleset)).
Proof.
  unfold mutateRuleset. intros H.
  apply mutateLoop_returns in H; [|apply NoDup_new_Set].
  now rewrite isValidRuleset_new_Set in H.
Qed.

Lemma getAdditionalValidRules_In (s : StringSet) (x : string) :
  In x (getAdditionalValidRules rules s) ->
  Set_has s x = false /\ isValidRuleset rules (Set_add x s) = true /\
  exists rule, In rule rules /\ id rule = x.
Proof.
  unfold getAdditionalValidRules. intros H.
  apply Set_has_In in H. rewrite Set_has_new_Set in H. apply Set_has_In in H.
  apply in_map_iff in H. destruct H as [rule [<- H]].
  apply filter_In in H. destruct H as [Hin H].
  apply andb_true_iff in H. destruct H as [Hnot V].
  apply negb_true_iff in Hnot.
  repeat split; [assumption | | now exists rule].
  rewrite isValidRuleset_new_Set in V.
  unfold Set_add. now rewrite Hnot.
Qed.

Lemma growRuleset_valid (roughDifficulty : Q) (draws : list Draw) :
  forall s r draws',
    isValidRuleset rules s = true -> NoDup s ->
    growRuleset rules roughDifficulty s draws = Normal (r, draws') ->
    isValidRuleset rules r = true /\ NoDup r.
Proof.
  induction draws as [|d draws IH]; intros s r draws' V Hs H; simpl in H;
    destruct (calculateDifficulty rules s) as [w| |]; try discriminate;
    destruct (Qlt_bool (inject_Z w) roughDifficulty);
    try (inversion H; subst; now split);
    destruct (Set_size (getAdditionalValidRules rules s) =? 0);
    try (inversion H; subst; now split); try discriminate.
  destruct (nth_error _ _) as [ruleToAdd|] eqn:E; [|discriminate].
  apply nth_error_In, getAdditionalValidRules_In in E. destruct E as [_ [Va _]].
  apply (IH _ _ _ Va (NoDup_Set_add _ _ Hs) H).
Qed.

Lemma randomValidRulesetRetry_valid (retriesLeft : nat) (roughDifficulty : Q) draws r draws' :
  randomValidRulesetRetry rules retriesLeft roughDifficulty draws = Normal (r, draws') ->
  isValidRuleset rules r = true /\ NoDup r.
Proof.
  revert draws. induction retriesLeft as [|n IH]; intros draws H; simpl in H;
    returned H;
    apply (growRuleset_valid _ _ _ _ _ isValidRuleset_empty (NoDup_nil _)) in Hcall.
  - destruct (Set_size a); apply ret_Normal in H; destruct H as [-> _]; assumption.
  - destruct (Set_size a); [eapply IH; eassumption|].
    apply ret_Normal in H; destruct H as [-> _]; assumption.
Qed.

Lemma randomValidRuleset_valid (roughDifficulty : Q) (attempt : nat) draws r draws' :
  randomValidRuleset rules roughDifficulty attempt draws = Normal (r, draws') ->
  isValidRuleset rules r = true /\ NoDup r.
Proof. apply randomValidRulesetRetry_valid. Qed.

End Validity.

(** ** [mutateRuleset] can return *)

(** For every index there is a value of [Math.random()] that selects it. *)
Lemma draw_for_index (n i : nat) : i < n -> exists d, randomIndex d n = i.
Proof.
  intros H.
  assert (Hn : Zpos (Pos.of_nat n) = Z.of_nat n).
  { destruct n as [|n]; [lia|]. rewrite <- Pos.of_nat_succ. now rewrite Zpos_P_of_succ_nat, Nat2Z.inj_succ. }
  assert (Hunit : in_unit_interval (Z.of_nat i # Pos.of_nat n) = true).
  { unfold in_unit_interval, Qle_bool. cbn [Qnum Qden]. rewrite Hn.
    apply andb_true_iff. split.
    - apply Z.leb_le. lia.
    - apply negb_true_iff, Z.leb_gt. lia. }
  exists (mkDraw _ Hunit). unfold randomIndex. cbn [value].
  unfold Qmult, inject_Z, Qfloor. cbn [Qnum Qden].
  rewrite Pos.mul_1_r, Hn, Z.div_mul by lia. apply Nat2Z.id.
Qed.

Lemma toggled_twice (x : string) (s : StringSet) : sameMembers (toggled x (toggled x s)) s.
Proof.
  intros y. unfold toggled.
  destruct (Set_has s x) eqn:E.
  - rewrite Set_has_delete, String.eqb_refl. simpl.
    rewrite Set_has_add, Set_has_delete.
    destruct (String.eqb_spec y x) as [->|]; simpl; [now rewrite E | reflexivity].
  - rewrite Set_has_add, String.eqb_refl. simpl.
    rewrite Set_has_delete, Set_has_add.
    destruct (String.eqb_spec y x) as [->|]; simpl; [now rewrite E | reflexivity].
Qed.

Lemma NoDup_toggled (x : string) (s : StringSet) : NoDup s -> NoDup (toggled x s).
Proof.
  intros H. unfold toggled.
  destruct (Set_has s x); [now apply NoDup_Set_delete | now apply NoDup_Set_add].
Qed.

Section Progress.

Variable rules : list Rule.

(** A subset of a valid ruleset is valid. *)
Lemma isValidRuleset_subset (s t : StringSet) :
  (forall x, Set_has t x = true -> Set_has s x = true) ->
  isValidRuleset rules s = true -> isValidRuleset rules t = true.
Proof.
  intros Hsub Hs. unfold isValidRuleset in *.
  apply negb_true_iff in Hs. apply negb_true_iff.
  destruct (existsb _ (flat_map _ (filter (fun rule => Set_has t (id rule)) rules))) eqn:E;
    [|reflexivity].
  rewrite <- Hs. symmetry.
  apply existsb_exists in E. destruct E as [c [Hc Ht]].
  apply in_flat_map in Hc. destruct Hc as [rule [Hrule Hconf]].
  apply filter_In in Hrule. destruct Hrule as [Hin Hmember].
  apply existsb_exists. exists c. split; [|now apply Hsub].
  apply in_flat_map. exists rule. split; [|assumption].
  apply filter_In. split; [assumption | now apply Hsub].
Qed.

(** With [amount] draws that select a rule whose toggle is accepted,
    [mutateRuleset] toggles that rule back and forth and returns. *)
Lemma mutateLoop_can_return (d : Draw) (rule : Rule) (rest : list Draw) :
  nth_error rules (randomIndex d (List.length rules)) = Some rule ->
  forall amount s,
    NoDup s -> isValidRuleset rules s = true ->
    isValidRuleset rules (toggled (id rule) s) = true ->
    exists r, mutateLoop rules amount s (repeat d amount ++ rest) = Normal (r, rest) /\
              (forall x, In x r -> In x s \/ x = id rule).
Proof.
  intros Hd. induction amount as [|n IH]; intros s Hs V Vt.
  - exists s. split; [reflexivity | auto].
  - destruct (IH (toggled (id rule) s)) as [r [Hr Hmem]].
    + now apply NoDup_toggled.
    + assumption.
    + now rewrite (isValidRuleset_sameMembers rules _ _ (toggled_twice (id rule) s)).
    + exists r. split.
      * cbn [repeat app mutateLoop]. unfold bind. cbn [toggleUntilValid].
        rewrite Hd, (new_Set_NoDup _ Hs), (new_Set_NoDup _ Hs).
        fold (toggled (id rule) s). rewrite Vt. exact Hr.
      * intros x Hx. destruct (Hmem x Hx) as [Hx'|Hx']; [|now right].
        unfold toggled in Hx'. apply Set_has_In in Hx'.
        destruct (Set_has s (id rule)).
        -- rewrite Set_has_delete in Hx'. apply andb_true_iff in Hx'.
           left. now apply Set_has_In.
        -- rewrite Set_has_add in Hx'. apply orb_true_iff in Hx'.
           destruct Hx' as [Hx'|Hx']; [right; now apply String.eqb_eq | left; now apply Set_has_In].
Qed.

(** A valid ruleset of catalog ids has a toggle that is accepted, unless
    it is empty and no rule can be added to the empty set. *)
Lemma accepted_toggle_exists (s : StringSet) :
  NoDup s -> isValidRuleset rules s = true ->
  (forall x, In x s -> In x (map id rules)) ->
  s <> [] \/ getAdditionalValidRules rules [] <> [] ->
  exists rule, In rule rules /\ isValidRuleset rules (toggled (id rule) s) = true.
Proof.
  intros Hs V Hknown Hsome. destruct s as [|x s].
  - destruct Hsome as [Hsome|Hsome]; [congruence|].
    destruct (getAdditionalValidRules rules []) as [|y ys] eqn:E; [congruence|].
    assert (Hy : In y (getAdditionalValidRules rules [])) by (rewrite E; now left).
    apply getAdditionalValidRules_In in Hy.
    destruct Hy as [_ [Vy [rule [Hin <-]]]]. exists rule. split; [assumption|].
    exact Vy.
  - assert (Hx : In x (map id rules)) by (apply Hknown; now left).
    apply in_map_iff in Hx. destruct Hx as [rule [<- Hin]].
    exists rule. split; [assumption|].
    assert (Hmember : Set_has (id rule :: s) (id rule) = true)
      by (apply Set_has_In; now left).
    unfold toggled. rewrite Hmember.
    apply (isValidRuleset_subset (id rule :: s)); [|assumption].
    intros y Hy. rewrite Set_has_delete in Hy. now apply andb_true_iff in Hy.
Qed.

Lemma mutateRuleset_can_return (currentRuleset : StringSet) (amount : nat) :
  NoDup currentRuleset -> isValidRuleset rules currentRuleset = true ->
  (forall x, In x currentRuleset -> In x (map id rules)) ->
  currentRuleset <> [] \/ getAdditionalValidRules rules [] <> [] ->
  exists d, forall rest,
    exists r, mutateRuleset rules currentRuleset amount (repeat d amount ++ rest)
                = Normal (r, rest) /\
              (forall x, In x r -> In x (map id rules)).
Proof.
  intros Hs V Hknown Hsome.
  destruct (accepted_toggle_exists _ Hs V Hknown Hsome) as [rule [Hin Vt]].
  apply In_nth_error in Hin. destruct Hin as [i Hi].
  assert (Hlt : i < List.length rules) by (apply nth_error_Some; congruence).
  destruct (draw_for_index _ _ Hlt) as [d Hd].
  exists d. intros rest. unfold mutateRuleset. rewrite (new_Set_NoDup _ Hs).
  destruct (mutateLoop_can_return d rule rest) with (amount := amount) (s := currentRuleset)
    as [r [Hr Hmem]]; try assumption; [now rewrite Hd|].
  exists r. split; [assumption|].
  intros x Hx. destruct (Hmem x Hx) as [Hx'| ->]; [now apply Hknown|].
  apply in_map. eapply nth_error_In; eassumption.
Qed.

End Progress.

(** ** Difficulty *)

Lemma fold_left_Zsum (ws : list Z) (acc : Z) :
  fold_left (fun acc val => (acc + val)%Z) ws acc = (acc + Zsum ws)%Z.
Proof.
  revert acc. induction ws as [|w ws IH]; intros acc; simpl; [lia|].
  rewrite IH. lia.
Qed.

Lemma Zsum_app (u v : list Z) : Zsum (u ++ v) = (Zsum u + Zsum v)%Z.
Proof. induction u as [|w u IH]; simpl; [reflexivity | rewrite IH; lia]. Qed.

Section Difficulty.

Variable rules : list Rule.

Lemma findRule_Some (x : string) (rule : Rule) :
  findRule rules x = Some rule -> In rule rules /\ id rule = x.
Proof.
  unfold findRule. intros H. apply find_some in H. destruct H as [Hin E].
  split; [assumption | now apply String.eqb_eq].
Qed.

Lemma findRule_known (x : string) :
  In x (map id rules) -> exists rule, findRule rules x = Some rule.
Proof.
  intros H. destruct (findRule rules x) as [rule|] eqn:E; [now exists rule|].
  exfalso. apply in_map_iff in H. destruct H as [rule [<- Hin]].
  unfold findRule in E. apply (find_none _ _ E) in Hin.
  now rewrite String.eqb_refl in Hin.
Qed.

Lemma calculateDifficulty_known (s : StringSet) :
  (forall x, In x s -> In x (map id rules)) ->
  calculateDifficulty rules s = Normal (Zsum (map (weightOf rules) s)).
Proof.
  unfold calculateDifficulty. intros H.
  assert (E : Array_map (fun x => match findRule rules x with
                                  | Some rule => Normal (difficulty rule)
                                  | None => Throw
                                  end) s = Normal (map (weightOf rules) s)).
  { induction s as [|x s IH]; simpl; [reflexivity|].
    destruct (findRule_known x) as [rule Hr]; [apply H; now left|].
    unfold weightOf at 1. rewrite Hr. simpl.
    rewrite IH by (intros y Hy; apply H; now right). reflexivity. }
  rewrite E. simpl. now rewrite fold_left_Zsum.
Qed.

Lemma calculateDifficulty_Normal (s : StringSet) (d : Z) :
  calculateDifficulty rules s = Normal d ->
  d = Zsum (map (weightOf rules) s) /\ forall x, In x s -> In x (map id rules).
Proof.
  unfold calculateDifficulty. intros H.
  apply cbind_Normal in H. destruct H as [ws [Hws H]].
  inversion H; subst; clear H. rewrite fold_left_Zsum.
  revert ws Hws. induction s as [|x s IH]; intros ws Hws; simpl in Hws.
  - inversion Hws; subst. split; [reflexivity | intros x []].
  - apply cbind_Normal in Hws. destruct Hws as [w [Hw Hws]].
    apply cbind_Normal in Hws. destruct Hws as [ws' [Hws' Hws]].
    inversion Hws; subst; clear Hws.
    destruct (IH _ Hws') as [E Hknown].
    destruct (findRule rules x) as [rule|] eqn:Hr; [|discriminate].
    inversion Hw; subst; clear Hw. split.
    + simpl. unfold weightOf at 1. rewrite Hr. simpl in E. lia.
    + intros y [<-|Hy]; [|now apply Hknown].
      apply findRule_Some in Hr. destruct Hr as [Hin <-]. now apply in_map.
Qed.

Lemma weightOf_positive (x : string) :
  (forall rule, In rule rules -> (1 <= difficulty rule)%Z) -> (0 <= weightOf rules x)%Z.
Proof.
  intros H. unfold weightOf. destruct (findRule rules x) as [rule|] eqn:E; [|lia].
  apply findRule_Some in E. destruct E as [Hin _]. specialize (H _ Hin). lia.
Qed.

(** The weights of a duplicate-free list are among those of any list that
    contains its members. *)
Lemma Zsum_incl (w : string -> Z) (a : StringSet) :
  forall b, NoDup a -> incl a b -> (forall x, 0 <= w x)%Z ->
            (Zsum (map w a) <= Zsum (map w b))%Z.
Proof.
  induction a as [|x a IH]; intros b Ha Hincl Hw; simpl.
  - induction b as [|y b IHb]; simpl; [lia|].
    specialize (Hw y). assert (incl [] b) by (intros z []). specialize (IHb H). lia.
  - inversion Ha as [|? ? Hx Ha']; subst.
    destruct (in_split x b) as [b1 [b2 ->]]; [apply Hincl; now left|].
    rewrite map_app, Zsum_app. simpl.
    assert (Hrest : incl a (b1 ++ b2)).
    { intros y Hy. assert (Hy' : In y (b1 ++ x :: b2)) by (apply Hincl; now right).
      apply in_app_or in Hy'. apply in_or_app.
      destruct Hy' as [?|[->|?]]; [now left | contradiction | now right]. }
    specialize (IH _ Ha' Hrest Hw). rewrite map_app, Zsum_app in IH. lia.
Qed.

End Difficulty.

(** ** Easier and harder rulesets *)

Section Nearest.

Variable rules : list Rule.
Context {engine : ArraySort}.

(** Every candidate of [makeEasierRuleset] and [makeHarderRuleset] is a
    valid duplicate-free set. *)
Lemma candidates_valid (currentRuleset : StringSet) draws candidates draws' :
  Array_from mutationIterations (mutateRuleset rules currentRuleset mutationAmount) draws
    = Normal (candidates, draws') ->
  Forall (fun r => isValidRuleset rules r = true /\ NoDup r) candidates /\
  List.length candidates = mutationIterations.
Proof.
  apply Array_from_Forall. intros ds r ds' H.
  apply mutateRuleset_returns in H. destruct H as [Hnd [V _]].
  split; [apply V; right; unfold mutationAmount; lia | assumption].
Qed.

Lemma makeEasierRuleset_returns (currentRuleset : StringSet) draws res draws' :
  makeEasierRuleset rules currentRuleset draws = Normal (res, draws') ->
  (success res = false /\ ruleset res = currentRuleset) \/
  (success res = true /\ isValidRuleset rules (ruleset res) = true /\
   exists d d', calculateDifficulty rules currentRuleset = Normal d /\
                calculateDifficulty rules (ruleset res) = Normal d' /\ (d' < d)%Z).
Proof.
  unfold makeEasierRuleset. intros H. returned H.
  apply candidates_valid in Hcall. destruct Hcall as [Hall _].
  apply lift_Normal in Hcall0. destruct Hcall0 as [Hfilter _].
  destruct (Array_pop _) as [closestRuleset|] eqn:P;
    apply ret_Normal in H; destruct H as [-> _]; simpl; [right | now left].
  apply Array_pop_In in P.
  apply (Permutation_in _ (Array_sort_permutation _ _ _)) in P.
  destruct (Array_filter_In _ _ _ Hfilter _ P) as [Hin Hp].
  apply cbind_Normal in Hp. destruct Hp as [d' [Hd' Hp]].
  apply cbind_Normal in Hp. destruct Hp as [d [Hd Hp]].
  injection Hp as Hlt. apply Z.ltb_lt in Hlt.
  rewrite Forall_forall in Hall. destruct (Hall _ Hin) as [V _].
  split; [reflexivity|]. split; [assumption|]. now exists d, d'.
Qed.

Lemma makeHarderRuleset_returns (currentRuleset : StringSet) draws res draws' :
  makeHarderRuleset rules currentRuleset draws = Normal (res, draws') ->
  (success res = false /\ ruleset res = currentRuleset) \/
  (success res = true /\ isValidRuleset rules (ruleset res) = true /\
   exists d d', calculateDifficulty rules currentRuleset = Normal d /\
                calculateDifficulty rules (ruleset res) = Normal d' /\ (d < d')%Z).
Proof.
  unfold makeHarderRuleset. intros H. returned H.
  apply candidates_valid in Hcall. destruct Hcall as [Hall _].
  apply lift_Normal in Hcall0. destruct Hcall0 as [Hfilter _].
  destruct (Array_pop _) as [closestRuleset|] eqn:P;
    apply ret_Normal in H; destruct H as [-> _]; simpl; [right | now left].
  apply Array_pop_In in P.
  apply (Permutation_in _ (Array_sort_permutation _ _ _)) in P.
  destruct (Array_filter_In _ _ _ Hfilter _ P) as [Hin Hp].
  apply cbind_Normal in Hp. destruct Hp as [d' [Hd' Hp]].
  apply cbind_Normal in Hp. destruct Hp as [d [Hd Hp]].
  injection Hp as Hgt. apply Z.gtb_lt in Hgt.
  rewrite Forall_forall in Hall. destruct (Hall _ Hin) as [V _].
  split; [reflexivity|]. split; [assumption|]. now exists d, d'.
Qed.

Lemma Array_from_can_return {A} (P : A -> Prop) (m : Rand A) (ds : list Draw) :
  (forall rest, exists a, m (ds ++ rest) = Normal (a, rest) /\ P a) ->
  forall n rest,
    exists xs, Array_from n m (List.concat (repeat ds n) ++ rest) = Normal (xs, rest) /\
               Forall P xs.
Proof.
  intros Hm. induction n as [|n IH]; intros rest.
  - exists []. split; [reflexivity | constructor].
  - cbn [repeat List.concat]. rewrite <- app_assoc.
    destruct (Hm (List.concat (repeat ds n) ++ rest)) as [a [Ha Pa]].
    destruct (IH rest) as [xs [Hxs Pxs]].
    exists (a :: xs). split; [|now constructor].
    cbn [Array_from]. unfold bind. rewrite Ha, Hxs. reflexivity.
Qed.

Lemma Array_filter_can_return {A} (p : A -> completion bool) (xs : list A) :
  Forall (fun x => exists b, p x = Normal b) xs ->
  exists ys, Array_filter p xs = Normal ys.
Proof.
  induction 1 as [|x xs [b Hb] _ [ys IH]]; [now exists []|].
  cbn [Array_filter]. rewrite Hb, IH. cbn [cbind]. now eexists.
Qed.

(** Some draws make [makeEasierRuleset] and [makeHarderRuleset] return. *)
Lemma nearest_can_return (currentRuleset : StringSet) :
  NoDup currentRuleset -> isValidRuleset rules currentRuleset = true ->
  (forall x, In x currentRuleset -> In x (map id rules)) ->
  currentRuleset <> [] \/ getAdditionalValidRules rules [] <> [] ->
  exists draws easier harder,
    makeEasierRuleset rules currentRuleset draws = Normal (easier, []) /\
    makeHarderRuleset rules currentRuleset draws = Normal (harder, []).
Proof.
  intros Hs V Hknown Hsome.
  destruct (mutateRuleset_can_return rules currentRuleset mutationAmount
              Hs V Hknown Hsome) as [d Hd].
  destruct (Array_from_can_return _ _ _ Hd mutationIterations []) as [candidates [Hc Pc]].
  assert (Hcur := calculateDifficulty_known rules currentRuleset Hknown).
  assert (Hdiff : Forall (fun r => exists w, calculateDifficulty rules r = Normal w)
                         candidates).
  { eapply Forall_impl; [|exact Pc]. intros r Hr.
    eexists. now apply calculateDifficulty_known. }
  eexists. unfold makeEasierRuleset, makeHarderRuleset, bind, lift.
  rewrite Hc.
  destruct (Array_filter_can_return
              (fun ruleset =>
                 cbind (calculateDifficulty rules ruleset) (fun d =>
                 cbind (calculateDifficulty rules currentRuleset) (fun c =>
                 Normal (d <? c)%Z))) candidates) as [lower Hlower].
  { eapply Forall_impl; [|exact Hdiff]. intros r [w Hw].
    rewrite Hw, Hcur. cbn [cbind]. now eexists. }
  destruct (Array_filter_can_return
              (fun ruleset =>
                 cbind (calculateDifficulty rules ruleset) (fun d =>
                 cbind (calculateDifficulty rules currentRuleset) (fun c =>
                 Normal (d >? c)%Z))) candidates) as [higher Hhigher].
  { eapply Forall_impl; [|exact Hdiff]. intros r [w Hw].
    rewrite Hw, Hcur. cbn [cbind]. now eexists. }
  rewrite Hlower, Hhigher. cbn [cbind].
  destruct (Array_pop (Array_sort StringSet _ lower));
    destruct (Array_pop (Array_sort StringSet _ higher));
    eexists _, _; split; reflexivity.
Qed.

End Nearest.

(** On V8 the sort of [makeEasierRuleset] and of [makeHarderRuleset] does
    nothing: their comparators are positive on every candidate that passed
    the filter. So [pop] returns the last such candidate. *)
Lemma makeEasierRuleset_on_V8 (rules : list Rule) (currentRuleset : StringSet)
    draws candidates draws' filtered :
  Array_from mutationIterations (mutateRuleset rules currentRuleset mutationAmount) draws
    = Normal (candidates, draws') ->
  Array_filter
    (fun ruleset =>
       cbind (calculateDifficulty rules ruleset) (fun d =>
       cbind (calculateDifficulty rules currentRuleset) (fun c =>
       Normal (d <? c)%Z)))
    candidates = Normal filtered ->
  makeEasierRuleset (engine := V8_engine) rules currentRuleset draws =
  Normal (match Array_pop filtered with
          | None => mkResult false currentRuleset
          | Some closestRuleset => mkResult true closestRuleset
          end, draws').
Proof.
  intros Hcandidates Hfilter. unfold makeEasierRuleset, bind, lift.
  rewrite Hcandidates, Hfilter. cbn [cbind Array_sort V8_engine].
  rewrite V8.sort_positive; [now destruct (Array_pop filtered)|].
  intros a b Ha. destruct (Array_filter_In _ _ _ Hfilter _ Ha) as [_ Hp].
  apply cbind_Normal in Hp. destruct Hp as [d [Hd Hp]].
  apply cbind_Normal in Hp. destruct Hp as [c [Hc Hp]].
  injection Hp as Hlt. apply Z.ltb_lt in Hlt.
  rewrite Hc, Hd. simpl. lia.
Qed.

Lemma makeHarderRuleset_on_V8 (rules : list Rule) (currentRuleset : StringSet)
    draws candidates draws' filtered :
  Array_from mutationIterations (mutateRuleset rules currentRuleset mutationAmount) draws
    = Normal (candidates, draws') ->
  Array_filter
    (fun ruleset =>
       cbind (calculateDifficulty rules ruleset) (fun d =>
       cbind (calculateDifficulty rules currentRuleset) (fun c =>
       Normal (d >? c)%Z)))
    candidates = Normal filtered ->
  makeHarderRuleset (engine := V8_engine) rules currentRuleset draws =
  Normal (match Array_pop filtered with
          | None => mkResult false currentRuleset
          | Some closestRuleset => mkResult true closestRuleset
          end, draws').
Proof.
  intros Hcandidates Hfilter. unfold makeHarderRuleset, bind, lift.
  rewrite Hcandidates, Hfilter. cbn [cbind Array_sort V8_engine].
  rewrite V8.sort_positive; [now destruct (Array_pop filtered)|].
  intros a b Ha. destruct (Array_filter_In _ _ _ Hfilter _ Ha) as [_ Hp].
  apply cbind_Normal in Hp. destruct Hp as [d [Hd Hp]].
  apply cbind_Normal in Hp. destruct Hp as [c [Hc Hp]].
  injection Hp as Hgt. apply Z.gtb_lt in Hgt.
  rewrite Hc, Hd. simpl. lia.
Qed.

(** ** The controller *)

Lemma updateRules_installs (newRuleset : StringSet) (reason : string) (now : Z)
    (st : EngineState) :
  updateRules newRuleset reason now st =
  (mkState (new_Set newRuleset) [] now, mkEvent reason (new_Set newRuleset)).
Proof.
  unfold updateRules.
  change (fold_left (fun active rule => Set_add rule active) (new_Set newRuleset) [])
    with (new_Set (new_Set newRuleset)).
  now rewrite (new_Set_NoDup _ (NoDup_new_Set newRuleset)).
Qed.

Section Controller.

Variable rules : list Rule.
Context {engine : ArraySort}.

Lemma install_valid (installed : StringSet) (reason : string) (updatedAt : Z)
    (st : EngineState) draws result draws' :
  isValidRuleset rules installed = true -> NoDup installed ->
  (let (st', event) := updateRules installed reason updatedAt st in
   ret (st', Some event)) draws = Normal (result, draws') ->
  replacedBy rules installed updatedAt result.
Proof.
  intros V Hnd H. rewrite updateRules_installs, (new_Set_NoDup _ Hnd) in H.
  apply ret_Normal in H. destruct H as [-> _].
  repeat split; try assumption. now exists reason.
Qed.

Lemma regenerate_returns (reason : string) (updatedAt : Z) (st : EngineState)
    draws result draws' :
  regenerate rules reason updatedAt st draws = Normal (result, draws') ->
  exists installed, replacedBy rules installed updatedAt result.
Proof.
  unfold regenerate. intros H. returned H.
  apply randomValidRuleset_valid in Hcall0. destruct Hcall0 as [V Hnd].
  exists a0. eapply install_valid; eassumption.
Qed.

Lemma initializeRules_returns (updatedAt : Z) (st : EngineState) draws result draws' :
  initializeRules rules updatedAt st draws = Normal (result, draws') ->
  exists installed, replacedBy rules installed updatedAt result.
Proof.
  unfold initializeRules. intros H. returned H.
  apply randomValidRuleset_valid in Hcall. destruct Hcall as [V Hnd].
  exists a. eapply install_valid; eassumption.
Qed.

(** Every return of the decision procedure: nothing happened, or the
    ruleset was replaced by a valid one. *)
Lemma evaluateChangeWith_returns (failRatioOf : EngineState -> completion number)
    (now updatedAt : Z) (st : EngineState) draws result draws' :
  evaluateChangeWith rules failRatioOf now updatedAt st draws = Normal (result, draws') ->
  result = (st, None) \/ exists installed, replacedBy rules installed updatedAt result.
Proof.
  unfold evaluateChangeWith. intros H.
  assert (Hcomplete : forall ds res ds',
    ((r <- Math_random ;;
      if Qlt_bool (value r) completeChangeChance
      then regenerate rules "The ruleset has been changed entirely by chance." updatedAt st
      else ret (st, None))%rand) ds = Normal (res, ds') ->
    res = (st, None) \/ exists installed, replacedBy rules installed updatedAt res).
  { intros ds res ds' Hc. returned Hc.
    destruct (Qlt_bool (value a) completeChangeChance).
    - right. eapply regenerate_returns; eassumption.
    - left. now apply ret_Normal in Hc. }
  destruct (_ <? minimumTimeBetweenChanges)%Z;
    [left; now apply ret_Normal in H|].
  destruct (_ >? maximumTimeBetweenChanges)%Z;
    [right; eapply regenerate_returns; eassumption|].
  destruct (_ <? minimumSampleSize);
    [left; now apply ret_Normal in H|].
  destruct (maximumMessagesUntilChange <? _);
    [right; eapply regenerate_returns; eassumption|].
  returned H.
  destruct (Qlt_bool (value a) changeChance); [|eapply Hcomplete; eassumption].
  returned H.
  destruct (number_gt a0 maxFailRatio).
  - returned H. right.
    destruct (makeEasierRuleset_returns _ _ _ _ _ Hcall1) as [[E _]|[E [V _]]];
      rewrite E in H; cbn [negb] in H.
    + eapply regenerate_returns; eassumption.
    + exists (new_Set (ruleset a1)). rewrite updateRules_installs in H.
      apply ret_Normal in H. destruct H as [-> _].
      repeat split; [now rewrite isValidRuleset_new_Set | apply NoDup_new_Set | eexists; reflexivity].
  - destruct (number_lt a0 minFailRatio); [|eapply Hcomplete; eassumption].
    returned H. right.
    destruct (makeHarderRuleset_returns _ _ _ _ _ Hcall1) as [[E _]|[E [V _]]];
      rewrite E in H; cbn [negb] in H.
    + eapply regenerate_returns; eassumption.
    + exists (new_Set (ruleset a1)). rewrite updateRules_installs in H.
      apply ret_Normal in H. destruct H as [-> _].
      repeat split; [now rewrite isValidRuleset_new_Set | apply NoDup_new_Set | eexists; reflexivity].
Qed.

(** A stand-in for [getFailRatio] is only asked about the current state,
    and only when the history has at least [minimumSampleSize] records. *)
Lemma evaluateChangeWith_guarded (f g : EngineState -> completion number)
    (now updatedAt : Z) (st : EngineState) draws :
  (minimumSampleSize <= List.length (violationHistoryForThisRuleset st) -> f st = g st) ->
  evaluateChangeWith rules f now updatedAt st draws =
  evaluateChangeWith rules g now updatedAt st draws.
Proof.
  intros H. unfold evaluateChangeWith.
  destruct (_ <? minimumTimeBetweenChanges)%Z; [reflexivity|].
  destruct (_ >? maximumTimeBetweenChanges)%Z; [reflexivity|].
  destruct (_ <? minimumSampleSize) eqn:E; [reflexivity|].
  apply Nat.ltb_ge in E. rewrite (H E). reflexivity.
Qed.

End Controller.

(** ** [randomValidRuleset] returns *)

Lemma randomIndex_lt (d : Draw) (n : nat) : 0 < n -> randomIndex d n < n.
Proof.
  intros Hn. unfold randomIndex. destruct d as [v Hv]. cbn [value].
  unfold in_unit_interval in Hv. apply andb_true_iff in Hv. destruct Hv as [_ Hv].
  apply negb_true_iff in Hv.
  assert (Hlt : (v < 1)%Q).
  { apply Qnot_le_lt. intros Hle. apply Qle_bool_iff in Hle. congruence. }
  assert (Hx : (v * inject_Z (Z.of_nat n) < inject_Z (Z.of_nat n))%Q).
  { rewrite <- (Qmult_1_l (inject_Z (Z.of_nat n))) at 2.
    apply Qmult_lt_compat_r; [|assumption].
    change 0%Q with (inject_Z 0). rewrite <- Zlt_Qlt. lia. }
  assert (Hfloor : (Qfloor (v * inject_Z (Z.of_nat n)) < Z.of_nat n)%Z).
  { rewrite Zlt_Qlt. eapply Qle_lt_trans; [apply Qfloor_le | exact Hx]. }
  lia.
Qed.

Lemma filter_length_lt {A} (f g : A -> bool) (xs : list A) :
  (forall a, g a = true -> f a = true) ->
  (exists a, In a xs /\ f a = true /\ g a = false) ->
  List.length (filter g xs) < List.length (filter f xs).
Proof.
  intros Himp. induction xs as [|x xs IH]; intros [a [Hin [Hf Hg]]]; [destruct Hin|].
  assert (Hle : List.length (filter g xs) <= List.length (filter f xs)).
  { clear IH Hin. induction xs as [|y ys IHy]; simpl; [lia|].
    destruct (g y) eqn:Gy; [rewrite (Himp _ Gy); simpl; lia|].
    destruct (f y); simpl; lia. }
  simpl. destruct Hin as [->|Hin].
  - rewrite Hf, Hg. simpl. lia.
  - assert (IH' : List.length (filter g xs) < List.length (filter f xs))
      by (apply IH; now exists a).
    destruct (g x) eqn:Gx; [rewrite (Himp _ Gx); simpl; lia|].
    destruct (f x); simpl; lia.
Qed.

Lemma filter_and_nil {A} (f g : A -> bool) (xs : list A) :
  filter f xs = [] -> filter (fun a => f a && g a) xs = [].
Proof.
  induction xs as [|x xs IH]; simpl; [reflexivity|].
  destruct (f x); simpl; [discriminate | exact IH].
Qed.

Section Termination.

Variable rules : list Rule.

Lemma absent_none (s : StringSet) :
  absent rules s = [] -> getAdditionalValidRules rules s = [].
Proof.
  unfold absent, getAdditionalValidRules. intros H.
  now rewrite (filter_and_nil _ _ _ H).
Qed.

Lemma absent_shrinks (s : StringSet) (x : string) :
  In x (getAdditionalValidRules rules s) ->
  List.length (absent rules (Set_add x s)) < List.length (absent rules s).
Proof.
  intros H. apply getAdditionalValidRules_In in H.
  destruct H as [Hnot [_ [rule [Hin <-]]]].
  unfold absent. apply filter_length_lt.
  - intros a. rewrite Set_has_add, negb_orb. intros Ha.
    apply andb_true_iff in Ha. tauto.
  - exists rule. rewrite Set_has_add, String.eqb_refl, Hnot. auto.
Qed.

Lemma growRuleset_size (roughDifficulty : Q) (draws : list Draw) :
  forall s r draws',
    growRuleset rules roughDifficulty s draws = Normal (r, draws') ->
    (r = s /\ draws' = draws) \/ Set_size s < Set_size r.
Proof.
  induction draws as [|d draws IH]; intros s r draws' H; simpl in H;
    destruct (calculateDifficulty rules s) as [w| |]; try discriminate;
    destruct (Qlt_bool (inject_Z w) roughDifficulty);
    try (inversion H; subst; now left);
    destruct (Set_size (getAdditionalValidRules rules s) =? 0);
    try (inversion H; subst; now left); try discriminate.
  destruct (nth_error _ _) as [ruleToAdd|] eqn:E; [|discriminate].
  apply nth_error_In, getAdditionalValidRules_In in E. destruct E as [Hnot _].
  right. apply IH in H. rewrite (Set_size_add _ _ Hnot) in H.
  destruct H as [[-> _]|H]; [rewrite (Set_size_add _ _ Hnot)|]; lia.
Qed.

Lemma growRuleset_total (roughDifficulty : Q) (draws : list Draw) :
  forall s,
    (forall x, In x s -> In x (map id rules)) ->
    List.length (absent rules s) <= List.length draws ->
    exists r draws', growRuleset rules roughDifficulty s draws = Normal (r, draws').
Proof.
  induction draws as [|d draws IH]; intros s Hknown Hleft; simpl;
    rewrite (calculateDifficulty_known rules s Hknown);
    destruct (Qlt_bool _ roughDifficulty); try (now eexists _, _);
    destruct (Set_size (getAdditionalValidRules rules s) =? 0) eqn:Z;
    try (now eexists _, _).
  - exfalso. simpl in Hleft. apply Nat.eqb_neq in Z. apply Z.
    rewrite absent_none; [reflexivity|].
    destruct (absent rules s); [reflexivity | simpl in Hleft; lia].
  - apply Nat.eqb_neq in Z.
    destruct (nth_error _ _) as [ruleToAdd|] eqn:E.
    + assert (Hin := nth_error_In _ _ E).
      apply IH.
      * intros x Hx. apply Set_has_In in Hx. rewrite Set_has_add in Hx.
        apply orb_true_iff in Hx. destruct Hx as [Hx|Hx].
        -- apply String.eqb_eq in Hx. subst x.
           apply getAdditionalValidRules_In in Hin.
           destruct Hin as [_ [_ [rule [Hr <-]]]]. now apply in_map.
        -- apply Hknown. now apply Set_has_In.
      * apply absent_shrinks in Hin. simpl in Hleft. lia.
    + exfalso. apply nth_error_None in E.
      assert (L := randomIndex_lt d (Set_size (getAdditionalValidRules rules s))).
      unfold Set_size in *. lia.
Qed.

(** With one draw for each rule of the catalog, [randomValidRuleset]
    returns, whatever the draws are. *)
Lemma randomValidRulesetRetry_total (retriesLeft : nat) (roughDifficulty : Q) draws :
  List.length rules <= List.length draws ->
  exists r draws',
    randomValidRulesetRetry rules retriesLeft roughDifficulty draws = Normal (r, draws').
Proof.
  assert (Hall : forall ds, List.length rules <= List.length ds ->
            exists r ds', growRuleset rules roughDifficulty [] ds = Normal (r, ds')).
  { intros ds L. apply growRuleset_total; [intros x []|].
    unfold absent. etransitivity; [apply filter_length_le | exact L]. }
  induction retriesLeft as [|n IH]; intros L; simpl; unfold bind;
    destruct (Hall _ L) as [r [ds' E]]; rewrite E.
  - destruct (Set_size r); now eexists _, _.
  - destruct (Set_size r) eqn:Z; [|now eexists _, _].
    apply growRuleset_size in E. destruct E as [[_ ->]|E]; [now apply IH|].
    unfold Set_size in *. simpl in E. lia.
Qed.

(** If the first pass adds nothing, neither do the retries, and the empty
    set is what [randomValidRuleset] returns. *)
Lemma randomValidRulesetRetry_empty (retriesLeft : nat) (roughDifficulty : Q) draws :
  (roughDifficulty <= 0)%Q \/ getAdditionalValidRules rules [] = [] ->
  randomValidRulesetRetry rules retriesLeft roughDifficulty draws = Normal ([], draws).
Proof.
  intros H.
  assert (E : forall ds, growRuleset rules roughDifficulty [] ds = Normal ([], ds)).
  { intros ds. destruct ds; simpl;
      (destruct (Qlt_bool (inject_Z 0) roughDifficulty) eqn:Hlt; [|reflexivity]);
      (destruct H as [H|H]; [|now rewrite H]);
      unfold Qlt_bool in Hlt; apply negb_true_iff in Hlt;
      apply Qle_bool_iff in H; change (inject_Z 0) with 0%Q in Hlt; congruence. }
  induction retriesLeft as [|n IH]; simpl; unfold bind; rewrite E; simpl;
    [reflexivity | exact IH].
Qed.

End Termination.

(** ** The evaluator *)

Section Evaluator.

Variable check : Rule -> string -> CheckResult.
Variable message : string.

Let promiseOf (rule : Rule) : Promise (option Rule) :=
  violationPromise rule (check rule message).

Lemma launchChecks_cases (active : list Rule) :
  match snd (launchChecks check message active) with
  | inl e => exists rule, In rule active /\ check rule message = Threw e
  | inr promises =>
      fst (launchChecks check message active) = active /\
      promises = map promiseOf active /\
      forall rule e, In rule active -> check rule message <> Threw e
  end.
Proof.
  induction active as [|rule rest IH]; simpl.
  - repeat split. intros rule e [].
  - assert (Hstep : forall result, check rule message = result ->
              (forall e, result <> Threw e) ->
              match snd (let (called, promises) := launchChecks check message rest in
                         (rule :: called,
                          match promises with
                          | inl e => inl e
                          | inr ps => inr (violationPromise rule result :: ps)
                          end)) with
              | inl e => exists r, (rule = r \/ In r rest) /\ check r message = Threw e
              | inr promises =>
                  fst (let (called, promises) := launchChecks check message rest in
                       (rule :: called,
                        match promises with
                        | inl e => inl e
                        | inr ps => inr (violationPromise rule result :: ps)
                        end)) = rule :: rest /\
                  promises = promiseOf rule :: map promiseOf rest /\
                  forall r e, rule = r \/ In r rest -> check r message <> Threw e
              end).
    { intros result E Hno.
      destruct (launchChecks check message rest) as [called [e'|ps]]; simpl in *.
      - destruct IH as [r [Hin Hr]]. exists r. split; [now right | assumption].
      - destruct IH as [-> [-> Hrest]]. split; [reflexivity|].
        split; [unfold promiseOf; now rewrite E|].
        intros r e [<-|Hin]; [rewrite E; apply Hno | now apply Hrest]. }
    specialize (Hstep (check rule message) eq_refl).
    destruct (check rule message) as [b|e|t b|t e] eqn:E.
    + apply Hstep; discriminate.
    + simpl. exists rule. split; [now left | exact E].
    + apply Hstep; discriminate.
    + apply Hstep; discriminate.
Qed.

Lemma firstRejection_Some {A} (promises : list (Promise A)) (t : nat) (e : string) :
  firstRejection promises = Some (t, e) ->
  exists p, In p promises /\ state p = RejectedWith e.
Proof.
  revert t e. induction promises as [|p rest IH]; intros t e H; simpl in H; [discriminate|].
  destruct (state p) as [v|e0] eqn:S.
  - destruct (IH _ _ H) as [q [Hin Hq]]. exists q. split; [now right | assumption].
  - destruct (firstRejection rest) as [[t' e']|].
    + destruct (settlesAfter p <=? t'); inversion H; subst.
      * exists p. split; [now left | assumption].
      * destruct (IH _ _ eq_refl) as [q [Hin Hq]]. exists q. split; [now right | assumption].
    + inversion H; subst. exists p. split; [now left | assumption].
Qed.

Lemma firstRejection_None {A} (promises : list (Promise A)) :
  firstRejection promises = None ->
  forall p e, In p promises -> state p <> RejectedWith e.
Proof.
  induction promises as [|p rest IH]; intros H q e Hin; simpl in H; [destruct Hin|].
  destruct (state p) as [v|e0] eqn:S.
  - destruct Hin as [<-|Hin]; [congruence | now apply IH].
  - destruct (firstRejection rest) as [[t' e']|]; [|discriminate].
    destruct (settlesAfter p <=? t'); discriminate.
Qed.

Lemma promiseOf_rejected (rule : Rule) (e : string) :
  state (promiseOf rule) = RejectedWith e -> checkFailure (check rule message) = Some e.
Proof.
  unfold promiseOf, violationPromise.
  destruct (check rule message) as [b|e'|t b|t e']; simpl; congruence.
Qed.

Lemma promises_of_passing_checks (active : list Rule) :
  (forall rule, In rule active -> checkFailure (check rule message) = None) ->
  firstRejection (map promiseOf active) = None /\
  flat_map (fun violation : option Rule => match violation with
                                           | Some rule => [rule]
                                           | None => []
                                           end)
           (fulfilledValues (map promiseOf active)) =
  filter (fun rule => violated (check rule message)) active.
Proof.
  induction active as [|rule rest IH]; intros H; [now split|].
  destruct IH as [Hnone Hvalues]; [intros r Hr; apply H; now right|].
  assert (Hrule := H rule (or_introl eq_refl)).
  cbn [map firstRejection fulfilledValues filter].
  replace (promiseOf rule) with (violationPromise rule (check rule message))
    by reflexivity.
  destruct (check rule message) as [b|e|t b|t e]; try discriminate;
    cbn [violationPromise state violated]; rewrite Hnone;
    (split; [reflexivity|]); destruct b; cbn [flat_map negb app];
    now rewrite Hvalues.
Qed.

End Evaluator.

(* ================================================================== *)
(** * The claims of the specification *)
(* ================================================================== *)

(** C1, as amended. [getViolations] is all or nothing. If no active rule's
    check fails, every check has been called and the result is the list of
    the active rules whose check produced [false], in catalog order. If a
    check fails, the call as a whole fails with the error of a failing
    check: the caller gets that error and no violated set at all, so the
    failing rule is not reported as violated, but neither are the rules
    whose checks did complete. As long as no check throws synchronously,
    every active rule's check has been called. *)
Theorem getViolations_all_or_nothing (rules : list Rule)
    (check : Rule -> string -> CheckResult) (activeRules : StringSet) (message : string) :
  let active := filter (fun rule => Set_has activeRules (id rule)) rules in
  let evaluation := getViolations rules check activeRules message in
  ((forall rule, In rule active -> checkFailure (check rule message) = None) ->
   checksCalled evaluation = active /\
   outcome evaluation =
     Fulfilled (filter (fun rule => violated (check rule message)) active)) /\
  (forall rule, In rule active -> checkFailure (check rule message) <> None ->
   exists failing e,
     In failing active /\ checkFailure (check failing message) = Some e /\
     outcome evaluation = RejectedWith e) /\
  ((forall rule e, In rule active -> check rule message <> Threw e) ->
   checksCalled evaluation = active).
Proof.
  intros active evaluation. subst evaluation. unfold getViolations. fold active.
  assert (Hcases := launchChecks_cases check message active).
  destruct (launchChecks check message active) as [called [e|promises]];
    simpl in Hcases; simpl.
  - destruct Hcases as [thrower [Hin Hthrew]].
    split; [|split].
    + intros Hok. specialize (Hok _ Hin). rewrite Hthrew in Hok. discriminate.
    + intros _ _ _. exists thrower, e. rewrite Hthrew. auto.
    + intros Hno. exfalso. apply (Hno _ _ Hin Hthrew).
  - destruct Hcases as [-> [-> Hno]].
    split; [|split].
    + intros Hok.
      destruct (promises_of_passing_checks check message active Hok) as [Hnone Hvalues].
      unfold Promise_all. rewrite Hnone. now rewrite Hvalues.
    + intros rule Hin Hfail.
      unfold Promise_all.
      destruct (firstRejection _) as [[t e]|] eqn:Hfirst.
      * apply firstRejection_Some in Hfirst. destruct Hfirst as [p [Hp Hstate]].
        apply in_map_iff in Hp. destruct Hp as [failing [<- Hfailing]].
        apply promiseOf_rejected in Hstate. now exists failing, e.
      * exfalso.
        destruct (check rule message) as [b|e|t b|t e] eqn:E;
          try (now apply Hfail); [now apply (Hno rule e Hin)|].
        apply (firstRejection_None _ Hfirst
                 (violationPromise rule (check rule message)) e).
        -- apply in_map_iff. now exists rule.
        -- now rewrite E.
    + intros _. reflexivity.
Qed.

Lemma getViolations_all_or_nothing_witness :
  exists failing e,
    In failing (filter (fun rule => Set_has exampleRuleset (id rule)) Chameleon.rules) /\
    checkFailure (searchFails failing "Hello") = Some e /\
    outcome (getViolations Chameleon.rules searchFails exampleRuleset "Hello")
      = RejectedWith e.
Proof.
  apply (proj1 (proj2 (getViolations_all_or_nothing Chameleon.rules searchFails
                         exampleRuleset "Hello")))
    with (rule := mkRule "unique-messages" "Unique messages"
                    "Be original! No messages should be returned by a search in this workspace."
                    None 5).
  - vm_compute. auto.
  - vm_compute. discriminate.
Defined.

(** C1, as stated, fails: with [all-lowercase] and [unique-messages] active,
    the check of [all-lowercase] returns [false] for the message and the
    check of [unique-messages] fails. The claim wants the violated set
    [all-lowercase] returned and the failure reported; the call is
    rejected and returns no violated set. *)
Lemma getViolations_failure_is_not_isolated :
  let active := filter (fun rule => Set_has exampleRuleset (id rule)) Chameleon.rules in
  let evaluation := getViolations Chameleon.rules searchFails exampleRuleset "Hello" in
  map id active = ["all-lowercase"; "unique-messages"] /\
  map (fun rule => searchFails rule "Hello") active
    = [Returned false; Rejected 1 "search failed"] /\
  outcome evaluation = RejectedWith "search failed" /\
  ~ (exists violations,
        outcome evaluation = Fulfilled violations /\
        map id violations = ["all-lowercase"]).
Proof.
  cbv zeta. split; [reflexivity|]. split; [reflexivity|].
  split; [reflexivity|].
  intros [violations [H _]]. vm_compute in H. discriminate.
Qed.

(** C2. Every ruleset returned by [randomValidRuleset], for any target
    difficulty, and every ruleset returned by [mutateRuleset], for a valid
    input and any toggle count, is valid; [randomValidRuleset] does return
    when it is given one draw per catalog rule; and so the active ruleset is
    valid in every state the engine reaches after initialization. *)
Theorem generated_rulesets_are_valid (rules : list Rule) {engine : ArraySort} :
  (forall roughDifficulty attempt draws r draws',
      randomValidRuleset rules roughDifficulty attempt draws = Normal (r, draws') ->
      isValidRuleset rules r = true) /\
  (forall roughDifficulty attempt draws,
      List.length rules <= List.length draws ->
      exists r draws',
        randomValidRuleset rules roughDifficulty attempt draws = Normal (r, draws')) /\
  (forall currentRuleset amount draws r draws',
      isValidRuleset rules currentRuleset = true ->
      mutateRuleset rules currentRuleset amount draws = Normal (r, draws') ->
      isValidRuleset rules r = true) /\
  (forall st, reachable rules st -> isValidRuleset rules (activeRules st) = true).
Proof.
  split; [|split; [|split]].
  - intros rough attempt draws r draws' H.
    now apply randomValidRuleset_valid in H.
  - intros rough attempt draws L. now apply randomValidRulesetRetry_total.
  - intros cur amount draws r draws' V H.
    apply mutateRuleset_returns in H. destruct H as [_ [Hv _]]. apply Hv. now left.
  - intros st R. induction R as [? ? ? ? ? ? H| |? ? ? ? ? ? ? R IH H].
    + apply initializeRules_returns in H.
      destruct H as [installed [V [_ [E _]]]]. simpl in E. now subst st.
    + assumption.
    + apply evaluateChangeWith_returns in H.
      destruct H as [H|[installed [V [_ [E _]]]]].
      * inversion H; now subst.
      * simpl in E. now subst st'.
Qed.

Lemma generated_rulesets_are_valid_witness :
  isValidRuleset Chameleon.rules ["unique-messages"; "all-lowercase"] = true /\
  isValidRuleset Chameleon.rules ["unique-messages"] = true.
Proof.
  split.
  - apply (proj1 (generated_rulesets_are_valid Chameleon.rules (engine := V8_engine)))
      with (roughDifficulty := 6%Q) (attempt := 0) (draws := [pick3; pick0; pick8])
           (draws' := [pick8]).
    vm_compute. reflexivity.
  - apply (proj1 (proj2 (proj2 (generated_rulesets_are_valid Chameleon.rules
                                  (engine := V8_engine)))))
      with (currentRuleset := ["all-lowercase"; "unique-messages"]) (amount := 3)
           (draws := [pick8; pick8; pick0]) (draws' := []).
    + vm_compute. reflexivity.
    + vm_compute. reflexivity.
Defined.

(** The replacement of a ruleset that has not been changed for too long is
    a call of [regenerate]. *)
Lemma evaluateChange_stale (rules : list Rule) {engine : ArraySort}
    (now updatedAt : Z) (st : EngineState) (draws : list Draw) :
  (maximumTimeBetweenChanges < now - lastRulesetChange st)%Z ->
  evaluateChange rules now updatedAt st draws =
  regenerate rules
    "The ruleset has been changed entirely, since it has been a long time since it was last changed."
    updatedAt st draws.
Proof.
  intros H. unfold evaluateChange, evaluateChangeWith.
  destruct (Z.ltb_spec (now - lastRulesetChange st) minimumTimeBetweenChanges) as [L|_].
  - unfold minimumTimeBetweenChanges, maximumTimeBetweenChanges in *. lia.
  - destruct (now - lastRulesetChange st >? maximumTimeBetweenChanges)%Z eqn:G;
      [reflexivity|].
    rewrite Z.gtb_ltb in G. apply Z.ltb_ge in G. lia.
Qed.

(** C3, as amended. When no rule can be added (the target difficulty is not
    positive, or no rule is admissible for the empty set), every attempt of
    [randomValidRuleset] is empty and the empty ruleset is its normal
    result: no error is raised. The regeneration of [evaluateChange]
    installs whatever [randomValidRuleset] returns, so an empty result is
    installed like any other one, with the history cleared, the clock reset
    and the change announced. *)
Theorem randomValidRuleset_empty_is_a_result (rules : list Rule) {engine : ArraySort} :
  (forall roughDifficulty attempt draws,
      (roughDifficulty <= 0)%Q \/ getAdditionalValidRules rules [] = [] ->
      randomValidRuleset rules roughDifficulty attempt draws = Normal ([], draws)) /\
  (forall reason updatedAt st draws d r draws',
      calculateDifficulty rules (activeRules st) = Normal d ->
      randomValidRuleset rules (inject_Z (initialRoughDifficulty + d) / 2) 0 draws
        = Normal (r, draws') ->
      regenerate rules reason updatedAt st draws =
      Normal ((mkState r [] updatedAt, Some (mkEvent reason r)), draws')) /\
  (forall now updatedAt st draws d,
      (maximumTimeBetweenChanges < now - lastRulesetChange st)%Z ->
      calculateDifficulty rules (activeRules st) = Normal d ->
      getAdditionalValidRules rules [] = [] ->
      evaluateChange rules now updatedAt st draws =
      Normal ((mkState [] [] updatedAt,
               Some (mkEvent
                 "The ruleset has been changed entirely, since it has been a long time since it was last changed."
                 [])), draws)).
Proof.
  assert (Hregenerate : forall reason updatedAt st draws d r draws',
      calculateDifficulty rules (activeRules st) = Normal d ->
      randomValidRuleset rules (inject_Z (initialRoughDifficulty + d) / 2) 0 draws
        = Normal (r, draws') ->
      regenerate rules reason updatedAt st draws =
      Normal ((mkState r [] updatedAt, Some (mkEvent reason r)), draws')).
  { intros reason updatedAt st draws d r draws' Hd Hr.
    unfold regenerate, bind, lift. rewrite Hd. cbn [cbind]. rewrite Hr.
    apply randomValidRuleset_valid in Hr. destruct Hr as [_ Hnd].
    now rewrite updateRules_installs, (new_Set_NoDup _ Hnd). }
  split; [|split].
  - intros rough attempt draws H. now apply randomValidRulesetRetry_empty.
  - exact Hregenerate.
  - intros now updatedAt st draws d Hstale Hd Hnone.
    rewrite evaluateChange_stale by assumption.
    apply (Hregenerate _ _ _ _ d); [assumption|].
    apply randomValidRulesetRetry_empty. now right.
Qed.

Lemma randomValidRuleset_empty_is_a_result_witness :
  randomValidRuleset Chameleon.rules 0 0 [pick3] = Normal ([], [pick3]) /\
  evaluateChange selfConflicting (maximumTimeBetweenChanges + 1)
    (maximumTimeBetweenChanges + 2) (loadedState 0) [pick3]
  = Normal ((mkState [] [] (maximumTimeBetweenChanges + 2),
             Some (mkEvent
               "The ruleset has been changed entirely, since it has been a long time since it was last changed."
               [])), [pick3]).
Proof.
  split.
  - apply (proj1 (randomValidRuleset_empty_is_a_result Chameleon.rules
                    (engine := V8_engine))).
    left. vm_compute. discriminate.
  - apply (proj2 (proj2 (randomValidRuleset_empty_is_a_result selfConflicting
                           (engine := V8_engine)))) with (d := 0%Z).
    + vm_compute. reflexivity.
    + vm_compute. reflexivity.
    + vm_compute. reflexivity.
Defined.

(** C3, as stated, fails: for the target difficulty 0 the loop of
    [randomValidRuleset] adds nothing in any attempt, and after the last
    retry the empty ruleset is returned as a normal result, not as an
    error. *)
Lemma randomValidRuleset_returns_the_empty_set :
  growRuleset Chameleon.rules 0 [] [] = Normal ([], []) /\
  randomValidRuleset Chameleon.rules 0 0 [] = Normal ([], []) /\
  randomValidRuleset Chameleon.rules 0 10 [] = Normal ([], []) /\
  randomValidRuleset Chameleon.rules 0 0 [] <> Throw.
Proof.
  repeat split; try reflexivity. discriminate.
Qed.

(** C4. [makeEasierRuleset] makes fifteen candidates with
    [mutateRuleset currentRuleset 3] and keeps those of strictly lower
    difficulty, but it does not pick the closest of them, as the
    specification and the comment in the source say it does. The fifteen
    candidates of [easierDraws] contain [unique-messages], of difficulty 5,
    the closest below the current 6; on V8 [makeEasierRuleset] returns the
    last candidate of lower difficulty, [all-lowercase], of difficulty 1.
    Likewise [makeHarderRuleset] returns the last candidate of higher
    difficulty, 15, although one of difficulty 8 is among the candidates.
    The comparators ignore their second argument and are positive on every
    candidate that passed the filter, so the sort leaves the array as it
    is ([makeEasierRuleset_on_V8], [makeHarderRuleset_on_V8]). *)
Theorem nearest_is_the_last_candidate_on_V8 :
  calculateDifficulty Chameleon.rules exampleRuleset = Normal 6%Z /\
  (exists candidates,
      Array_from mutationIterations
        (mutateRuleset Chameleon.rules exampleRuleset mutationAmount) easierDraws
        = Normal (candidates, []) /\
      List.length candidates = 15 /\
      In ["unique-messages"] candidates /\
      calculateDifficulty Chameleon.rules ["unique-messages"] = Normal 5%Z /\
      makeEasierRuleset (engine := V8_engine) Chameleon.rules exampleRuleset easierDraws
        = Normal (mkResult true ["all-lowercase"], []) /\
      calculateDifficulty Chameleon.rules ["all-lowercase"] = Normal 1%Z) /\
  (exists candidates,
      Array_from mutationIterations
        (mutateRuleset Chameleon.rules exampleRuleset mutationAmount) harderDraws
        = Normal (candidates, []) /\
      List.length candidates = 15 /\
      In ["all-lowercase"; "unique-messages"; "no-punctuation"] candidates /\
      calculateDifficulty Chameleon.rules
        ["all-lowercase"; "unique-messages"; "no-punctuation"] = Normal 8%Z /\
      makeHarderRuleset (engine := V8_engine) Chameleon.rules exampleRuleset harderDraws
        = Normal (mkResult true
                    ["all-lowercase"; "unique-messages"; "no-punctuation";
                     "no-spaces"; "every-letter"], []) /\
      calculateDifficulty Chameleon.rules
        ["all-lowercase"; "unique-messages"; "no-punctuation";
         "no-spaces"; "every-letter"] = Normal 15%Z).
Proof.
  split; [reflexivity|]. split.
  - eexists. split; [vm_compute; reflexivity|].
    split; [reflexivity|]. split; [now left|].
    split; [reflexivity|]. split; [vm_compute; reflexivity | reflexivity].
  - eexists. split; [vm_compute; reflexivity|].
    split; [reflexivity|]. split; [now left|].
    split; [reflexivity|]. split; [vm_compute; reflexivity | reflexivity].
Qed.

(** C5. Whenever [makeEasierRuleset] returns, it either reports no success
    and hands back the very ruleset it was given, or reports success with a
    valid ruleset of strictly lower difficulty; [makeHarderRuleset] likewise
    with a strictly higher difficulty. This holds for every ruleset and for
    every engine sort. And for a valid ruleset of catalog ids there are
    draws on which both return (unless it is empty and no rule can be added
    to the empty set, when [mutateRuleset] loops for ever). *)
Theorem nearest_rulesets_are_valid_and_strict (rules : list Rule) {engine : ArraySort}
    (currentRuleset : StringSet) :
  (forall draws res draws',
      makeEasierRuleset rules currentRuleset draws = Normal (res, draws') ->
      (success res = false /\ ruleset res = currentRuleset) \/
      (success res = true /\ isValidRuleset rules (ruleset res) = true /\
       exists d d', calculateDifficulty rules currentRuleset = Normal d /\
                    calculateDifficulty rules (ruleset res) = Normal d' /\ (d' < d)%Z)) /\
  (forall draws res draws',
      makeHarderRuleset rules currentRuleset draws = Normal (res, draws') ->
      (success res = false /\ ruleset res = currentRuleset) \/
      (success res = true /\ isValidRuleset rules (ruleset res) = true /\
       exists d d', calculateDifficulty rules currentRuleset = Normal d /\
                    calculateDifficulty rules (ruleset res) = Normal d' /\ (d < d')%Z)) /\
  (NoDup currentRuleset -> isValidRuleset rules currentRuleset = true ->
   (forall x, In x currentRuleset -> In x (map id rules)) ->
   currentRuleset <> [] \/ getAdditionalValidRules rules [] <> [] ->
   exists draws easier harder,
     makeEasierRuleset rules currentRuleset draws = Normal (easier, []) /\
     makeHarderRuleset rules currentRuleset draws = Normal (harder, [])).
Proof.
  split; [|split].
  - intros draws res draws' H. eapply makeEasierRuleset_returns; eassumption.
  - intros draws res draws' H. eapply makeHarderRuleset_returns; eassumption.
  - apply nearest_can_return.
Qed.

Lemma nearest_rulesets_are_valid_and_strict_witness :
  ((success (mkResult true ["all-lowercase"]) = false /\
    ruleset (mkResult true ["all-lowercase"]) = exampleRuleset) \/
   (success (mkResult true ["all-lowercase"]) = true /\
    isValidRuleset Chameleon.rules (ruleset (mkResult true ["all-lowercase"])) = true /\
    exists d d', calculateDifficulty Chameleon.rules exampleRuleset = Normal d /\
                 calculateDifficulty Chameleon.rules
                   (ruleset (mkResult true ["all-lowercase"])) = Normal d' /\
                 (d' < d)%Z)) /\
  ((success (mkResult false exampleRuleset) = false /\
    ruleset (mkResult false exampleRuleset) = exampleRuleset) \/
   (success (mkResult false exampleRuleset) = true /\
    isValidRuleset Chameleon.rules (ruleset (mkResult false exampleRuleset)) = true /\
    exists d d', calculateDifficulty Chameleon.rules exampleRuleset = Normal d /\
                 calculateDifficulty Chameleon.rules
                   (ruleset (mkResult false exampleRuleset)) = Normal d' /\
                 (d < d')%Z)) /\
  (exists draws easier harder,
     makeEasierRuleset (engine := V8_engine) Chameleon.rules exampleRuleset draws
       = Normal (easier, []) /\
     makeHarderRuleset (engine := V8_engine) Chameleon.rules exampleRuleset draws
       = Normal (harder, [])).
Proof.
  split; [|split].
  - apply (proj1 (nearest_rulesets_are_valid_and_strict Chameleon.rules
                    (engine := V8_engine) exampleRuleset)
             easierDraws (mkResult true ["all-lowercase"]) []).
    vm_compute. reflexivity.
  - apply (proj1 (proj2 (nearest_rulesets_are_valid_and_strict Chameleon.rules
                           (engine := V8_engine) exampleRuleset))
             (List.concat (repeat [pick3; pick8; pick8] 15))
             (mkResult false exampleRuleset) []).
    vm_compute. reflexivity.
  - apply (proj2 (proj2 (nearest_rulesets_are_valid_and_strict Chameleon.rules
                           (engine := V8_engine) exampleRuleset))).
    + repeat constructor; simpl; intuition discriminate.
    + vm_compute. reflexivity.
    + intros x H. vm_compute in H. vm_compute. intuition auto.
    + left. discriminate.
Defined.

(** C6. [updateRules] installs (a copy of) the new ruleset, leaves a history
    of length 0 and sets the clock to the time it reads;
    [addToViolationHistory] appends exactly one record and touches nothing
    else; and whenever [evaluateChange] or [initializeRules] returns, the
    state is either untouched or exactly the state [updateRules] makes. *)
Theorem replacement_resets_history_and_clock (rules : list Rule) {engine : ArraySort} :
  (forall newRuleset reason now st,
      let st' := fst (updateRules newRuleset reason now st) in
      activeRules st' = new_Set newRuleset /\
      violationHistoryForThisRuleset st' = [] /\
      List.length (violationHistoryForThisRuleset st') = 0 /\
      lastRulesetChange st' = now) /\
  (forall violations st,
      let st' := addToViolationHistory violations st in
      activeRules st' = activeRules st /\
      violationHistoryForThisRuleset st' =
        violationHistoryForThisRuleset st ++ [mkRecord violations] /\
      lastRulesetChange st' = lastRulesetChange st) /\
  (forall now updatedAt st draws st' event draws',
      evaluateChange rules now updatedAt st draws = Normal ((st', event), draws') ->
      (st' = st /\ event = None) \/
      (exists installed reason,
          st' = fst (updateRules installed reason updatedAt st) /\
          event = Some (snd (updateRules installed reason updatedAt st)) /\
          violationHistoryForThisRuleset st' = [] /\
          lastRulesetChange st' = updatedAt)) /\
  (forall updatedAt st draws st' event draws',
      initializeRules rules updatedAt st draws = Normal ((st', event), draws') ->
      exists installed reason,
        st' = fst (updateRules installed reason updatedAt st) /\
        event = Some (snd (updateRules installed reason updatedAt st)) /\
        violationHistoryForThisRuleset st' = [] /\
        lastRulesetChange st' = updatedAt).
Proof.
  assert (Hreplaced : forall installed updatedAt st st' event,
            replacedBy rules installed updatedAt (st', event) ->
            exists installed reason,
              st' = fst (updateRules installed reason updatedAt st) /\
              event = Some (snd (updateRules installed reason updatedAt st)) /\
              violationHistoryForThisRuleset st' = [] /\
              lastRulesetChange st' = updatedAt).
  { intros installed updatedAt st st' event [_ [Hnd [E [reason Hev]]]].
    simpl in E, Hev. exists installed, reason.
    rewrite updateRules_installs, (new_Set_NoDup _ Hnd). simpl.
    subst st' event. auto. }
  split; [|split; [|split]].
  - intros newRuleset reason now st. rewrite updateRules_installs. simpl. auto.
  - intros violations st. simpl. auto.
  - intros now updatedAt st draws st' event draws' H.
    apply evaluateChangeWith_returns in H.
    destruct H as [H|[installed H]].
    + left. inversion H. auto.
    + right. eapply Hreplaced; eassumption.
  - intros updatedAt st draws st' event draws' H.
    apply initializeRules_returns in H. destruct H as [installed H].
    eapply Hreplaced; eassumption.
Qed.

Lemma replacement_resets_history_and_clock_witness :
  (mkState ["unique-messages"; "all-lowercase"] [] 18000002
     = mkState exampleRuleset [] 0 /\
   Some (mkEvent
     "The ruleset has been changed entirely, since it has been a long time since it was last changed."
     ["unique-messages"; "all-lowercase"]) = None) \/
  (exists installed reason,
      mkState ["unique-messages"; "all-lowercase"] [] 18000002
        = fst (updateRules installed reason 18000002 (mkState exampleRuleset [] 0)) /\
      Some (mkEvent
        "The ruleset has been changed entirely, since it has been a long time since it was last changed."
        ["unique-messages"; "all-lowercase"])
        = Some (snd (updateRules installed reason 18000002 (mkState exampleRuleset [] 0))) /\
      violationHistoryForThisRuleset
        (mkState ["unique-messages"; "all-lowercase"] [] 18000002) = [] /\
      lastRulesetChange (mkState ["unique-messages"; "all-lowercase"] [] 18000002)
        = 18000002%Z).
Proof.
  apply (proj1 (proj2 (proj2 (replacement_resets_history_and_clock Chameleon.rules
                                (engine := V8_engine))))
           18000001%Z 18000002%Z (mkState exampleRuleset [] 0)
           [pick3; pick0; pick8] _ _ [pick8]).
  vm_compute. reflexivity.
Defined.

(** C7. While less than [minimumTimeBetweenChanges] has passed since the
    last change, [evaluateChange] returns at once: no replacement, the
    state (ruleset, history, clock) and the random source untouched,
    whatever the history holds. *)
Theorem too_soon_no_change (rules : list Rule) {engine : ArraySort}
    (now updatedAt : Z) (st : EngineState) (draws : list Draw) :
  (now - lastRulesetChange st < minimumTimeBetweenChanges)%Z ->
  evaluateChange rules now updatedAt st draws = Normal ((st, None), draws).
Proof.
  intros H. unfold evaluateChange, evaluateChangeWith.
  apply Z.ltb_lt in H. now rewrite H.
Qed.

Lemma too_soon_no_change_witness :
  getFailRatio (mkState exampleRuleset (allFailed 10) 1000) = Num (10 # 10) /\
  evaluateChange Chameleon.rules (1000 + minimumTimeBetweenChanges - 1) 0
    (mkState exampleRuleset (allFailed 10) 1000) easierDraws
  = Normal ((mkState exampleRuleset (allFailed 10) 1000, None), easierDraws).
Proof.
  split; [reflexivity|].
  apply (too_soon_no_change Chameleon.rules (engine := V8_engine)).
  vm_compute. reflexivity.
Defined.

(** C8. [calculateDifficulty] is the sum of the members' weights: 0 on the
    empty set, additive over the union of two disjoint sets of catalog ids,
    and, every catalog weight being at least 1, monotone under inclusion;
    in particular adding a catalog rule never lowers it. *)
Theorem difficulty_is_sum_of_weights (rules : list Rule) (a b : StringSet) :
  NoDup a -> NoDup b ->
  (forall x, In x a \/ In x b -> In x (map id rules)) ->
  exists da db,
    calculateDifficulty rules [] = Normal 0%Z /\
    calculateDifficulty rules a = Normal da /\
    calculateDifficulty rules b = Normal db /\
    da = Zsum (map (weightOf rules) a) /\
    ((forall x, In x a -> ~ In x b) ->
     calculateDifficulty rules (Set_union a b) = Normal (da + db)%Z) /\
    ((forall rule, In rule rules -> (1 <= difficulty rule)%Z) ->
     (incl a b -> (da <= db)%Z) /\
     (forall x, In x (map id rules) ->
        exists d', calculateDifficulty rules (Set_add x a) = Normal d' /\ (da <= d')%Z)).
Proof.
  intros Ha Hb Hknown.
  exists (Zsum (map (weightOf rules) a)), (Zsum (map (weightOf rules) b)).
  split; [reflexivity|].
  split; [apply calculateDifficulty_known; intros x Hx; apply Hknown; now left|].
  split; [apply calculateDifficulty_known; intros x Hx; apply Hknown; now right|].
  split; [reflexivity|].
  split.
  - intros Hdisjoint. unfold Set_union.
    rewrite new_Set_NoDup by (apply NoDup_app; assumption).
    rewrite calculateDifficulty_known
      by (intros x Hx; apply Hknown; now apply in_app_or).
    now rewrite map_app, Zsum_app.
  - intros Hweights. split.
    + intros Hincl. apply Zsum_incl; try assumption.
      intros x. now apply weightOf_positive.
    + intros x Hx. unfold Set_add. destruct (Set_has a x) eqn:E.
      * exists (Zsum (map (weightOf rules) a)). split; [|lia].
        apply calculateDifficulty_known. intros y Hy. apply Hknown. now left.
      * exists (Zsum (map (weightOf rules) (a ++ [x]))). split.
        -- apply calculateDifficulty_known. intros y Hy.
           apply in_app_or in Hy. destruct Hy as [Hy|[<-|[]]];
             [apply Hknown; now left | assumption].
        -- rewrite map_app, Zsum_app. simpl.
           assert (W := weightOf_positive rules x Hweights). lia.
Qed.

Lemma catalog_weights_positive :
  forall rule, In rule Chameleon.rules -> (1 <= difficulty rule)%Z.
Proof.
  intros rule H. vm_compute in H.
  repeat (destruct H as [<-|H]; [vm_compute; discriminate|]). destruct H.
Qed.

Lemma difficulty_is_sum_of_weights_witness :
  exists da db,
    calculateDifficulty Chameleon.rules [] = Normal 0%Z /\
    calculateDifficulty Chameleon.rules ["no-spaces"] = Normal da /\
    calculateDifficulty Chameleon.rules ["every-letter"; "unique-messages"] = Normal db /\
    da = Zsum (map (weightOf Chameleon.rules) ["no-spaces"]) /\
    calculateDifficulty Chameleon.rules
      (Set_union ["no-spaces"] ["every-letter"; "unique-messages"]) = Normal (da + db)%Z /\
    exists d', calculateDifficulty Chameleon.rules (Set_add "no-punctuation" ["no-spaces"])
                 = Normal d' /\ (da <= d')%Z.
Proof.
  destruct (difficulty_is_sum_of_weights Chameleon.rules
              ["no-spaces"] ["every-letter"; "unique-messages"])
    as [da [db [H0 [Ha [Hb [Hsum [Hunion Hmono]]]]]]].
  - repeat constructor; simpl; intuition discriminate.
  - repeat constructor; simpl; intuition discriminate.
  - intros x H. vm_compute in H. vm_compute. intuition auto.
  - exists da, db. repeat (split; [assumption|]). split.
    + apply Hunion. intros x H. vm_compute in H. vm_compute.
      intuition (subst; discriminate).
    + apply (proj2 (Hmono catalog_weights_positive)). vm_compute. intuition auto.
Defined.

Lemma mutateLoop_flips (rules : list Rule) (amount : nat) (s : StringSet) draws r draws' :
  NoDup s ->
  mutateLoop rules amount s draws = Normal (r, draws') -> flips amount s r.
Proof.
  revert s draws. induction amount as [|n IH]; intros s draws Hs H; simpl in H.
  - apply ret_Normal in H. destruct H as [-> _]. constructor.
  - returned H. rewrite (new_Set_NoDup s Hs) in Hcall.
    apply toggleUntilValid_accepts in Hcall. destruct Hcall as [_ Hflip].
    rewrite (new_Set_NoDup s Hs) in Hflip.
    econstructor; [eassumption|]. eapply IH; [|eassumption].
    eapply flipped_NoDup; eassumption.
Qed.

(** C9. Whenever [mutateRuleset] returns, it has made exactly [amount]
    accepted membership flips, starting from a copy of its argument; for an
    odd [amount] (such as the 3 of [makeEasierRuleset] and
    [makeHarderRuleset]) the result differs from the argument in the
    membership of some id. *)
Theorem mutateRuleset_odd_changes (rules : list Rule) (currentRuleset : StringSet)
    (amount : nat) draws r draws' :
  mutateRuleset rules currentRuleset amount draws = Normal (r, draws') ->
  flips amount (new_Set currentRuleset) r /\
  (Nat.odd amount = true -> exists x, Set_has r x <> Set_has currentRuleset x).
Proof.
  intros H. split.
  - eapply mutateLoop_flips; [apply NoDup_new_Set | exact H].
  - intros Hodd. apply different_members. intros Hsame.
    apply mutateRuleset_returns in H. destruct H as [Hr [_ Hpar]].
    assert (Hsize : Set_size r = Set_size (new_Set currentRuleset)).
    { apply sameMembers_size; [assumption | apply NoDup_new_Set|].
      intros x. now rewrite Hsame, Set_has_new_Set. }
    rewrite Hsize, Nat.even_add in Hpar. rewrite <- Nat.negb_even in Hodd.
    destruct (Nat.even amount), (Nat.even (Set_size (new_Set currentRuleset)));
      discriminate.
Qed.

Lemma mutateRuleset_odd_changes_witness :
  exists x, Set_has ["unique-messages"] x <> Set_has ["all-lowercase"; "unique-messages"] x.
Proof.
  apply (proj2 (mutateRuleset_odd_changes Chameleon.rules
                  ["all-lowercase"; "unique-messages"] mutationAmount
                  [pick8; pick8; pick0] ["unique-messages"] []
                  ltac:(vm_compute; reflexivity))).
  reflexivity.
Defined.

(** C10. [getFailRatio] is [0/0], not a number, on an empty history and a
    number on a history of at least [minimumSampleSize] records; and
    [evaluateChange] calls it only on such a history: replacing it by
    anything that agrees with it there, even by a function that throws on
    shorter histories, changes nothing in any run of the decision
    procedure. *)
Theorem getFailRatio_called_on_enough_samples (rules : list Rule) {engine : ArraySort} :
  (forall st, violationHistoryForThisRuleset st = [] -> getFailRatio st = NaN) /\
  (forall st, minimumSampleSize <= List.length (violationHistoryForThisRuleset st) ->
              exists q, getFailRatio st = Num q) /\
  (forall failRatioOf now updatedAt st draws,
      (minimumSampleSize <= List.length (violationHistoryForThisRuleset st) ->
       failRatioOf st = Normal (getFailRatio st)) ->
      evaluateChangeWith rules failRatioOf now updatedAt st draws =
      evaluateChange rules now updatedAt st draws) /\
  (forall now updatedAt st draws,
      evaluateChangeWith rules guardedFailRatio now updatedAt st draws =
      evaluateChange rules now updatedAt st draws).
Proof.
  split; [|split; [|split]].
  - intros st H. unfold getFailRatio. now rewrite H.
  - intros st H. unfold getFailRatio, divide.
    destruct (List.length (violationHistoryForThisRuleset st)) eqn:E.
    + unfold minimumSampleSize in H. lia.
    + eexists. reflexivity.
  - intros f now updatedAt st draws H. unfold evaluateChange.
    now apply evaluateChangeWith_guarded.
  - intros now updatedAt st draws. unfold evaluateChange.
    apply evaluateChangeWith_guarded. intros H. unfold guardedFailRatio.
    apply Nat.ltb_ge in H. now rewrite H.
Qed.

Lemma getFailRatio_called_on_enough_samples_witness :
  (exists q, getFailRatio (mkState exampleRuleset (allFailed 10) 0) = Num q) /\
  evaluateChangeWith Chameleon.rules
    (fun st => if List.length (violationHistoryForThisRuleset st) =? 0
               then Throw else Normal (getFailRatio st))
    minimumTimeBetweenChanges (minimumTimeBetweenChanges + 1)
    (mkState exampleRuleset (allFailed 10) 0) (lowDraw :: easierDraws)
  = evaluateChange Chameleon.rules
      minimumTimeBetweenChanges (minimumTimeBetweenChanges + 1)
      (mkState exampleRuleset (allFailed 10) 0) (lowDraw :: easierDraws).
Proof.
  split.
  - apply (proj1 (proj2 (getFailRatio_called_on_enough_samples Chameleon.rules
                           (engine := V8_engine)))).
    vm_compute. apply le_n.
  - apply (proj1 (proj2 (proj2 (getFailRatio_called_on_enough_samples Chameleon.rules
                                  (engine := V8_engine))))).
    intros _. reflexivity.
Defined.

(* ================================================================== *)
(** * Further properties of the code *)
(* ================================================================== *)

(** ** The expansion of the conflict pairs *)

Lemma findRule_None (rules : list Rule) (x : string) :
  findRule rules x = None -> ~ In x (map id rules).
Proof.
  intros H Hin. destruct (findRule_known rules x Hin) as [rule Hr]. congruence.
Qed.

Lemma pushConflict_ids (target other : string) (rules : list Rule) :
  map id (pushConflict target other rules) = map id rules /\
  map difficulty (pushConflict target other rules) = map difficulty rules.
Proof.
  induction rules as [|rule rest [IHi IHd]]; simpl; [now split|].
  destruct (String.eqb (id rule) target); simpl; [now split|].
  now rewrite IHi, IHd.
Qed.

Lemma conflictRecorded_cons (rule : Rule) (rest : list Rule) (x c : string) :
  conflictRecorded (rule :: rest) x c <->
  (id rule = x /\ In c (conflictsOf rule)) \/ conflictRecorded rest x c.
Proof.
  unfold conflictRecorded. split.
  - intros [r [[<-|Hin] H]]; [now left | right; now exists r].
  - intros [H|[r [Hin H]]]; [exists rule | exists r]; simpl; auto.
Qed.

Lemma pushConflict_recorded (target other : string) (rules : list Rule) (x c : string) :
  conflictRecorded (pushConflict target other rules) x c <->
  conflictRecorded rules x c \/ (In target (map id rules) /\ x = target /\ c = other).
Proof.
  induction rules as [|rule rest IH]; cbn [pushConflict map In].
  - split; [intros [r [[] _]] | intros [[r [[] _]]|[[] _]]].
  - destruct (String.eqb_spec (id rule) target) as [E|E].
    + rewrite !conflictRecorded_cons. unfold conflictsOf at 1. cbn [id conflictsWith].
      fold (conflictsOf rule). rewrite in_app_iff. cbn [In]. subst target.
      intuition (subst; auto).
    + rewrite !conflictRecorded_cons, IH. intuition (subst; auto).
Qed.

Lemma resolveConflict_ids (rules : list Rule) (pair : string * string) :
  map id (resolveConflict rules pair) = map id rules /\
  map difficulty (resolveConflict rules pair) = map difficulty rules.
Proof.
  unfold resolveConflict. destruct pair as [a b].
  destruct (findRule rules a), (findRule rules b); try now split.
  destruct (pushConflict_ids a b rules) as [Hi Hd].
  destruct (pushConflict_ids b a (pushConflict a b rules)) as [Hi' Hd'].
  split; congruence.
Qed.

Lemma resolveConflict_recorded (rules : list Rule) (pair : string * string) (x c : string) :
  conflictRecorded (resolveConflict rules pair) x c <->
  conflictRecorded rules x c \/
  (knownPair rules pair /\
   ((x = fst pair /\ c = snd pair) \/ (x = snd pair /\ c = fst pair))).
Proof.
  unfold resolveConflict, knownPair. destruct pair as [a b]. simpl.
  destruct (findRule rules a) as [ra|] eqn:Ha.
  - destruct (findRule rules b) as [rb|] eqn:Hb.
    + assert (Ka : In a (map id rules)).
      { apply findRule_Some in Ha. destruct Ha as [Hin <-]. now apply in_map. }
      assert (Kb : In b (map id rules)).
      { apply findRule_Some in Hb. destruct Hb as [Hin <-]. now apply in_map. }
      rewrite pushConflict_recorded, pushConflict_recorded.
      rewrite (proj1 (pushConflict_ids a b rules)). tauto.
    + apply findRule_None in Hb. tauto.
  - apply findRule_None in Ha. tauto.
Qed.

Lemma resolveConflicts_ids (pairs : list (string * string)) (rules : list Rule) :
  map id (resolveConflicts rules pairs) = map id rules /\
  map difficulty (resolveConflicts rules pairs) = map difficulty rules.
Proof.
  unfold resolveConflicts. revert rules.
  induction pairs as [|pair pairs IH]; intros rules; simpl; [now split|].
  destruct (IH (resolveConflict rules pair)) as [Hi Hd].
  destruct (resolveConflict_ids rules pair) as [Hi' Hd']. split; congruence.
Qed.

Lemma resolveConflicts_recorded (pairs : list (string * string)) (rules : list Rule)
    (x c : string) :
  conflictRecorded (resolveConflicts rules pairs) x c <->
  conflictRecorded rules x c \/
  exists pair, In pair pairs /\ knownPair rules pair /\
               ((x = fst pair /\ c = snd pair) \/ (x = snd pair /\ c = fst pair)).
Proof.
  unfold resolveConflicts. revert rules.
  induction pairs as [|pair pairs IH]; intros rules; simpl.
  - split; [auto | intros [H|[pair [[] _]]]; assumption].
  - rewrite IH, resolveConflict_recorded.
    unfold knownPair. rewrite (proj1 (resolveConflict_ids rules pair)).
    split.
    + intros [[H|H]|[p [Hp H]]]; [now left | right; exists pair; auto |].
      right. exists p. auto.
    + intros [H|[p [[<-|Hp] H]]]; [left; now left | left; now right |].
      right. exists p. auto.
Qed.

Lemma expanded_conflicts (literal : list Rule) (pairs : list (string * string)) :
  (forall rule, In rule literal -> conflictsWith rule = None) ->
  forall x c,
    conflictRecorded (resolveConflicts literal pairs) x c <->
    exists pair, In pair pairs /\ knownPair literal pair /\
                 ((x = fst pair /\ c = snd pair) \/ (x = snd pair /\ c = fst pair)).
Proof.
  intros Hnone x c. rewrite resolveConflicts_recorded.
  split; [|now right]. intros [[rule [Hin [_ Hc]]]|H]; [|assumption].
  unfold conflictsOf in Hc. rewrite (Hnone _ Hin) in Hc. destruct Hc.
Qed.

Lemma literal_has_no_conflicts :
  forall rule, In rule Chameleon.rulesLiteral -> conflictsWith rule = None.
Proof.
  intros rule H. vm_compute in H.
  repeat (destruct H as [<-|H]; [reflexivity|]). destruct H.
Qed.

(** X1. The [conflicts.forEach] pass over a catalog literal without
    [conflictsWith] keeps the ids and the weights of the rules, and records
    exactly the pairs whose two ids are in the catalog, in both directions:
    the recorded relation is symmetric, a pair with an unknown id leaves no
    trace, and every recorded id is the id of a catalog rule. *)
Theorem conflicts_are_expanded_symmetrically (literal : list Rule)
    (pairs : list (string * string)) :
  (forall rule, In rule literal -> conflictsWith rule = None) ->
  let rules := resolveConflicts literal pairs in
  map id rules = map id literal /\
  map difficulty rules = map difficulty literal /\
  (forall x c,
      conflictRecorded rules x c <->
      exists pair, In pair pairs /\ knownPair literal pair /\
                   ((x = fst pair /\ c = snd pair) \/ (x = snd pair /\ c = fst pair))) /\
  (forall x c, conflictRecorded rules x c -> conflictRecorded rules c x) /\
  (forall x c, conflictRecorded rules x c -> In c (map id rules)).
Proof.
  intros Hnone rules.
  assert (Hchar := expanded_conflicts literal pairs Hnone). fold rules in Hchar.
  destruct (resolveConflicts_ids pairs literal) as [Hi Hd].
  split; [assumption|]. split; [assumption|]. split; [assumption|]. split.
  - intros x c H. apply Hchar in H. apply Hchar.
    destruct H as [pair [Hp [Hk H]]]. exists pair. tauto.
  - intros x c H. apply Hchar in H. destruct H as [pair [Hp [[Ka Kb] H]]].
    fold rules in Hi. rewrite Hi. destruct H as [[_ ->]|[_ ->]]; assumption.
Qed.

Lemma conflicts_are_expanded_symmetrically_witness :
  conflictRecorded Chameleon.rules "no-spaces" "no-common-words" /\
  conflictRecorded Chameleon.rules "no-common-words" "no-spaces".
Proof.
  destruct (conflicts_are_expanded_symmetrically Chameleon.rulesLiteral Chameleon.conflicts)
    as [_ [_ [Hchar [Hsym _]]]].
  - exact literal_has_no_conflicts.
  - assert (H : conflictRecorded Chameleon.rules "no-common-words" "no-spaces").
    { apply Hchar. exists ("no-common-words", "no-spaces").
      split; [vm_compute; tauto|]. split; [split; vm_compute; tauto|].
      left. now split. }
    split; [apply Hsym|]; exact H.
Defined.

(** ** Validity *)

Lemma isValidRuleset_iff (rules : list Rule) (s : StringSet) :
  isValidRuleset rules s = true <->
  forall x c, conflictRecorded rules x c -> ~ (Set_has s x = true /\ Set_has s c = true).
Proof.
  unfold isValidRuleset. rewrite negb_true_iff. split.
  - intros H x c [rule [Hin [Hid Hc]]] [Hx Hcs].
    assert (E : existsb (fun conflict => Set_has s conflict)
                  (flat_map (fun rule => match conflictsWith rule with
                                         | Some cs => cs
                                         | None => []
                                         end)
                     (filter (fun rule => Set_has s (id rule)) rules)) = true).
    { apply existsb_exists. exists c. split; [|assumption].
      apply in_flat_map. exists rule. split; [|exact Hc].
      apply filter_In. split; [assumption | now rewrite Hid]. }
    congruence.
  - intros H. destruct (existsb _ _) eqn:E; [|reflexivity].
    exfalso. apply existsb_exists in E. destruct E as [c [Hc Hs]].
    apply in_flat_map in Hc. destruct Hc as [rule [Hrule Hc]].
    apply filter_In in Hrule. destruct Hrule as [Hin Hmember].
    apply (H (id rule) c); [|now split]. now exists rule.
Qed.

(** X2. For the catalog the [conflicts.forEach] pass builds, a ruleset is
    valid exactly when it holds no two ids of a listed pair (pairs with an
    id outside the catalog do not count). *)
Theorem valid_iff_no_listed_pair (literal : list Rule) (pairs : list (string * string))
    (s : StringSet) :
  (forall rule, In rule literal -> conflictsWith rule = None) ->
  (isValidRuleset (resolveConflicts literal pairs) s = true <->
   forall pair, In pair pairs -> knownPair literal pair ->
                ~ (Set_has s (fst pair) = true /\ Set_has s (snd pair) = true)).
Proof.
  intros Hnone.
  assert (Hchar := expanded_conflicts literal pairs Hnone).
  rewrite isValidRuleset_iff. split.
  - intros H pair Hp Hk. apply (H (fst pair) (snd pair)).
    apply Hchar. exists pair. auto.
  - intros H x c Hrec [Hx Hc]. apply Hchar in Hrec.
    destruct Hrec as [pair [Hp [Hk [[-> ->]|[-> ->]]]]];
      apply (H pair Hp Hk); auto.
Qed.

Lemma valid_iff_no_listed_pair_witness :
  ~ (Set_has ["every-letter"; "no-spaces"] "no-common-words" = true /\
     Set_has ["every-letter"; "no-spaces"] "no-spaces" = true).
Proof.
  apply (proj1 (valid_iff_no_listed_pair Chameleon.rulesLiteral Chameleon.conflicts
                  ["every-letter"; "no-spaces"] literal_has_no_conflicts))
    with (pair := ("no-common-words", "no-spaces")).
  - reflexivity.
  - vm_compute. tauto.
  - split; vm_compute; tauto.
Defined.

(** X3. Validity only depends on which ids are members, not on the order
    in which they were added, and it is inherited by subsets: deleting any
    id from a valid ruleset leaves a valid ruleset, and the empty ruleset is
    valid for every catalog. *)
Theorem validity_is_inherited_by_subsets (rules : list Rule) (s t : StringSet) :
  isValidRuleset rules [] = true /\
  (sameMembers s t -> isValidRuleset rules s = isValidRuleset rules t) /\
  ((forall x, Set_has t x = true -> Set_has s x = true) ->
   isValidRuleset rules s = true -> isValidRuleset rules t = true) /\
  (forall x, isValidRuleset rules s = true ->
             isValidRuleset rules (Set_delete x s) = true).
Proof.
  split; [apply isValidRuleset_empty|].
  split; [apply isValidRuleset_sameMembers|].
  split; [apply isValidRuleset_subset|].
  intros x V. apply (isValidRuleset_subset rules s); [|assumption].
  intros y Hy. rewrite Set_has_delete in Hy. now apply andb_true_iff in Hy.
Qed.

Lemma validity_is_inherited_by_subsets_witness :
  isValidRuleset Chameleon.rules ["no-spaces"] = true /\
  isValidRuleset Chameleon.rules (Set_delete "every-letter" ["every-letter"; "no-spaces"])
    = true.
Proof.
  destruct (validity_is_inherited_by_subsets Chameleon.rules
              ["every-letter"; "no-spaces"] ["no-spaces"]) as [_ [_ [Hsub Hdel]]].
  split.
  - apply Hsub; [|vm_compute; reflexivity].
    intros x H. apply Set_has_In in H. apply Set_has_In.
    simpl in *. tauto.
  - apply Hdel. vm_compute. reflexivity.
Defined.

(** ** The legal additions *)

Lemma In_new_Set (xs : list string) (x : string) : In x (new_Set xs) <-> In x xs.
Proof. rewrite <- !Set_has_In. now rewrite Set_has_new_Set. Qed.

Lemma Set_add_absent (x : string) (s : StringSet) :
  Set_has s x = false -> Set_add x s = s ++ [x].
Proof. intros H. unfold Set_add. now rewrite H. Qed.

Lemma getAdditionalValidRules_complete (rules : list Rule) (s : StringSet) (x : string) :
  In x (map id rules) -> Set_has s x = false ->
  isValidRuleset rules (Set_add x s) = true ->
  In x (getAdditionalValidRules rules s).
Proof.
  intros Hin Hnot V. unfold getAdditionalValidRules.
  apply In_new_Set. apply in_map_iff in Hin. destruct Hin as [rule [<- Hin]].
  apply in_map. apply filter_In. split; [assumption|].
  rewrite Hnot, isValidRuleset_new_Set. simpl.
  now rewrite <- (Set_add_absent _ _ Hnot).
Qed.

(** X4. [getAdditionalValidRules] returns, without repetition, exactly the
    ids of catalog rules that are not in the ruleset and whose addition
    gives a valid ruleset; for an invalid ruleset it returns nothing. *)
Theorem additional_rules_are_the_legal_moves (rules : list Rule) (s : StringSet) :
  (forall x, In x (getAdditionalValidRules rules s) <->
             In x (map id rules) /\ Set_has s x = false /\
             isValidRuleset rules (Set_add x s) = true) /\
  NoDup (getAdditionalValidRules rules s) /\
  (isValidRuleset rules s = false -> getAdditionalValidRules rules s = []).
Proof.
  assert (Hiff : forall x, In x (getAdditionalValidRules rules s) <->
             In x (map id rules) /\ Set_has s x = false /\
             isValidRuleset rules (Set_add x s) = true).
  { intros x. split.
    - intros H. apply getAdditionalValidRules_In in H.
      destruct H as [Hnot [V [rule [Hin <-]]]]. split; [now apply in_map | now split].
    - intros [Hin [Hnot V]]. now apply getAdditionalValidRules_complete. }
  split; [exact Hiff|]. split; [apply NoDup_new_Set|].
  intros Hinvalid. destruct (getAdditionalValidRules rules s) as [|x xs] eqn:E;
    [reflexivity|].
  exfalso. destruct (proj1 (Hiff x) (or_introl eq_refl)) as [_ [Hnot V]].
  rewrite (isValidRuleset_subset rules (Set_add x s) s) in Hinvalid;
    [discriminate | | assumption].
  intros y Hy. rewrite Set_has_add, Hy. apply orb_true_r.
Qed.

Lemma additional_rules_are_the_legal_moves_witness :
  getAdditionalValidRules Chameleon.rules ["all-lowercase"; "all-uppercase"] = [].
Proof.
  apply (proj2 (proj2 (additional_rules_are_the_legal_moves Chameleon.rules
                         ["all-lowercase"; "all-uppercase"]))).
  vm_compute. reflexivity.
Defined.

(** ** Where [randomValidRuleset] stops *)

Lemma removelast_snoc {A} (xs : list A) (x : A) : removelast (xs ++ [x]) = xs.
Proof. apply removelast_last. Qed.

(** What the loop of [randomValidRuleset] returns, started on a set of
    catalog ids: the set with one added id per draw used; the loop stopped
    because the target was reached or nothing could be added; and before
    the last addition the target had not been reached. *)
Lemma growRuleset_returns (rules : list Rule) (roughDifficulty : Q) (draws : list Draw) :
  forall s r draws',
    (forall x, In x s -> In x (map id rules)) ->
    growRuleset rules roughDifficulty s draws = Normal (r, draws') ->
    exists added,
      r = s ++ added /\
      List.length draws = List.length draws' + List.length added /\
      (forall x, In x r -> In x (map id rules)) /\
      (exists d, calculateDifficulty rules r = Normal d /\
                 ((roughDifficulty <= inject_Z d)%Q \/
                  getAdditionalValidRules rules r = [])) /\
      (added <> [] ->
       exists d0, calculateDifficulty rules (removelast r) = Normal d0 /\
                  (inject_Z d0 < roughDifficulty)%Q).
Proof.
  assert (Hstop : forall s (ds : list Draw) w,
    (forall x, In x s -> In x (map id rules)) ->
    calculateDifficulty rules s = Normal w ->
    (roughDifficulty <= inject_Z w)%Q \/ getAdditionalValidRules rules s = [] ->
    exists added,
      s = s ++ added /\
      List.length ds = List.length ds + List.length added /\
      (forall x, In x s -> In x (map id rules)) /\
      (exists d, calculateDifficulty rules s = Normal d /\
                 ((roughDifficulty <= inject_Z d)%Q \/
                  getAdditionalValidRules rules s = [])) /\
      (added <> [] ->
       exists d0, calculateDifficulty rules (removelast s) = Normal d0 /\
                  (inject_Z d0 < roughDifficulty)%Q)).
  { intros s ds w Hk Hw Hor. exists []. rewrite app_nil_r. simpl.
    split; [reflexivity|]. split; [lia|]. split; [assumption|].
    split; [now exists w | congruence]. }
  assert (Hge : forall w, Qlt_bool (inject_Z w) roughDifficulty = false ->
                          (roughDifficulty <= inject_Z w)%Q).
  { intros w H. unfold Qlt_bool in H. apply negb_false_iff in H.
    now apply Qle_bool_iff. }
  assert (Hlt : forall w, Qlt_bool (inject_Z w) roughDifficulty = true ->
                          (inject_Z w < roughDifficulty)%Q).
  { intros w H. unfold Qlt_bool in H. apply negb_true_iff in H.
    apply Qnot_le_lt. intros Hle. apply Qle_bool_iff in Hle. congruence. }
  assert (Hsize : forall s, (Set_size (getAdditionalValidRules rules s) =? 0) = true ->
                            getAdditionalValidRules rules s = []).
  { intros s H. apply Nat.eqb_eq in H. unfold Set_size in H.
    now destruct (getAdditionalValidRules rules s). }
  induction draws as [|d draws IH]; intros s r draws' Hknown H; simpl in H;
    destruct (calculateDifficulty rules s) as [w| |] eqn:Hw; try discriminate;
    destruct (Qlt_bool (inject_Z w) roughDifficulty) eqn:Hq;
    try (inversion H; subst; apply (Hstop _ _ w); auto);
    destruct (Set_size (getAdditionalValidRules rules s) =? 0) eqn:Hz;
    try (inversion H; subst; apply (Hstop _ _ w); auto); try discriminate.
  destruct (nth_error _ _) as [ruleToAdd|] eqn:E; [|discriminate].
  apply nth_error_In in E.
  destruct (getAdditionalValidRules_In _ _ _ E) as [Hnot [_ [rule [Hrule Hid]]]].
  rewrite (Set_add_absent _ _ Hnot) in H.
  apply IH in H.
  - destruct H as [added [-> [Hlen [Hk [Hstopped Hprev]]]]].
    exists (ruleToAdd :: added). rewrite <- app_assoc in *. simpl in *.
    split; [reflexivity|]. split; [lia|]. split; [assumption|].
    split; [assumption|]. intros _.
    destruct added as [|y added].
    + rewrite removelast_snoc. exists w. split; [assumption | now apply Hlt].
    + apply Hprev. discriminate.
  - intros x Hx. apply in_app_or in Hx. destruct Hx as [Hx|[<-|[]]];
      [now apply Hknown | subst; now apply in_map].
Qed.

Lemma randomValidRulesetRetry_returns (rules : list Rule) (retriesLeft : nat)
    (roughDifficulty : Q) draws r draws' :
  randomValidRulesetRetry rules retriesLeft roughDifficulty draws = Normal (r, draws') ->
  List.length draws = List.length draws' + Set_size r /\
  (forall x, In x r -> In x (map id rules)) /\
  (exists d, calculateDifficulty rules r = Normal d /\
             ((roughDifficulty <= inject_Z d)%Q \/
              getAdditionalValidRules rules r = [])) /\
  (r <> [] ->
   exists d0, calculateDifficulty rules (removelast r) = Normal d0 /\
              (inject_Z d0 < roughDifficulty)%Q).
Proof.
  revert draws. induction retriesLeft as [|n IH]; intros draws H; simpl in H;
    returned H;
    apply growRuleset_returns in Hcall; try (intros x []);
    destruct Hcall as [added [Ha [Hlen Hrest]]]; simpl in Ha; subst a.
  - assert (E : r = added) by (destruct (Set_size added); now apply ret_Normal in H).
    assert (E' : draws' = draws0) by (destruct (Set_size added); now apply ret_Normal in H).
    subst. unfold Set_size. tauto.
  - destruct (Set_size added) eqn:Z.
    + apply IH in H. unfold Set_size in Z. rewrite Z in Hlen.
      destruct H as [Hlen' H']. split; [lia | exact H'].
    + apply ret_Normal in H. destruct H as [-> ->]. unfold Set_size. tauto.
Qed.

(** X5. Whenever [randomValidRuleset] returns, the ruleset is made of
    catalog ids and one draw was used for each of them; the target
    difficulty has been reached or no further rule can be added; the ruleset
    without the rule added last is below the target; and the ruleset is not
    empty if the target is positive and some rule can be added to the empty
    set. *)
Theorem randomValidRuleset_stops_at_the_target (rules : list Rule)
    (roughDifficulty : Q) (attempt : nat) draws r draws' :
  randomValidRuleset rules roughDifficulty attempt draws = Normal (r, draws') ->
  NoDup r /\
  (forall x, In x r -> In x (map id rules)) /\
  List.length draws = List.length draws' + Set_size r /\
  (exists d, calculateDifficulty rules r = Normal d /\
             ((roughDifficulty <= inject_Z d)%Q \/
              getAdditionalValidRules rules r = [])) /\
  (r <> [] ->
   exists d0, calculateDifficulty rules (removelast r) = Normal d0 /\
              (inject_Z d0 < roughDifficulty)%Q) /\
  ((0 < roughDifficulty)%Q -> getAdditionalValidRules rules [] <> [] -> r <> []).
Proof.
  intros H. assert (Hv := randomValidRuleset_valid _ _ _ _ _ _ H).
  apply randomValidRulesetRetry_returns in H.
  destruct H as [Hlen [Hknown [Hstop Hprev]]].
  split; [apply Hv|]. split; [assumption|]. split; [assumption|].
  split; [assumption|]. split; [assumption|].
  intros Hpos Hsome ->. destruct Hstop as [d [Hd [Hle|Hnone]]]; [|contradiction].
  simpl in Hd. inversion Hd; subst. apply Qle_not_lt in Hle. contradiction.
Qed.

Lemma randomValidRuleset_stops_at_the_target_witness :
  exists d, calculateDifficulty Chameleon.rules ["unique-messages"; "all-lowercase"]
              = Normal d /\
            ((6 <= inject_Z d)%Q \/
             getAdditionalValidRules Chameleon.rules ["unique-messages"; "all-lowercase"]
               = []).
Proof.
  apply (randomValidRuleset_stops_at_the_target Chameleon.rules 6 0
           [pick3; pick0; pick8] ["unique-messages"; "all-lowercase"] [pick8]).
  vm_compute. reflexivity.
Defined.

Lemma Set_add_valid_iff (rules : list Rule) (s : StringSet) (x : string) :
  isValidRuleset rules (Set_add x s) = true <->
  isValidRuleset rules s = true /\
  forall c, conflictRecorded rules x c \/ conflictRecorded rules c x ->
            Set_has s c = false /\ c <> x.
Proof.
  rewrite !isValidRuleset_iff. split.
  - intros H. split.
    + intros y c Hrec [Hy Hc]. apply (H y c Hrec).
      rewrite !Set_has_add, Hy, Hc. now rewrite !orb_true_r.
    + intros c Hrec.
      assert (Hx : Set_has (Set_add x s) x = true)
        by (rewrite Set_has_add, String.eqb_refl; reflexivity).
      split.
      * destruct (Set_has s c) eqn:Hc; [|reflexivity]. exfalso.
        assert (Hc' : Set_has (Set_add x s) c = true)
          by (rewrite Set_has_add, Hc; apply orb_true_r).
        destruct Hrec as [Hrec|Hrec]; [apply (H x c Hrec) | apply (H c x Hrec)]; auto.
      * intros ->. destruct Hrec as [Hrec|Hrec]; apply (H x x Hrec); auto.
  - intros [Hs Hx] y c Hrec [Hy Hc].
    rewrite Set_has_add in Hy, Hc.
    apply orb_true_iff in Hy. apply orb_true_iff in Hc.
    destruct Hy as [Hy|Hy]; destruct Hc as [Hc|Hc].
    + apply String.eqb_eq in Hy. apply String.eqb_eq in Hc. subst.
      destruct (Hx x (or_introl Hrec)) as [_ Hne]. now apply Hne.
    + apply String.eqb_eq in Hy. subst.
      destruct (Hx c (or_introl Hrec)) as [Hf _]. congruence.
    + apply String.eqb_eq in Hc. subst.
      destruct (Hx y (or_intror Hrec)) as [Hf _]. congruence.
    + apply (Hs y c Hrec). auto.
Qed.

(** X6. A rule can be added to a ruleset, keeping it valid, exactly when
    the ruleset is valid and the rule is recorded as conflicting neither
    with a member nor with itself, in either direction. *)
Theorem a_rule_fits_iff_it_conflicts_with_no_member (rules : list Rule)
    (s : StringSet) (x : string) :
  isValidRuleset rules (Set_add x s) = true <->
  isValidRuleset rules s = true /\
  forall c, conflictRecorded rules x c \/ conflictRecorded rules c x ->
            Set_has s c = false /\ c <> x.
Proof. apply Set_add_valid_iff. Qed.

Lemma a_rule_fits_iff_it_conflicts_with_no_member_witness :
  Set_has ["unique-messages"; "no-spaces"] "only-emojis" = false /\
  "only-emojis" <> "no-punctuation".
Proof.
  apply (proj2 (proj1 (a_rule_fits_iff_it_conflicts_with_no_member Chameleon.rules
                         ["unique-messages"; "no-spaces"] "no-punctuation")
                  ltac:(vm_compute; reflexivity))).
  left.
  exists (mkRule "no-punctuation" "No punctuation"
            "Messages should not contain any punctuation." (Some ["only-emojis"]) 2).
  split; [vm_compute; tauto|]. split; [reflexivity | vm_compute; tauto].
Defined.

(** ** The rulesets of the shipped catalog *)

Lemma shipped_conflicts (x c : string) :
  conflictRecorded Chameleon.rules x c ->
  In (x, c) Chameleon.conflicts \/ In (c, x) Chameleon.conflicts.
Proof.
  intros H. apply (expanded_conflicts _ _ literal_has_no_conflicts) in H.
  destruct H as [[a b] [Hp [_ [[-> ->]|[-> ->]]]]]; auto.
Qed.

Lemma shipped_weight_bound (x : string) : (0 <= weightOf Chameleon.rules x <= 5)%Z.
Proof.
  unfold weightOf. destruct (findRule Chameleon.rules x) as [rule|] eqn:E; [|lia].
  apply findRule_Some in E. destruct E as [Hin _]. vm_compute in Hin.
  repeat (destruct Hin as [<-|Hin]; [vm_compute; split; discriminate|]). destruct Hin.
Qed.

(** A valid ruleset of the shipped catalog to which nothing can be added
    holds [unique-messages] and one of [no-punctuation] and [only-emojis]. *)
Lemma shipped_maximal (s : StringSet) :
  isValidRuleset Chameleon.rules s = true ->
  getAdditionalValidRules Chameleon.rules s = [] ->
  Set_has s "unique-messages" = true /\
  (Set_has s "no-punctuation" = true \/ Set_has s "only-emojis" = true).
Proof.
  intros V Hnone.
  assert (Hfits : forall x, In x (map id Chameleon.rules) ->
            isValidRuleset Chameleon.rules (Set_add x s) = true -> Set_has s x = true).
  { intros x Hx Vx. destruct (Set_has s x) eqn:E; [reflexivity|]. exfalso.
    assert (Hin := getAdditionalValidRules_complete Chameleon.rules s x Hx E Vx).
    rewrite Hnone in Hin. destruct Hin. }
  split.
  - apply Hfits; [vm_compute; tauto|].
    apply Set_add_valid_iff. split; [assumption|].
    intros c [H|H]; apply shipped_conflicts in H; exfalso;
      vm_compute in H; intuition congruence.
  - destruct (Set_has s "only-emojis") eqn:E; [now right | left].
    apply Hfits; [vm_compute; tauto|].
    apply Set_add_valid_iff. split; [assumption|].
    intros c [H|H]; apply shipped_conflicts in H;
      assert (Hc : c = "only-emojis") by (vm_compute in H; intuition congruence);
      subst c; split; [assumption | discriminate | assumption | discriminate].
Qed.

(** X7. With the shipped catalog and nine draws at hand, [initializeRules]
    always returns, whatever the draws are, and the ruleset it installs is
    not empty and has a difficulty between 6 and 10. *)
Theorem the_initial_ruleset_has_difficulty_6_to_10 (updatedAt : Z) (st : EngineState)
    (draws : list Draw) :
  9 <= List.length draws ->
  exists st' event draws' d,
    initializeRules Chameleon.rules updatedAt st draws = Normal ((st', Some event), draws') /\
    activeRules st' <> [] /\
    isValidRuleset Chameleon.rules (activeRules st') = true /\
    calculateDifficulty Chameleon.rules (activeRules st') = Normal d /\
    (6 <= d <= 10)%Z.
Proof.
  intros Hlen.
  destruct (randomValidRulesetRetry_total Chameleon.rules 10
              (inject_Z initialRoughDifficulty) draws Hlen) as [r [draws' Hr]].
  assert (Hv := randomValidRulesetRetry_valid _ _ _ _ _ _ Hr).
  destruct Hv as [V Hnd].
  destruct (randomValidRulesetRetry_returns _ _ _ _ _ _ Hr)
    as [_ [Hknown [[d [Hd Hstop]] Hprev]]].
  assert (Hne : r <> []).
  { intros ->. destruct Hstop as [Hle|Hnone]; [|vm_compute in Hnone; discriminate].
    simpl in Hd. inversion Hd; subst. vm_compute in Hle. now apply Hle. }
  exists (mkState r [] updatedAt),
         (mkEvent "An initial ruleset has been created." r), draws', d.
  split.
  { unfold initializeRules, randomValidRuleset, bind. cbn [Nat.sub]. rewrite Hr.
    now rewrite updateRules_installs, (new_Set_NoDup _ Hnd). }
  cbn [activeRules]. split; [assumption|]. split; [assumption|].
  split; [assumption|].
  apply calculateDifficulty_Normal in Hd. destruct Hd as [-> _]. split.
  - destruct Hstop as [Hle|Hnone].
    + change (inject_Z initialRoughDifficulty) with (inject_Z 6) in Hle.
      now rewrite <- Zle_Qle in Hle.
    + destruct (shipped_maximal r V Hnone) as [Hu Hp].
      assert (Hw : forall x, (0 <= weightOf Chameleon.rules x)%Z)
        by (intros x; exact (proj1 (shipped_weight_bound x))).
      destruct Hp as [Hp|Hp].
      * assert (H := Zsum_incl (weightOf Chameleon.rules)
                       ["unique-messages"; "no-punctuation"] r).
        assert (E : Zsum (map (weightOf Chameleon.rules)
                            ["unique-messages"; "no-punctuation"]) = 7%Z)
          by (vm_compute; reflexivity).
        rewrite E in H. apply Set_has_In in Hu. apply Set_has_In in Hp.
        assert (7 <= Zsum (map (weightOf Chameleon.rules) r))%Z; [|lia].
        apply H; [repeat constructor; simpl; intuition discriminate | | assumption].
        intros y [<-|[<-|[]]]; assumption.
      * assert (H := Zsum_incl (weightOf Chameleon.rules)
                       ["unique-messages"; "only-emojis"] r).
        assert (E : Zsum (map (weightOf Chameleon.rules)
                            ["unique-messages"; "only-emojis"]) = 7%Z)
          by (vm_compute; reflexivity).
        rewrite E in H. apply Set_has_In in Hu. apply Set_has_In in Hp.
        assert (7 <= Zsum (map (weightOf Chameleon.rules) r))%Z; [|lia].
        apply H; [repeat constructor; simpl; intuition discriminate | | assumption].
        intros y [<-|[<-|[]]]; assumption.
  - destruct (Hprev Hne) as [d0 [Hd0 Hlt]].
    apply calculateDifficulty_Normal in Hd0. destruct Hd0 as [-> _].
    change (inject_Z initialRoughDifficulty) with (inject_Z 6) in Hlt.
    rewrite <- Zlt_Qlt in Hlt.
    destruct (exists_last Hne) as [front [lastRule ->]].
    rewrite removelast_snoc in Hlt. rewrite map_app, Zsum_app.
    cbn [map Zsum fold_right].
    assert (Hb := shipped_weight_bound lastRule). lia.
Qed.

Lemma the_initial_ruleset_has_difficulty_6_to_10_witness :
  exists st' event draws' d,
    initializeRules Chameleon.rules 5 (loadedState 0) (repeat pick8 9)
      = Normal ((st', Some event), draws') /\
    activeRules st' <> [] /\
    isValidRuleset Chameleon.rules (activeRules st') = true /\
    calculateDifficulty Chameleon.rules (activeRules st') = Normal d /\
    (6 <= d <= 10)%Z.
Proof.
  apply the_initial_ruleset_has_difficulty_6_to_10. simpl. lia.
Defined.

(** ** The decision procedure *)

Lemma evaluateChange_crowded (rules : list Rule) {engine : ArraySort}
    (now updatedAt : Z) (st : EngineState) (draws : list Draw) :
  (minimumTimeBetweenChanges <= now - lastRulesetChange st <= maximumTimeBetweenChanges)%Z ->
  maximumMessagesUntilChange < List.length (violationHistoryForThisRuleset st) ->
  evaluateChange rules now updatedAt st draws =
  regenerate rules
    "The ruleset has been changed entirely, since there have been a lot of messages since it was last changed."
    updatedAt st draws.
Proof.
  intros [Hmin Hmax] Hlen. unfold evaluateChange, evaluateChangeWith.
  destruct (Z.ltb_spec (now - lastRulesetChange st) minimumTimeBetweenChanges); [lia|].
  destruct (now - lastRulesetChange st >? maximumTimeBetweenChanges)%Z eqn:G.
  { rewrite Z.gtb_ltb in G. apply Z.ltb_lt in G. lia. }
  destruct (Nat.ltb_spec (List.length (violationHistoryForThisRuleset st)) minimumSampleSize).
  { unfold minimumSampleSize, maximumMessagesUntilChange in *. lia. }
  destruct (Nat.ltb_spec maximumMessagesUntilChange
              (List.length (violationHistoryForThisRuleset st))); [reflexivity | lia].
Qed.

Lemma regenerate_total (rules : list Rule) (reason : string) (updatedAt : Z)
    (st : EngineState) (draws : list Draw) :
  (forall x, In x (activeRules st) -> In x (map id rules)) ->
  List.length rules <= List.length draws ->
  exists result draws', regenerate rules reason updatedAt st draws = Normal (result, draws').
Proof.
  intros Hknown Hlen. unfold regenerate, bind, lift.
  rewrite (calculateDifficulty_known rules _ Hknown). cbn [cbind].
  destruct (randomValidRulesetRetry_total rules 10
              (inject_Z (initialRoughDifficulty
                         + Zsum (map (weightOf rules) (activeRules st))) / 2)
              draws Hlen) as [r [draws' Hr]].
  unfold randomValidRuleset. cbn [Nat.sub]. rewrite Hr.
  destruct (updateRules r reason updatedAt st). now eexists _, _.
Qed.

(** X8. When more than [maximumTimeBetweenChanges] has passed since the
    last change, or at least [minimumTimeBetweenChanges] has passed and the
    history holds more than [maximumMessagesUntilChange] records,
    [evaluateChange] replaces the ruleset whatever the fail ratio and the
    draws are: every return announces a change to a valid ruleset, with the
    history emptied and the clock set, and it does return when the active
    ruleset is made of catalog ids and there is a draw for each catalog
    rule. *)
Theorem overdue_rulesets_are_always_replaced (rules : list Rule) {engine : ArraySort}
    (now updatedAt : Z) (st : EngineState) (draws : list Draw) :
  (maximumTimeBetweenChanges < now - lastRulesetChange st)%Z \/
  ((minimumTimeBetweenChanges <= now - lastRulesetChange st)%Z /\
   maximumMessagesUntilChange < List.length (violationHistoryForThisRuleset st)) ->
  (forall st' event draws',
      evaluateChange rules now updatedAt st draws = Normal ((st', event), draws') ->
      exists installed reason,
        event = Some (mkEvent reason installed) /\
        st' = mkState installed [] updatedAt /\
        isValidRuleset rules installed = true) /\
  ((forall x, In x (activeRules st) -> In x (map id rules)) ->
   List.length rules <= List.length draws ->
   exists st' event draws',
     evaluateChange rules now updatedAt st draws = Normal ((st', event), draws')).
Proof.
  intros Hdue.
  assert (E : exists reason,
             evaluateChange rules now updatedAt st draws =
             regenerate rules reason updatedAt st draws).
  { destruct (Z.ltb_spec maximumTimeBetweenChanges (now - lastRulesetChange st)) as [L|L].
    - eexists. now apply evaluateChange_stale.
    - destruct Hdue as [Hdue|[Hmin Hlen]]; [lia|].
      eexists. apply evaluateChange_crowded; [lia | assumption]. }
  destruct E as [reason E]. rewrite E. split.
  - intros st' event draws' H. apply regenerate_returns in H.
    destruct H as [installed [V [_ [Hst [reason' Hev]]]]]. simpl in Hst, Hev.
    exists installed, reason'. auto.
  - intros Hknown Hlen.
    destruct (regenerate_total rules reason updatedAt st draws Hknown Hlen)
      as [[st' event] [draws' H]].
    now exists st', event, draws'.
Qed.

Lemma overdue_rulesets_are_always_replaced_witness :
  exists st' event draws',
    evaluateChange (engine := V8_engine) Chameleon.rules
      (minimumTimeBetweenChanges + 7) (minimumTimeBetweenChanges + 8)
      (mkState exampleRuleset (allFailed 101) 7) (repeat pick3 9)
    = Normal ((st', event), draws').
Proof.
  apply (proj2 (overdue_rulesets_are_always_replaced Chameleon.rules (engine := V8_engine)
                  (minimumTimeBetweenChanges + 7) (minimumTimeBetweenChanges + 8)
                  (mkState exampleRuleset (allFailed 101) 7) (repeat pick3 9)
                  ltac:(right; split; [vm_compute; discriminate | vm_compute; lia]))).
  - intros x H. vm_compute in H. vm_compute. intuition auto.
  - vm_compute. lia.
Defined.

Lemma regenerate_announces (rules : list Rule) (reason : string) (updatedAt : Z)
    (st : EngineState) draws st' event draws' :
  regenerate rules reason updatedAt st draws = Normal ((st', event), draws') ->
  exists installed, event = Some (mkEvent reason installed) /\
                    st' = mkState installed [] updatedAt.
Proof.
  unfold regenerate. intros H. returned H.
  rewrite updateRules_installs in H. apply ret_Normal in H. destruct H as [H _].
  inversion H. now eexists.
Qed.



(** ** What the engine never does *)

Lemma bind_no_Throw {A B} (m : Rand A) (k : A -> Rand B) (draws : list Draw) :
  m draws <> Throw ->
  (forall a draws1, m draws = Normal (a, draws1) -> k a draws1 <> Throw) ->
  bind m k draws <> Throw.
Proof.
  intros Hm Hk. unfold bind. destruct (m draws) as [[a draws1]| |];
    [now apply Hk | congruence | discriminate].
Qed.

Lemma Array_from_no_Throw {A} (m : Rand A) :
  (forall draws, m draws <> Throw) ->
  forall n draws, Array_from n m draws <> Throw.
Proof.
  intros Hm. induction n as [|n IH]; intros draws; simpl; [discriminate|].
  apply bind_no_Throw; [apply Hm|]. intros a draws1 _.
  apply bind_no_Throw; [apply IH|]. intros xs draws2 _. discriminate.
Qed.

Section NoThrow.

Variable rules : list Rule.
Context {engine : ArraySort}.
Hypothesis catalog_not_empty : rules <> [].

Let known (s : StringSet) : Prop := forall x, In x s -> In x (map id rules).

Lemma toggleUntilValid_no_Throw (oldRuleset : StringSet) (draws : list Draw) :
  toggleUntilValid rules oldRuleset draws <> Throw.
Proof.
  induction draws as [|d draws IH]; simpl; [discriminate|].
  destruct (nth_error rules (randomIndex d (List.length rules))) as [rule|] eqn:E.
  - destruct (isValidRuleset rules _); [discriminate | exact IH].
  - exfalso. apply nth_error_None in E.
    assert (L := randomIndex_lt d (List.length rules)).
    destruct rules; [congruence | simpl in *; lia].
Qed.

Lemma toggleUntilValid_known (oldRuleset : StringSet) (draws : list Draw) r draws' :
  known oldRuleset ->
  toggleUntilValid rules oldRuleset draws = Normal (r, draws') -> known r.
Proof.
  intros Hk. induction draws as [|d draws IH]; simpl; [discriminate|].
  destruct (nth_error rules (randomIndex d (List.length rules))) as [rule|] eqn:E;
    [|discriminate].
  apply nth_error_In in E.
  destruct (isValidRuleset rules _); [|exact IH].
  intros H. inversion H; subst; clear H. intros x Hx.
  apply Set_has_In in Hx.
  destruct (Set_has (new_Set oldRuleset) (id rule)).
  - rewrite Set_has_delete, Set_has_new_Set in Hx. apply andb_true_iff in Hx.
    apply Hk. now apply Set_has_In.
  - rewrite Set_has_add, Set_has_new_Set in Hx. apply orb_true_iff in Hx.
    destruct Hx as [Hx|Hx].
    + apply String.eqb_eq in Hx. subst. now apply in_map.
    + apply Hk. now apply Set_has_In.
Qed.

Lemma mutateLoop_no_Throw (amount : nat) (s : StringSet) (draws : list Draw) :
  mutateLoop rules amount s draws <> Throw.
Proof.
  revert s draws. induction amount as [|n IH]; intros s draws; simpl; [discriminate|].
  apply bind_no_Throw; [apply toggleUntilValid_no_Throw|]. intros a d _. apply IH.
Qed.

Lemma mutateLoop_known (amount : nat) (s : StringSet) draws r draws' :
  known s -> mutateLoop rules amount s draws = Normal (r, draws') -> known r.
Proof.
  revert s draws. induction amount as [|n IH]; intros s draws Hk H; simpl in H.
  - apply ret_Normal in H. now destruct H as [-> _].
  - returned H. eapply IH; [|eassumption].
    eapply toggleUntilValid_known; [|eassumption].
    intros x Hx. apply Hk. now apply In_new_Set.
Qed.

Lemma mutateRuleset_known (s : StringSet) (amount : nat) draws r draws' :
  known s -> mutateRuleset rules s amount draws = Normal (r, draws') -> known r.
Proof.
  intros Hk. apply mutateLoop_known. intros x Hx. apply Hk. now apply In_new_Set.
Qed.

Lemma Array_filter_no_Throw {A} (p : A -> completion bool) (xs : list A) :
  Forall (fun x => exists b, p x = Normal b) xs -> Array_filter p xs <> Throw.
Proof.
  intros H. destruct (Array_filter_can_return p xs H) as [ys E]. congruence.
Qed.

Lemma makeEasierRuleset_no_Throw (s : StringSet) (draws : list Draw) :
  known s -> makeEasierRuleset rules s draws <> Throw.
Proof.
  intros Hk. unfold makeEasierRuleset.
  apply bind_no_Throw.
  { apply Array_from_no_Throw. intros ds. apply mutateLoop_no_Throw. }
  intros candidates draws1 Hc.
  apply (Array_from_Forall known) in Hc;
    [|intros ds cand ds'; now apply mutateRuleset_known].
  destruct Hc as [Hall _].
  apply bind_no_Throw.
  { unfold lift.
    destruct (Array_filter _ candidates) eqn:E; try discriminate.
    exfalso. revert E. apply Array_filter_no_Throw.
    eapply Forall_impl; [|exact Hall]. intros r Hr.
    rewrite (calculateDifficulty_known rules r Hr),
            (calculateDifficulty_known rules s Hk). cbn [cbind]. now eexists. }
  intros filtered draws2 _.
  destruct (Array_pop _); discriminate.
Qed.

Lemma makeHarderRuleset_no_Throw (s : StringSet) (draws : list Draw) :
  known s -> makeHarderRuleset rules s draws <> Throw.
Proof.
  intros Hk. unfold makeHarderRuleset.
  apply bind_no_Throw.
  { apply Array_from_no_Throw. intros ds. apply mutateLoop_no_Throw. }
  intros candidates draws1 Hc.
  apply (Array_from_Forall known) in Hc;
    [|intros ds cand ds'; now apply mutateRuleset_known].
  destruct Hc as [Hall _].
  apply bind_no_Throw.
  { unfold lift.
    destruct (Array_filter _ candidates) eqn:E; try discriminate.
    exfalso. revert E. apply Array_filter_no_Throw.
    eapply Forall_impl; [|exact Hall]. intros r Hr.
    rewrite (calculateDifficulty_known rules r Hr),
            (calculateDifficulty_known rules s Hk). cbn [cbind]. now eexists. }
  intros filtered draws2 _.
  destruct (Array_pop _); discriminate.
Qed.

Lemma makeEasierRuleset_known (s : StringSet) draws res draws' :
  known s -> makeEasierRuleset rules s draws = Normal (res, draws') ->
  known (ruleset res).
Proof.
  intros Hk H. unfold makeEasierRuleset in H.
  apply bind_Normal in H. destruct H as [candidates [ds1 [Hc H]]].
  apply bind_Normal in H. destruct H as [filtered [ds2 [Hf H]]].
  apply (Array_from_Forall known) in Hc;
    [|intros ds cand ds'; now apply mutateRuleset_known].
  destruct Hc as [Hall _]. apply lift_Normal in Hf. destruct Hf as [Hf _].
  destruct (Array_pop _) as [closest|] eqn:P;
    apply ret_Normal in H; destruct H as [-> _]; simpl; [|assumption].
  apply Array_pop_In in P.
  apply (Permutation_in _ (Array_sort_permutation _ _ _)) in P.
  destruct (Array_filter_In _ _ _ Hf _ P) as [Hin _].
  rewrite Forall_forall in Hall. now apply Hall.
Qed.

Lemma makeHarderRuleset_known (s : StringSet) draws res draws' :
  known s -> makeHarderRuleset rules s draws = Normal (res, draws') ->
  known (ruleset res).
Proof.
  intros Hk H. unfold makeHarderRuleset in H.
  apply bind_Normal in H. destruct H as [candidates [ds1 [Hc H]]].
  apply bind_Normal in H. destruct H as [filtered [ds2 [Hf H]]].
  apply (Array_from_Forall known) in Hc;
    [|intros ds cand ds'; now apply mutateRuleset_known].
  destruct Hc as [Hall _]. apply lift_Normal in Hf. destruct Hf as [Hf _].
  destruct (Array_pop _) as [closest|] eqn:P;
    apply ret_Normal in H; destruct H as [-> _]; simpl; [|assumption].
  apply Array_pop_In in P.
  apply (Permutation_in _ (Array_sort_permutation _ _ _)) in P.
  destruct (Array_filter_In _ _ _ Hf _ P) as [Hin _].
  rewrite Forall_forall in Hall. now apply Hall.
Qed.

Lemma growRuleset_no_Throw (roughDifficulty : Q) (draws : list Draw) :
  forall s, known s -> growRuleset rules roughDifficulty s draws <> Throw.
Proof.
  induction draws as [|d draws IH]; intros s Hk; simpl;
    rewrite (calculateDifficulty_known rules s Hk);
    destruct (Qlt_bool _ roughDifficulty); try discriminate;
    destruct (Set_size (getAdditionalValidRules rules s) =? 0) eqn:Z;
    try discriminate.
  apply Nat.eqb_neq in Z.
  destruct (nth_error _ _) as [ruleToAdd|] eqn:E.
  - apply IH. apply nth_error_In, getAdditionalValidRules_In in E.
    destruct E as [Hnot [_ [rule [Hin <-]]]].
    intros x Hx. rewrite (Set_add_absent _ _ Hnot) in Hx.
    apply in_app_or in Hx. destruct Hx as [Hx|[<-|[]]];
      [now apply Hk | now apply in_map].
  - exfalso. apply nth_error_None in E.
    assert (L := randomIndex_lt d (Set_size (getAdditionalValidRules rules s))).
    unfold Set_size in *. lia.
Qed.

Lemma randomValidRulesetRetry_no_Throw (retriesLeft : nat) (roughDifficulty : Q)
    (draws : list Draw) :
  randomValidRulesetRetry rules retriesLeft roughDifficulty draws <> Throw.
Proof.
  revert draws. induction retriesLeft as [|n IH]; intros draws; simpl;
    (apply bind_no_Throw; [apply growRuleset_no_Throw; intros x []|]);
    intros r ds _; destruct (Set_size r); try discriminate. apply IH.
Qed.

Lemma regenerate_no_Throw (reason : string) (updatedAt : Z) (st : EngineState)
    (draws : list Draw) :
  known (activeRules st) -> regenerate rules reason updatedAt st draws <> Throw.
Proof.
  intros Hk. unfold regenerate.
  apply bind_no_Throw.
  { unfold lift. now rewrite (calculateDifficulty_known rules _ Hk). }
  intros d ds _. apply bind_no_Throw; [apply randomValidRulesetRetry_no_Throw|].
  intros r ds' _. destruct (updateRules r reason updatedAt st). discriminate.
Qed.

Lemma evaluateChange_no_Throw (now updatedAt : Z) (st : EngineState) (draws : list Draw) :
  known (activeRules st) -> evaluateChange rules now updatedAt st draws <> Throw.
Proof.
  intros Hk. unfold evaluateChange, evaluateChangeWith. cbv zeta.
  assert (Hcomplete : forall ds,
    ((r <- Math_random ;;
      if Qlt_bool (value r) completeChangeChance
      then regenerate rules "The ruleset has been changed entirely by chance." updatedAt st
      else ret (st, None))%rand) ds <> Throw).
  { intros ds. apply bind_no_Throw; [destruct ds; discriminate|].
    intros r ds' _. destruct (Qlt_bool _ _); [now apply regenerate_no_Throw | discriminate]. }
  destruct (_ <? minimumTimeBetweenChanges)%Z; [discriminate|].
  destruct (_ >? maximumTimeBetweenChanges)%Z; [now apply regenerate_no_Throw|].
  destruct (_ <? minimumSampleSize); [discriminate|].
  destruct (maximumMessagesUntilChange <? _); [now apply regenerate_no_Throw|].
  apply bind_no_Throw; [destruct draws; discriminate|].
  intros r ds _. destruct (Qlt_bool (value r) changeChance); [|apply Hcomplete].
  apply bind_no_Throw; [discriminate|]. intros ratio ds' _.
  destruct (number_gt ratio maxFailRatio).
  - apply bind_no_Throw; [now apply makeEasierRuleset_no_Throw|].
    intros res ds2 _. destruct (negb (success res)); [now apply regenerate_no_Throw|].
    destruct (updateRules _ _ _ _). discriminate.
  - destruct (number_lt ratio minFailRatio); [|apply Hcomplete].
    apply bind_no_Throw; [now apply makeHarderRuleset_no_Throw|].
    intros res ds2 _. destruct (negb (success res)); [now apply regenerate_no_Throw|].
    destruct (updateRules _ _ _ _). discriminate.
Qed.

(** The active ruleset of a reachable state is a duplicate-free list of
    catalog ids. *)
Lemma reachable_known (st : EngineState) :
  reachable rules st -> known (activeRules st) /\ NoDup (activeRules st).
Proof.
  assert (Hregen : forall reason t s ds s' ev ds',
            known (activeRules s) ->
            regenerate rules reason t s ds = Normal ((s', ev), ds') ->
            known (activeRules s') /\ NoDup (activeRules s')).
  { intros reason t s ds s' ev ds' Hk H. unfold regenerate in H. returned H.
    assert (Hv := randomValidRuleset_valid _ _ _ _ _ _ Hcall0).
    apply randomValidRulesetRetry_returns in Hcall0.
    destruct Hcall0 as [_ [Hknown _]]. destruct Hv as [_ Hnd].
    rewrite updateRules_installs, (new_Set_NoDup _ Hnd) in H.
    apply ret_Normal in H. destruct H as [H _]. inversion H; subst. now split. }
  assert (Hnearest : forall installed t reason s s' ev ds ds',
            known installed ->
            (let (st', event) := updateRules installed reason t s in
             ret (st', Some event)) ds = Normal ((s', ev), ds') ->
            known (activeRules s') /\ NoDup (activeRules s')).
  { intros installed t reason s s' ev ds ds' Hk H. rewrite updateRules_installs in H.
    apply ret_Normal in H. destruct H as [H _]. inversion H; subst. simpl.
    split; [|apply NoDup_new_Set]. intros x Hx. apply Hk. now apply In_new_Set. }
  intros R. induction R as [? ? ? ? ? ? H| |? ? ? ? ? ? ? R [IHk IHn] H].
  - unfold initializeRules in H. returned H.
    assert (Hv := randomValidRuleset_valid _ _ _ _ _ _ Hcall).
    apply randomValidRulesetRetry_returns in Hcall.
    destruct Hcall as [_ [Hknown _]]. destruct Hv as [_ Hnd].
    rewrite updateRules_installs, (new_Set_NoDup _ Hnd) in H.
    apply ret_Normal in H. destruct H as [H _]. inversion H; subst. now split.
  - assumption.
  - unfold evaluateChange, evaluateChangeWith in H. cbv zeta in H.
    assert (Hcomplete : forall ds,
      ((r <- Math_random ;;
        if Qlt_bool (value r) completeChangeChance
        then regenerate rules "The ruleset has been changed entirely by chance." updatedAt st
        else ret (st, None))%rand) ds = Normal ((st', event), draws') ->
      known (activeRules st') /\ NoDup (activeRules st')).
    { intros ds Hc. returned Hc. destruct (Qlt_bool _ _).
      - eapply Hregen; eassumption.
      - apply ret_Normal in Hc. destruct Hc as [Hc _]. inversion Hc; subst. now split. }
    destruct (_ <? minimumTimeBetweenChanges)%Z.
    { apply ret_Normal in H. destruct H as [H _]. inversion H; subst. now split. }
    destruct (_ >? maximumTimeBetweenChanges)%Z; [eapply Hregen; eassumption|].
    destruct (_ <? minimumSampleSize).
    { apply ret_Normal in H. destruct H as [H _]. inversion H; subst. now split. }
    destruct (maximumMessagesUntilChange <? _); [eapply Hregen; eassumption|].
    apply bind_Normal in H. destruct H as [first [ds1 [_ H]]].
    destruct (Qlt_bool (value first) changeChance); [|now apply (Hcomplete ds1)].
    apply bind_Normal in H. destruct H as [ratio [ds2 [_ H]]].
    destruct (number_gt ratio maxFailRatio).
    + apply bind_Normal in H. destruct H as [res [ds3 [Hres H]]].
      destruct (negb (success res)); [eapply Hregen; eassumption|].
      refine (Hnearest (ruleset res) _ _ st _ _ _ _ _ H).
      eapply makeEasierRuleset_known; eassumption.
    + destruct (number_lt ratio minFailRatio); [|now apply (Hcomplete ds2)].
      apply bind_Normal in H. destruct H as [res [ds3 [Hres H]]].
      destruct (negb (success res)); [eapply Hregen; eassumption|].
      refine (Hnearest (ruleset res) _ _ st _ _ _ _ _ H).
      eapply makeHarderRuleset_known; eassumption.
Qed.

End NoThrow.

(** X10. In every state the engine reaches, the active ruleset is a
    duplicate-free set of catalog ids, so its difficulty is defined, and
    with a catalog that is not empty [evaluateChange] never throws there,
    whatever the time and the draws are; neither does [initializeRules]. *)
Theorem the_controller_never_throws (rules : list Rule) {engine : ArraySort}
    (st : EngineState) :
  rules <> [] ->
  reachable rules st ->
  NoDup (activeRules st) /\
  (forall x, In x (activeRules st) -> In x (map id rules)) /\
  (exists d, calculateDifficulty rules (activeRules st) = Normal d) /\
  (forall now updatedAt draws, evaluateChange rules now updatedAt st draws <> Throw) /\
  (forall updatedAt st0 draws, initializeRules rules updatedAt st0 draws <> Throw).
Proof.
  intros Hrules R. destruct (reachable_known rules st R) as [Hk Hnd].
  split; [assumption|]. split; [assumption|].
  split; [eexists; now apply calculateDifficulty_known|].
  split.
  - intros now updatedAt draws. now apply evaluateChange_no_Throw.
  - intros updatedAt st0 draws. unfold initializeRules.
    apply bind_no_Throw; [apply randomValidRulesetRetry_no_Throw|].
    intros r ds _. destruct (updateRules _ _ _ _). discriminate.
Qed.

Lemma the_controller_never_throws_witness :
  evaluateChange (engine := V8_engine) Chameleon.rules minimumTimeBetweenChanges 0
    (mkState ["unique-messages"; "all-lowercase"] [] 0) [] <> Throw.
Proof.
  apply (the_controller_never_throws Chameleon.rules (engine := V8_engine)
           (mkState ["unique-messages"; "all-lowercase"] [] 0)).
  - vm_compute. discriminate.
  - apply (reach_initialize Chameleon.rules 7 0 [pick3; pick0]
             (mkState ["unique-messages"; "all-lowercase"] [] 0)
             (Some (mkEvent "An initial ruleset has been created."
                      ["unique-messages"; "all-lowercase"])) []).
    vm_compute. reflexivity.
Defined.

(** ** What a change announces *)

(** A successful [makeEasierRuleset] or [makeHarderRuleset] returns one of
    the results of [mutateRuleset]. *)
Lemma makeEasierRuleset_success (rules : list Rule) {engine : ArraySort}
    (s : StringSet) draws res draws' :
  makeEasierRuleset rules s draws = Normal (res, draws') -> success res = true ->
  exists ds ds', mutateRuleset rules s mutationAmount ds = Normal (ruleset res, ds').
Proof.
  intros H S. unfold makeEasierRuleset in H.
  apply bind_Normal in H. destruct H as [candidates [ds1 [Hc H]]].
  apply bind_Normal in H. destruct H as [filtered [ds2 [Hf H]]].
  apply (Array_from_Forall
           (fun r => exists ds ds', mutateRuleset rules s mutationAmount ds
                                    = Normal (r, ds'))) in Hc;
    [|intros ds cand ds' Hm; now exists ds, ds'].
  destruct Hc as [Hall _]. apply lift_Normal in Hf. destruct Hf as [Hf _].
  destruct (Array_pop _) as [closest|] eqn:P;
    apply ret_Normal in H; destruct H as [-> _]; simpl in *; [|discriminate].
  apply Array_pop_In in P.
  apply (Permutation_in _ (Array_sort_permutation _ _ _)) in P.
  destruct (Array_filter_In _ _ _ Hf _ P) as [Hin _].
  rewrite Forall_forall in Hall. now apply Hall.
Qed.

Lemma makeHarderRuleset_success (rules : list Rule) {engine : ArraySort}
    (s : StringSet) draws res draws' :
  makeHarderRuleset rules s draws = Normal (res, draws') -> success res = true ->
  exists ds ds', mutateRuleset rules s mutationAmount ds = Normal (ruleset res, ds').
Proof.
  intros H S. unfold makeHarderRuleset in H.
  apply bind_Normal in H. destruct H as [candidates [ds1 [Hc H]]].
  apply bind_Normal in H. destruct H as [filtered [ds2 [Hf H]]].
  apply (Array_from_Forall
           (fun r => exists ds ds', mutateRuleset rules s mutationAmount ds
                                    = Normal (r, ds'))) in Hc;
    [|intros ds cand ds' Hm; now exists ds, ds'].
  destruct Hc as [Hall _]. apply lift_Normal in Hf. destruct Hf as [Hf _].
  destruct (Array_pop _) as [closest|] eqn:P;
    apply ret_Normal in H; destruct H as [-> _]; simpl in *; [|discriminate].
  apply Array_pop_In in P.
  apply (Permutation_in _ (Array_sort_permutation _ _ _)) in P.
  destruct (Array_filter_In _ _ _ Hf _ P) as [Hin _].
  rewrite Forall_forall in Hall. now apply Hall.
Qed.

(** X11. A change that [evaluateChange] announces as "made easier" happens
    only with a fail ratio above [maxFailRatio] and installs a ruleset of
    strictly lower difficulty than the one it replaces; one announced as
    "made harder" happens only with a fail ratio below [minFailRatio] and
    installs a ruleset of strictly higher difficulty. *)
Theorem announced_changes_go_the_announced_way (rules : list Rule) {engine : ArraySort}
    (now updatedAt : Z) (st st' : EngineState) (event : ChangeEvent)
    (draws draws' : list Draw) :
  evaluateChange rules now updatedAt st draws = Normal ((st', Some event), draws') ->
  (reason event = madeEasier ->
   number_gt (getFailRatio st) maxFailRatio = true /\
   exists d d', calculateDifficulty rules (activeRules st) = Normal d /\
                calculateDifficulty rules (activeRules st') = Normal d' /\ (d' < d)%Z) /\
  (reason event = madeHarder ->
   number_lt (getFailRatio st) minFailRatio = true /\
   exists d d', calculateDifficulty rules (activeRules st) = Normal d /\
                calculateDifficulty rules (activeRules st') = Normal d' /\ (d < d')%Z).
Proof.
  intros H. unfold evaluateChange, evaluateChangeWith in H. cbv zeta in H.
  assert (Hregen : forall given ds,
            given <> madeEasier -> given <> madeHarder ->
            regenerate rules given updatedAt st ds = Normal ((st', Some event), draws') ->
            reason event <> madeEasier /\ reason event <> madeHarder).
  { intros given ds He Hh Hr. apply regenerate_announces in Hr.
    destruct Hr as [installed [Hev _]]. inversion Hev; subst. simpl. now split. }
  assert (Hother : reason event <> madeEasier /\ reason event <> madeHarder ->
    (reason event = madeEasier ->
     number_gt (getFailRatio st) maxFailRatio = true /\
     exists d d', calculateDifficulty rules (activeRules st) = Normal d /\
                  calculateDifficulty rules (activeRules st') = Normal d' /\ (d' < d)%Z) /\
    (reason event = madeHarder ->
     number_lt (getFailRatio st) minFailRatio = true /\
     exists d d', calculateDifficulty rules (activeRules st) = Normal d /\
                  calculateDifficulty rules (activeRules st') = Normal d' /\ (d < d')%Z))
    by (intros [He Hh]; split; intros E; contradiction).
  assert (Hcomplete : forall ds,
    ((r <- Math_random ;;
      if Qlt_bool (value r) completeChangeChance
      then regenerate rules "The ruleset has been changed entirely by chance." updatedAt st
      else ret (st, None))%rand) ds = Normal ((st', Some event), draws') ->
    reason event <> madeEasier /\ reason event <> madeHarder).
  { intros ds Hc. apply bind_Normal in Hc. destruct Hc as [r [ds1 [_ Hc]]].
    destruct (Qlt_bool _ _); [|discriminate].
    eapply Hregen; [| |exact Hc]; discriminate. }
  destruct (_ <? minimumTimeBetweenChanges)%Z; [discriminate|].
  destruct (_ >? maximumTimeBetweenChanges)%Z.
  { apply Hother. eapply Hregen; [| |exact H]; discriminate. }
  destruct (_ <? minimumSampleSize); [discriminate|].
  destruct (maximumMessagesUntilChange <? _).
  { apply Hother. eapply Hregen; [| |exact H]; discriminate. }
  apply bind_Normal in H. destruct H as [first [ds1 [_ H]]].
  destruct (Qlt_bool (value first) changeChance);
    [|apply Hother; now apply (Hcomplete ds1)].
  apply bind_Normal in H. destruct H as [ratio [ds2 [Hratio H]]].
  apply lift_Normal in Hratio. destruct Hratio as [Hratio _].
  inversion Hratio; subst ratio; clear Hratio.
  destruct (number_gt (getFailRatio st) maxFailRatio) eqn:Hgt.
  - apply bind_Normal in H. destruct H as [res [ds3 [Hres H]]].
    destruct (success res) eqn:S; cbn [negb] in H.
    + rewrite updateRules_installs in H. apply ret_Normal in H.
      destruct H as [H _]. inversion H; subst; clear H. cbn [reason activeRules].
      split; [|discriminate]. intros _. split; [reflexivity|].
      destruct (makeEasierRuleset_success _ _ _ _ _ Hres S) as [ds [ds' Hm]].
      apply mutateRuleset_returns in Hm. destruct Hm as [Hnd _].
      rewrite (new_Set_NoDup _ Hnd).
      destruct (makeEasierRuleset_returns _ _ _ _ _ Hres) as [[E _]|[_ [_ Hd]]];
        [congruence | exact Hd].
    + apply Hother. eapply Hregen; [| |exact H]; discriminate.
  - destruct (number_lt (getFailRatio st) minFailRatio) eqn:Hlt;
      [|apply Hother; now apply (Hcomplete ds2)].
    apply bind_Normal in H. destruct H as [res [ds3 [Hres H]]].
    destruct (success res) eqn:S; cbn [negb] in H.
    + rewrite updateRules_installs in H. apply ret_Normal in H.
      destruct H as [H _]. inversion H; subst; clear H. cbn [reason activeRules].
      split; [discriminate|]. intros _. split; [reflexivity|].
      destruct (makeHarderRuleset_success _ _ _ _ _ Hres S) as [ds [ds' Hm]].
      apply mutateRuleset_returns in Hm. destruct Hm as [Hnd _].
      rewrite (new_Set_NoDup _ Hnd).
      destruct (makeHarderRuleset_returns _ _ _ _ _ Hres) as [[E _]|[_ [_ Hd]]];
        [congruence | exact Hd].
    + apply Hother. eapply Hregen; [| |exact H]; discriminate.
Qed.

Lemma announced_changes_go_the_announced_way_witness :
  number_gt (getFailRatio (mkState exampleRuleset (allFailed 10) 0)) maxFailRatio = true /\
  exists d d',
    calculateDifficulty Chameleon.rules
      (activeRules (mkState exampleRuleset (allFailed 10) 0)) = Normal d /\
    calculateDifficulty Chameleon.rules
      (activeRules (mkState ["all-lowercase"] [] 9)) = Normal d' /\ (d' < d)%Z.
Proof.
  apply (proj1 (announced_changes_go_the_announced_way Chameleon.rules
                  (engine := V8_engine) minimumTimeBetweenChanges 9
                  (mkState exampleRuleset (allFailed 10) 0)
                  (mkState ["all-lowercase"] [] 9)
                  (mkEvent madeEasier ["all-lowercase"])
                  (lowDraw :: easierDraws) []
                  ltac:(vm_compute; reflexivity))).
  reflexivity.
Defined.

(** ** The fail ratio *)

Lemma Zpos_of_nat_S (n : nat) : Zpos (Pos.of_nat (S n)) = Z.of_nat (S n).
Proof. now rewrite <- Pos.of_nat_succ, Zpos_P_of_succ_nat, Nat2Z.inj_succ. Qed.

Lemma divide_fraction (k n : nat) :
  k <= S n ->
  exists q, divide k (S n) = Num q /\ (0 <= q)%Q /\ (q <= 1)%Q /\
            (k = 0 <-> (q == 0)%Q) /\ (k = S n <-> (q == 1)%Q).
Proof.
  intros H. exists (Z.of_nat k # Pos.of_nat (S n)). split; [reflexivity|].
  unfold Qle, Qeq. cbn [Qnum Qden]. rewrite Zpos_of_nat_S.
  rewrite !Z.mul_1_r, !Z.mul_1_l, Z.mul_0_l.
  split; [lia|]. split; [lia|]. split; split; intros E; lia.
Qed.

(** X12. [getFailRatio] is [NaN] exactly on the empty history and never
    [Infinity]; on a history with records it is a number between 0 and 1,
    which is 0 exactly when no recorded message violated a rule and 1
    exactly when every recorded message did. *)
Theorem the_fail_ratio_is_a_fraction (st : EngineState) :
  let history := violationHistoryForThisRuleset st in
  (getFailRatio st = NaN <-> history = []) /\
  getFailRatio st <> Infinity /\
  (history <> [] ->
   exists q, getFailRatio st = Num q /\ (0 <= q)%Q /\ (q <= 1)%Q /\
             (forallb (fun record => negb (violating record)) history = true
              <-> (q == 0)%Q) /\
             (forallb violating history = true <-> (q == 1)%Q)).
Proof.
  intros history. unfold getFailRatio. fold history. fold violating.
  assert (Hle : forall h, List.length (filter violating h) <= List.length h)
    by (intros h; apply filter_length_le).
  assert (Hnone : forall h, forallb (fun record => negb (violating record)) h = true
                            <-> List.length (filter violating h) = 0).
  { induction h as [|r h IH]; simpl; [tauto|].
    destruct (violating r); simpl; [split; [discriminate | lia] | exact IH]. }
  assert (Hall : forall h, forallb violating h = true
                           <-> List.length (filter violating h) = List.length h).
  { induction h as [|r h IH]; simpl; [tauto|].
    destruct (violating r); simpl.
    - rewrite IH. lia.
    - specialize (Hle h). split; [discriminate | lia]. }
  destruct history as [|r h] eqn:E.
  - simpl. split; [tauto|]. split; [discriminate | congruence].
  - destruct (divide_fraction (List.length (filter violating (r :: h))) (List.length h)
                (Hle (r :: h))) as [q [Hq [H0 [H1 [Hz Ho]]]]].
    change (List.length (r :: h)) with (S (List.length h)).
    rewrite Hq. split; [split; discriminate|]. split; [discriminate|].
    intros _. exists q. split; [reflexivity|]. split; [assumption|].
    split; [assumption|]. rewrite Hnone, Hall. split; assumption.
Qed.

Lemma the_fail_ratio_is_a_fraction_witness :
  exists q, getFailRatio (mkState exampleRuleset (allFailed 10) 0) = Num q /\
            (0 <= q)%Q /\ (q <= 1)%Q /\
            (forallb (fun record => negb (violating record)) (allFailed 10) = true
             <-> (q == 0)%Q) /\
            (forallb violating (allFailed 10) = true <-> (q == 1)%Q).
Proof.
  apply (proj2 (proj2 (the_fail_ratio_is_a_fraction
                         (mkState exampleRuleset (allFailed 10) 0)))).
  discriminate.
Defined.

(** X13. Recording a message moves the fail ratio the right way: after a
    message without violations it is not higher than before, after a
    message with violations it is not lower; and the first recorded message
    makes it 0 or 1. *)
Theorem recording_moves_the_fail_ratio (found : list Rule) (st : EngineState) :
  (violationHistoryForThisRuleset st = [] ->
   getFailRatio (addToViolationHistory found st) =
   Num (if 0 <? List.length found then 1 # 1 else 0 # 1)) /\
  (violationHistoryForThisRuleset st <> [] ->
   exists before after,
     getFailRatio st = Num before /\
     getFailRatio (addToViolationHistory found st) = Num after /\
     (found = [] -> (after <= before)%Q) /\
     (found <> [] -> (before <= after)%Q)).
Proof.
  unfold getFailRatio, addToViolationHistory.
  cbn [violationHistoryForThisRuleset]. fold violating.
  set (history := violationHistoryForThisRuleset st).
  split.
  - intros ->. cbn [app filter List.length]. unfold violating.
    cbn [violations]. destruct (0 <? List.length found); reflexivity.
  - intros Hne. rewrite filter_app, !length_app.
    cbn [filter List.length]. unfold violating at 2. cbn [violations].
    pose proof (filter_length_le violating history) as Hle.
    set (k := List.length (filter violating history)) in *.
    destruct history as [|r h]; [congruence|].
    cbn [List.length] in *. set (n := List.length h) in *.
    replace (S n + 1) with (S (S n)) by lia.
    exists (Z.of_nat k # Pos.of_nat (S n)).
    exists (Z.of_nat (k + List.length (if 0 <? List.length found
                                       then [mkRecord found] else []))
            # Pos.of_nat (S (S n))).
    split; [reflexivity|]. split; [reflexivity|].
    unfold Qle. cbn [Qnum Qden]. rewrite !Zpos_of_nat_S.
    split.
    + intros ->. cbn [List.length Nat.ltb Nat.leb]. nia.
    + intros Hf. destruct found as [|x found]; [congruence|].
      cbn [List.length Nat.ltb Nat.leb]. nia.
Qed.

Lemma recording_moves_the_fail_ratio_witness :
  exists before after,
    getFailRatio (mkState exampleRuleset (allFailed 10) 0) = Num before /\
    getFailRatio (addToViolationHistory []
                    (mkState exampleRuleset (allFailed 10) 0)) = Num after /\
    (@nil Rule = [] -> (after <= before)%Q) /\
    (@nil Rule <> [] -> (before <= after)%Q).
Proof.
  apply (proj2 (recording_moves_the_fail_ratio []
                  (mkState exampleRuleset (allFailed 10) 0))).
  discriminate.
Defined.

(** ** The difficulty of a ruleset *)

Lemma Zsum_Permutation (ws ws' : list Z) :
  Permutation ws ws' -> Zsum ws = Zsum ws'.
Proof.
  induction 1; unfold Zsum in *; cbn [fold_right]; lia.
Qed.

Lemma calculateDifficulty_cases (rules : list Rule) (s : StringSet) :
  (calculateDifficulty rules s = Normal (Zsum (map (weightOf rules) s)) /\
   forall x, In x s -> In x (map id rules)) \/
  (calculateDifficulty rules s = Throw /\
   exists x, In x s /\ ~ In x (map id rules)).
Proof.
  assert (H : (forall x, In x s -> In x (map id rules)) \/
              (exists x, In x s /\ ~ In x (map id rules) /\
                         calculateDifficulty rules s = Throw)).
  { unfold calculateDifficulty. induction s as [|x s IH].
    - left. intros x [].
    - destruct (findRule rules x) as [rule|] eqn:Hr.
      + destruct IH as [IH | [y [Hy [Hun E]]]].
        * left. intros y [<-|Hy]; [|now apply IH].
          apply findRule_Some in Hr. destruct Hr as [Hin <-]. now apply in_map.
        * right. exists y. split; [now right|]. split; [assumption|].
          cbn [Array_map]. rewrite Hr. cbn [cbind].
          destruct (Array_map _ s); cbn [cbind] in *; congruence.
      + right. exists x. split; [now left|].
        split; [now apply findRule_None|].
        cbn [Array_map]. rewrite Hr. reflexivity. }
  destruct H as [H | [x [Hx [Hun E]]]].
  - left. split; [now apply calculateDifficulty_known | assumption].
  - right. split; [assumption | now exists x].
Qed.

(** X14. [calculateDifficulty] always completes: it throws exactly when the
    ruleset holds an id that is not in the catalog, and otherwise returns a
    number. Its result depends only on which ids are in the set, not on the
    order in which they were inserted. *)
Theorem difficulty_throws_exactly_on_unknown_ids (rules : list Rule) (s : StringSet) :
  (calculateDifficulty rules s = Throw <->
   exists x, In x s /\ ~ In x (map id rules)) /\
  ((exists d, calculateDifficulty rules s = Normal d) <->
   forall x, In x s -> In x (map id rules)) /\
  calculateDifficulty rules s <> Pending /\
  (forall t, NoDup s -> NoDup t -> sameMembers s t ->
     calculateDifficulty rules s = calculateDifficulty rules t).
Proof.
  assert (Hthrow : forall u, calculateDifficulty rules u = Throw <->
                             exists x, In x u /\ ~ In x (map id rules)).
  { intros u. destruct (calculateDifficulty_cases rules u) as [[E Hk] | [E Hun]].
    - rewrite E. split; [discriminate|]. intros [x [Hx Hn]]. now apply Hk in Hx.
    - rewrite E. tauto. }
  split; [apply Hthrow|]. split; [|split].
  - destruct (calculateDifficulty_cases rules s) as [[E Hk] | [E [x [Hx Hn]]]].
    + rewrite E. split; [intros _; assumption | intros _; now eexists].
    + rewrite E. split; [intros [d Hd]; discriminate|].
      intros Hk. now apply Hk in Hx.
  - destruct (calculateDifficulty_cases rules s) as [[E _] | [E _]];
      rewrite E; discriminate.
  - intros t Hs Ht Hsame.
    assert (Hmem : forall x, In x s <-> In x t).
    { intros x. rewrite <- !Set_has_In. now rewrite (Hsame x). }
    destruct (calculateDifficulty_cases rules s) as [[E Hk] | [E [x [Hx Hn]]]].
    + rewrite E, (calculateDifficulty_known rules t)
        by (intros x Hx; apply Hk; now apply Hmem).
      f_equal. apply Zsum_Permutation, Permutation_map.
      now apply NoDup_Permutation.
    + rewrite E. symmetry. apply Hthrow. exists x. split; [now apply Hmem | assumption].
Qed.

Lemma difficulty_throws_exactly_on_unknown_ids_witness :
  calculateDifficulty Chameleon.rules ["all-lowercase"; "unique-messages"] =
  calculateDifficulty Chameleon.rules ["unique-messages"; "all-lowercase"].
Proof.
  apply (proj2 (proj2 (proj2 (difficulty_throws_exactly_on_unknown_ids
                                Chameleon.rules ["all-lowercase"; "unique-messages"])))).
  - repeat constructor; simpl; intuition discriminate.
  - repeat constructor; simpl; intuition discriminate.
  - intros x. unfold Set_has. simpl. rewrite !orb_false_r. apply orb_comm.
Defined.

(** ** The evaluation of a message *)

Lemma launchChecks_prefix (check : Rule -> string -> CheckResult) (message : string)
    (active : list Rule) :
  exists rest, active = fst (launchChecks check message active) ++ rest.
Proof.
  induction active as [|rule rest IH]; [now exists []|].
  cbn [launchChecks]. destruct IH as [rest' IH].
  destruct (launchChecks check message rest) as [called promises].
  cbn [fst] in IH.
  destruct (check rule message); cbn [fst app];
    solve [ exists rest; reflexivity | exists rest'; now rewrite <- IH ].
Qed.

Lemma launchChecks_throw (check : Rule -> string -> CheckResult) (message : string)
    (before : list Rule) (thrower : Rule) (after : list Rule) (e : string) :
  (forall rule e', In rule before -> check rule message <> Threw e') ->
  check thrower message = Threw e ->
  launchChecks check message (before ++ thrower :: after) = (before ++ [thrower], inl e).
Proof.
  intros Hquiet Hthrow. induction before as [|rule before IH].
  - cbn [app launchChecks]. now rewrite Hthrow.
  - cbn [app launchChecks].
    rewrite IH by (intros r e' Hr; apply Hquiet; now right).
    assert (H := Hquiet rule).
    destruct (check rule message) as [b|e'|t b|t e'];
      try reflexivity.
    exfalso. apply (H e'); [now left | reflexivity].
Qed.

Lemma launchChecks_quiet (check : Rule -> string -> CheckResult) (message : string)
    (active : list Rule) :
  (forall rule e, In rule active -> check rule message <> Threw e) ->
  launchChecks check message active =
  (active, inr (map (fun rule => violationPromise rule (check rule message)) active)).
Proof.
  intros Hquiet. induction active as [|rule rest IH]; [reflexivity|].
  cbn [launchChecks map].
  rewrite IH by (intros r e Hr; apply Hquiet; now right).
  assert (H := Hquiet rule).
  destruct (check rule message) as [b|e'|t b|t e']; try reflexivity.
  exfalso. apply (H e'); [now left | reflexivity].
Qed.

Lemma firstRejection_earliest {A} (promises : list (Promise A)) (t : nat) (e : string) :
  firstRejection promises = Some (t, e) ->
  (exists p, In p promises /\ state p = RejectedWith e /\ settlesAfter p = t) /\
  (forall q e', In q promises -> state q = RejectedWith e' -> t <= settlesAfter q).
Proof.
  revert t e. induction promises as [|p rest IH]; intros t e H;
    cbn [firstRejection] in H; [discriminate|].
  destruct (state p) as [v|e0] eqn:S.
  - destruct (IH _ _ H) as [[q [Hin [Hq Ht]]] Hmin]. split.
    + exists q. split; [now right | now split].
    + intros q' e' [<-|Hq'] Hs; [congruence | now apply (Hmin q' e')].
  - destruct (firstRejection rest) as [[t' e']|] eqn:Hrest.
    + destruct (IH _ _ eq_refl) as [[q [Hin [Hq Ht]]] Hmin].
      destruct (settlesAfter p <=? t') eqn:Hle; inversion H; subst; clear H.
      * apply Nat.leb_le in Hle. split.
        -- exists p. split; [now left | now split].
        -- intros q' e'' [<-|Hq'] Hs; [lia|].
           specialize (Hmin q' e'' Hq' Hs). lia.
      * apply Nat.leb_gt in Hle. split.
        -- exists q. split; [now right | now split].
        -- intros q' e'' [<-|Hq'] Hs; [lia | now apply (Hmin q' e'')].
    + inversion H; subst; clear H. split.
      * exists p. split; [now left | now split].
      * intros q' e'' [<-|Hq'] Hs; [lia|].
        exfalso. revert Hs. now apply (firstRejection_None rest Hrest).
Qed.

Lemma firstRejection_rejected {A} (promises : list (Promise A)) (p : Promise A)
    (e : string) :
  In p promises -> state p = RejectedWith e -> firstRejection promises <> None.
Proof.
  intros Hin Hs Hnone. exact (firstRejection_None promises Hnone p e Hin Hs).
Qed.

(** X15. [getViolations] calls the checks in catalog order and stops at the
    first one that throws: the checks called are a prefix of the active
    rules, ending with the rule that threw, and the call fails with that
    rule's error, whatever the earlier checks returned or will reject
    with. *)
Theorem a_throwing_check_ends_the_evaluation (rules : list Rule)
    (check : Rule -> string -> CheckResult) (activeRules : StringSet) (message : string) :
  let active := filter (fun rule => Set_has activeRules (id rule)) rules in
  let evaluation := getViolations rules check activeRules message in
  (exists rest, active = checksCalled evaluation ++ rest) /\
  (forall before thrower after e,
     active = before ++ thrower :: after ->
     (forall rule e', In rule before -> check rule message <> Threw e') ->
     check thrower message = Threw e ->
     checksCalled evaluation = before ++ [thrower] /\
     outcome evaluation = RejectedWith e).
Proof.
  intros active evaluation. subst evaluation. unfold getViolations. fold active.
  split.
  - destruct (launchChecks_prefix check message active) as [rest H].
    exists rest. destruct (launchChecks check message active) as [called promises].
    exact H.
  - intros before thrower after e Hactive Hquiet Hthrow.
    rewrite Hactive, (launchChecks_throw check message before thrower after e Hquiet Hthrow).
    split; reflexivity.
Qed.

Lemma a_throwing_check_ends_the_evaluation_witness :
  checksCalled (getViolations Chameleon.rules searchThrows exampleRuleset "Hello")
    = exampleActive /\
  outcome (getViolations Chameleon.rules searchThrows exampleRuleset "Hello")
    = RejectedWith "search unavailable".
Proof.
  apply (proj2 (a_throwing_check_ends_the_evaluation Chameleon.rules searchThrows
                  exampleRuleset "Hello")
           (firstn 1 exampleActive) (hd noRule (skipn 1 exampleActive)) []
           "search unavailable").
  - vm_compute. reflexivity.
  - intros rule e' Hin. vm_compute in Hin. destruct Hin as [<-|[]].
    vm_compute. discriminate.
  - vm_compute. reflexivity.
Defined.

(** X16. When no check throws and one check's promise rejects strictly
    before every other rejection, [getViolations] fails with the error of
    that check. *)
Theorem the_earliest_rejection_wins (rules : list Rule)
    (check : Rule -> string -> CheckResult) (activeRules : StringSet) (message : string)
    (before : list Rule) (failing : Rule) (after : list Rule) (t : nat) (e : string) :
  let active := filter (fun rule => Set_has activeRules (id rule)) rules in
  active = before ++ failing :: after ->
  (forall rule e', In rule active -> check rule message <> Threw e') ->
  check failing message = Rejected t e ->
  (forall rule t' e', In rule before \/ In rule after ->
     check rule message = Rejected t' e' -> t < t') ->
  outcome (getViolations rules check activeRules message) = RejectedWith e.
Proof.
  intros active Hactive Hquiet Hfail Hfirst.
  unfold getViolations. fold active.
  rewrite (launchChecks_quiet check message active Hquiet).
  cbn [outcome]. unfold Promise_all.
  set (promiseOf := fun rule => violationPromise rule (check rule message)).
  assert (Hin : In failing active) by (rewrite Hactive; apply in_elt).
  assert (Hp : state (promiseOf failing) = RejectedWith e /\
               settlesAfter (promiseOf failing) = t)
    by (unfold promiseOf; rewrite Hfail; now split).
  destruct Hp as [Hstate Htime].
  destruct (firstRejection (map promiseOf active)) as [[t' e']|] eqn:Hrej.
  - apply firstRejection_earliest in Hrej.
    destruct Hrej as [[p [Hpin [Hps Hpt]]] Hmin].
    specialize (Hmin (promiseOf failing) e (in_map promiseOf _ _ Hin) Hstate).
    apply in_map_iff in Hpin. destruct Hpin as [rule [<- Hrule]].
    rewrite Hactive in Hrule. apply in_app_or in Hrule.
    assert (Hother : In rule before \/ In rule after -> False).
    { intros Hr. assert (Hk : In rule active)
        by (rewrite Hactive; apply in_or_app; destruct Hr; [now left | right; now right]).
      specialize (Hquiet rule). specialize (Hfirst rule).
      unfold promiseOf in Hps, Hpt.
      destruct (check rule message) as [b|e0|t0 b|t0 e0]; cbn in Hps, Hpt;
        try discriminate.
      - now apply (Hquiet e0).
      - specialize (Hfirst t0 e0 Hr eq_refl). lia. }
    destruct Hrule as [Hr | [<- | Hr]]; [tauto | | tauto].
    rewrite Hstate in Hps. now inversion Hps.
  - exfalso.
    exact (firstRejection_rejected _ _ e (in_map promiseOf _ _ Hin) Hstate Hrej).
Qed.

Lemma the_earliest_rejection_wins_witness :
  outcome (getViolations Chameleon.rules searchFails exampleRuleset "Hello")
    = RejectedWith "search failed".
Proof.
  apply (the_earliest_rejection_wins Chameleon.rules searchFails exampleRuleset "Hello"
           (firstn 1 exampleActive) (hd noRule (skipn 1 exampleActive)) [] 1
           "search failed").
  - vm_compute. reflexivity.
  - intros rule e' Hin. vm_compute in Hin. destruct Hin as [<-|[<-|[]]];
      vm_compute; discriminate.
  - vm_compute. reflexivity.
  - intros rule t' e' Hin. vm_compute in Hin. destruct Hin as [[<-|[]]|[]].
    vm_compute. discriminate.
Defined.

(** ** The toggles of [mutateRuleset] *)

Lemma toggleUntilValid_step (rules : list Rule) (oldRuleset : StringSet)
    (draws : list Draw) r draws' :
  toggleUntilValid rules oldRuleset draws = Normal (r, draws') ->
  (exists used, draws = used ++ draws' /\ 1 <= List.length used) /\
  (exists rule, In rule rules /\ r = toggled (id rule) (new_Set oldRuleset)).
Proof.
  induction draws as [|d draws IH]; cbn [toggleUntilValid]; [discriminate|].
  destruct (nth_error rules (randomIndex d (List.length rules))) as [rule|] eqn:E;
    [|discriminate].
  fold (toggled (id rule) (new_Set oldRuleset)).
  destruct (isValidRuleset rules (toggled (id rule) (new_Set oldRuleset))).
  - intros H. inversion H; subst; clear H. split.
    + exists [d]. split; [reflexivity | simpl; lia].
    + exists rule. split; [now apply nth_error_In in E | reflexivity].
  - intros H. destruct (IH H) as [[used [-> Hused]] Hrule]. split; [|assumption].
    exists (d :: used). split; [reflexivity | simpl; lia].
Qed.

Lemma toggled_members (x : string) (s : StringSet) (y : string) :
  In y (toggled x s) -> In y s \/ y = x.
Proof.
  unfold toggled. rewrite <- !Set_has_In.
  destruct (Set_has s x).
  - rewrite Set_has_delete. intros H. apply andb_true_iff in H. now left.
  - rewrite Set_has_add. intros H. apply orb_true_iff in H.
    destruct H as [H|H]; [right; now apply String.eqb_eq | now left].
Qed.

Lemma toggled_size (x : string) (s : StringSet) :
  NoDup s ->
  Set_size (toggled x s) <= Set_size s + 1 /\ Set_size s <= Set_size (toggled x s) + 1.
Proof.
  intros Hs. unfold toggled. destruct (Set_has s x) eqn:E.
  - pose proof (Set_size_delete x s Hs E). lia.
  - pose proof (Set_size_add x s E). lia.
Qed.

Lemma mutateLoop_bookkeeping (rules : list Rule) (amount : nat) (s : StringSet)
    draws r draws' :
  NoDup s ->
  mutateLoop rules amount s draws = Normal (r, draws') ->
  (exists used, draws = used ++ draws' /\ amount <= List.length used) /\
  (forall x, In x r -> In x s \/ In x (map id rules)) /\
  Set_size r <= Set_size s + amount /\ Set_size s <= Set_size r + amount.
Proof.
  revert s draws. induction amount as [|n IH]; intros s draws Hs H;
    cbn [mutateLoop] in H.
  - apply ret_Normal in H. destruct H as [-> ->].
    split; [exists []; split; [reflexivity | simpl; lia]|].
    split; [intros x Hx; now left | lia].
  - apply bind_Normal in H. destruct H as [s' [draws1 [Hstep H]]].
    apply toggleUntilValid_step in Hstep.
    destruct Hstep as [[used [-> Hused]] [rule [Hrule ->]]].
    rewrite !(new_Set_NoDup s Hs) in *.
    destruct (IH _ _ (NoDup_toggled (id rule) s Hs) H)
      as [[used' [-> Hused']] [Hmem [Hup Hdown]]].
    destruct (toggled_size (id rule) s Hs) as [Hup1 Hdown1].
    split; [|split; [|lia]].
    + exists (used ++ used'). split; [now rewrite app_assoc|].
      rewrite length_app. lia.
    + intros x Hx. destruct (Hmem x Hx) as [Hin|Hin]; [|now right].
      apply toggled_members in Hin. destruct Hin as [Hin | ->]; [now left|].
      right. now apply in_map.
Qed.

(** X17. A call of [mutateRuleset] that returns has asked [Math.random]
    at least once per toggle and for nothing else; its result holds only ids
    of its argument or of the catalog, and its size differs from the
    argument's by at most the number of toggles. With no toggles it returns
    a copy of its argument and asks for no random number. *)
Theorem mutateRuleset_draws_once_per_toggle (rules : list Rule)
    (currentRuleset : StringSet) (amount : nat) draws r draws' :
  mutateRuleset rules currentRuleset amount draws = Normal (r, draws') ->
  (exists used, draws = used ++ draws' /\ amount <= List.length used) /\
  (forall x, In x r -> In x currentRuleset \/ In x (map id rules)) /\
  Set_size r <= Set_size (new_Set currentRuleset) + amount /\
  Set_size (new_Set currentRuleset) <= Set_size r + amount /\
  (amount = 0 -> r = new_Set currentRuleset /\ draws' = draws).
Proof.
  unfold mutateRuleset. intros H.
  destruct (mutateLoop_bookkeeping rules amount _ _ _ _
              (NoDup_new_Set currentRuleset) H) as [Hused [Hmem [Hup Hdown]]].
  split; [assumption|]. split; [|split; [assumption|split; [assumption|]]].
  - intros x Hx. destruct (Hmem x Hx) as [Hin|Hin]; [left | now right].
    apply Set_has_In. rewrite <- (Set_has_new_Set currentRuleset x).
    now apply Set_has_In.
  - intros ->. cbn [mutateLoop] in H. apply ret_Normal in H. exact H.
Qed.

Lemma mutateRuleset_draws_once_per_toggle_witness :
  (exists used, [pick8; pick8; pick0] = used ++ [] /\ mutationAmount <= List.length used) /\
  (forall x, In x ["unique-messages"] ->
     In x ["all-lowercase"; "unique-messages"] \/ In x (map id Chameleon.rules)) /\
  Set_size ["unique-messages"]
    <= Set_size (new_Set ["all-lowercase"; "unique-messages"]) + mutationAmount /\
  Set_size (new_Set ["all-lowercase"; "unique-messages"])
    <= Set_size ["unique-messages"] + mutationAmount /\
  (mutationAmount = 0 ->
   ["unique-messages"] = new_Set ["all-lowercase"; "unique-messages"] /\
   @nil Draw = [pick8; pick8; pick0]).
Proof.
  apply (mutateRuleset_draws_once_per_toggle Chameleon.rules
           ["all-lowercase"; "unique-messages"] mutationAmount
           [pick8; pick8; pick0] ["unique-messages"] []).
  vm_compute. reflexivity.
Defined.

Lemma toggleUntilValid_stuck (rules : list Rule) (oldRuleset : StringSet) :
  rules <> [] ->
  (forall rule, In rule rules ->
     isValidRuleset rules (toggled (id rule) (new_Set oldRuleset)) = false) ->
  forall draws, toggleUntilValid rules oldRuleset draws = Pending.
Proof.
  intros Hne Hstuck. induction draws as [|d draws IH]; cbn [toggleUntilValid];
    [reflexivity|].
  destruct (nth_error rules (randomIndex d (List.length rules))) as [rule|] eqn:E.
  - fold (toggled (id rule) (new_Set oldRuleset)).
    rewrite (Hstuck rule (nth_error_In _ _ E)). exact IH.
  - exfalso. apply nth_error_None in E.
    assert (L := randomIndex_lt d (List.length rules)).
    destruct rules; [congruence | simpl in *; lia].
Qed.

(** X18. The [do ... while] loop of [mutateRuleset] has no exit but a valid
    toggle: when the catalog is not empty and toggling any one catalog rule
    in the ruleset gives an invalid ruleset, a call with at least one
    toggle never returns, whatever [Math.random] produces. *)
Theorem mutateRuleset_never_returns_without_a_valid_toggle (rules : list Rule)
    (currentRuleset : StringSet) (amount : nat) :
  rules <> [] -> 0 < amount ->
  (forall rule, In rule rules ->
     isValidRuleset rules (toggled (id rule) (new_Set currentRuleset)) = false) ->
  forall draws, mutateRuleset rules currentRuleset amount draws = Pending.
Proof.
  intros Hne Hamount Hstuck draws. unfold mutateRuleset.
  destruct amount as [|n]; [lia|]. cbn [mutateLoop]. unfold bind.
  rewrite toggleUntilValid_stuck; [reflexivity | assumption|].
  intros rule Hin.
  rewrite !(new_Set_NoDup (new_Set currentRuleset) (NoDup_new_Set currentRuleset)).
  now apply Hstuck.
Qed.

Lemma mutateRuleset_never_returns_without_a_valid_toggle_witness :
  mutateRuleset selfConflicting [] mutationAmount easierDraws = Pending.
Proof.
  refine (mutateRuleset_never_returns_without_a_valid_toggle selfConflicting []
            mutationAmount _ _ _ easierDraws).
  - discriminate.
  - vm_compute. lia.
  - intros rule Hin. vm_compute in Hin. destruct Hin as [<-|[]].
    vm_compute. reflexivity.
Defined.

(** ** The checks of the rules *)

Lemma split_first (separator : Ascii.ascii) (s : string) :
  exists word words, Checks.split separator s = word :: words /\
    (Checks.startsWith Checks.colon word = true -> Checks.startsWith Checks.colon s = true).
Proof.
  destruct s as [|c s]; cbn [Checks.split].
  - now exists EmptyString, [].
  - destruct (Ascii.eqb c separator).
    + exists EmptyString, (Checks.split separator s). split; [reflexivity|].
      discriminate.
    + destruct (Checks.split separator s) as [|word words].
      * exists (String c EmptyString), []. split; [reflexivity | trivial].
      * exists (String c word), words. split; [reflexivity | trivial].
Qed.

(** X19. A message that passes the check of [only-emojis] begins with a
    colon, so it fails the check of [no-punctuation]: the listed conflict
    of the two rules is a real contradiction. The empty message fails
    [only-emojis]. *)
Theorem only_emojis_excludes_no_punctuation (message : string) :
  Checks.only_emojis message = true ->
  Checks.startsWith Checks.colon message = true /\
  message <> EmptyString /\
  Checks.no_punctuation message = false.
Proof.
  unfold Checks.only_emojis. intros H.
  destruct (split_first Checks.space message) as [word [words [E Hfirst]]].
  rewrite E in H. cbn [forallb] in H.
  apply andb_true_iff in H. destruct H as [H _].
  apply andb_true_iff in H. destruct H as [H _].
  apply Hfirst in H. split; [assumption|].
  destruct message as [|c message]; [discriminate|].
  split; [discriminate|].
  cbn [Checks.startsWith] in H. apply Ascii.eqb_eq in H. subst c.
  reflexivity.
Qed.

Lemma only_emojis_excludes_no_punctuation_witness :
  Checks.startsWith Checks.colon ":rocket: :100: :fire:" = true /\
  ":rocket: :100: :fire:" <> EmptyString /\
  Checks.no_punctuation ":rocket: :100: :fire:" = false.
Proof.
  apply (only_emojis_excludes_no_punctuation ":rocket: :100: :fire:").
  vm_compute. reflexivity.
Defined.

Ltac each_character c :=
  destruct c as [[] [] [] [] [] [] [] []]; vm_compute.

Lemma lowerChar_fixed (c : Ascii.ascii) :
  Checks.lowerChar c = c <-> Checks.isUpper c = false.
Proof. each_character c; split; congruence. Qed.

Lemma upperChar_fixed (c : Ascii.ascii) :
  Checks.upperChar c = c <-> Checks.isLower c = false.
Proof. each_character c; split; congruence. Qed.

Lemma lowerChar_letter (c : Ascii.ascii) :
  Checks.isLetter (Checks.lowerChar c) = Checks.isLetter c /\
  (Checks.isLetter c = true -> Checks.isLower (Checks.lowerChar c) = true).
Proof. each_character c; split; congruence. Qed.

Lemma mapChars_fixed (f : Ascii.ascii -> Ascii.ascii) (s : string) :
  String.eqb s (Checks.mapChars f s) = true <->
  forall c, In c (charactersOf s) -> f c = c.
Proof.
  rewrite String.eqb_eq. unfold charactersOf.
  induction s as [|c s IH]; cbn [Checks.mapChars list_ascii_of_string].
  - split; [intros _ c [] | reflexivity].
  - split.
    + intros H. injection H as Hc Hs. intros c' [<-|Hc']; [now symmetry|].
      now apply IH.
    + intros H. f_equal; [symmetry; apply H; now left|].
      apply IH. intros c' Hc'. apply H. now right.
Qed.

Lemma characters_mapChars (f : Ascii.ascii -> Ascii.ascii) (s : string) :
  list_ascii_of_string (Checks.mapChars f s) = map f (list_ascii_of_string s).
Proof.
  induction s as [|c s IH]; cbn [Checks.mapChars list_ascii_of_string map];
    [reflexivity | now rewrite IH].
Qed.

Lemma letters_spelled (message : string) :
  Checks.letters message =
  map (fun c => String c EmptyString)
      (filter Checks.isLetter (map Checks.lowerChar (charactersOf message))).
Proof.
  unfold Checks.letters, Checks.characters, Checks.toLowerCase, charactersOf.
  rewrite characters_mapChars.
  induction (map Checks.lowerChar (list_ascii_of_string message)) as [|c cs IH];
    [reflexivity|].
  cbn [map filter]. rewrite IH.
  unfold Checks.matchesClass at 1. cbn [list_ascii_of_string existsb].
  rewrite orb_false_r. destruct (Checks.isLetter c); reflexivity.
Qed.

(** X20. On a message of ASCII characters the check of [all-lowercase]
    passes exactly when the message has no upper-case letter, and the check
    of [all-uppercase] exactly when it has no lower-case letter; so both
    pass exactly on the messages without letters, and the listed conflict of
    the two rules is not a contradiction. *)
Theorem case_rules_look_for_the_other_case (message : string) :
  isAscii message = true ->
  (Checks.all_lowercase message = true <->
   forall c, In c (charactersOf message) -> Checks.isUpper c = false) /\
  (Checks.all_uppercase message = true <->
   forall c, In c (charactersOf message) -> Checks.isLower c = false) /\
  (Checks.all_lowercase message = true /\ Checks.all_uppercase message = true <->
   Checks.letters message = []).
Proof.
  intros _.
  assert (Hlow : Checks.all_lowercase message = true <->
                 forall c, In c (charactersOf message) -> Checks.isUpper c = false).
  { unfold Checks.all_lowercase, Checks.toLowerCase. rewrite mapChars_fixed.
    split; intros H c Hc; apply lowerChar_fixed; now apply H. }
  assert (Hup : Checks.all_uppercase message = true <->
                forall c, In c (charactersOf message) -> Checks.isLower c = false).
  { unfold Checks.all_uppercase, Checks.toUpperCase. rewrite mapChars_fixed.
    split; intros H c Hc; apply upperChar_fixed; now apply H. }
  split; [exact Hlow|]. split; [exact Hup|].
  rewrite Hlow, Hup, letters_spelled. split.
  - intros [Hl Hu].
    assert (E : forall cs, (forall c, In c cs -> Checks.isLetter c = false) ->
                           filter Checks.isLetter (map Checks.lowerChar cs) = []).
    { induction cs as [|c cs IH]; intros H; [reflexivity|].
      cbn [map filter]. rewrite (proj1 (lowerChar_letter c)), (H c (or_introl eq_refl)).
      apply IH. intros c' Hc'. apply H. now right. }
    rewrite E; [reflexivity|]. intros c Hc. unfold Checks.isLetter.
    now rewrite (Hl c Hc), (Hu c Hc).
  - intros H.
    assert (E : forall c, In c (charactersOf message) -> Checks.isLetter c = false).
    { intros c Hc. destruct (Checks.isLetter c) eqn:L; [|reflexivity]. exfalso.
      assert (Hin : In (Checks.lowerChar c)
                       (filter Checks.isLetter (map Checks.lowerChar (charactersOf message)))).
      { apply filter_In. split; [now apply in_map|].
        now rewrite (proj1 (lowerChar_letter c)). }
      destruct (filter Checks.isLetter _); [destruct Hin | discriminate]. }
    split; intros c Hc; specialize (E c Hc); unfold Checks.isLetter in E;
      apply orb_false_iff in E; tauto.
Qed.

Lemma case_rules_look_for_the_other_case_witness :
  Checks.all_lowercase "10:30?" = true /\ Checks.all_uppercase "10:30?" = true <->
  Checks.letters "10:30?" = [].
Proof.
  apply (case_rules_look_for_the_other_case "10:30?"). reflexivity.
Defined.

Lemma lower_in_alphabet (c : Ascii.ascii) :
  Checks.isLower c = true -> Set_has alphabet (String c EmptyString) = true.
Proof. each_character c; congruence. Qed.

Lemma NoDup_alphabet : NoDup alphabet /\ List.length alphabet = 26.
Proof.
  split; [|reflexivity].
  replace alphabet with (new_Set alphabet) by (vm_compute; reflexivity).
  apply NoDup_new_Set.
Qed.

Lemma letters_in_alphabet (message : string) : incl (Checks.letters message) alphabet.
Proof.
  rewrite letters_spelled. intros x Hx.
  apply in_map_iff in Hx. destruct Hx as [c' [<- Hc']].
  apply filter_In in Hc'. destruct Hc' as [Hin Hl].
  apply in_map_iff in Hin. destruct Hin as [c [<- _]].
  apply Set_has_In, lower_in_alphabet.
  destruct (lowerChar_letter c) as [E Hlow]. apply Hlow. now rewrite <- E.
Qed.

Lemma new_Set_members (xs : list string) (x : string) : In x (new_Set xs) <-> In x xs.
Proof. rewrite <- !Set_has_In. now rewrite (Set_has_new_Set xs x). Qed.

(** X21. On a message of ASCII characters the check of
    [never-repeats-letters] passes exactly when no letter occurs twice,
    whatever its case, which allows at most 26 letters; the check of
    [every-letter] passes exactly when each of the 26 letters occurs; and
    both pass exactly when the letters of the message are the alphabet in
    some order, so the listed conflict of the two rules is not a
    contradiction. *)
Theorem letter_rules_count_the_letters (message : string) :
  isAscii message = true ->
  let found := Checks.letters message in
  (Checks.never_repeats_letters message = true <-> NoDup found) /\
  (Checks.every_letter message = true <-> incl alphabet found) /\
  (Checks.never_repeats_letters message = true -> List.length found <= 26) /\
  (Checks.never_repeats_letters message = true /\ Checks.every_letter message = true
   <-> Permutation found alphabet).
Proof.
  intros _ found.
  destruct NoDup_alphabet as [Halpha Hsize].
  assert (Hincl : incl found alphabet) by apply letters_in_alphabet.
  assert (Hset : NoDup (new_Set found)) by apply NoDup_new_Set.
  assert (Hnever : Checks.never_repeats_letters message = true <-> NoDup found).
  { unfold Checks.never_repeats_letters, Set_size. fold found. rewrite Nat.eqb_eq. split.
    - intros E. apply (NoDup_incl_NoDup (l := new_Set found)); [assumption | lia|].
      intros x Hx. now apply new_Set_members.
    - intros H. now rewrite (new_Set_NoDup found H). }
  assert (Hevery : Checks.every_letter message = true <-> incl alphabet found).
  { unfold Checks.every_letter, Set_size. fold found. rewrite Nat.eqb_eq. split.
    - intros E x Hx. apply new_Set_members.
      revert x Hx. apply NoDup_length_incl; [assumption | lia|].
      intros x Hx. apply Hincl. now apply new_Set_members.
    - intros H.
      assert (L1 : List.length alphabet <= List.length (new_Set found)).
      { apply NoDup_incl_length; [assumption|]. intros x Hx.
        apply new_Set_members. now apply H. }
      assert (L2 : List.length (new_Set found) <= List.length alphabet).
      { apply NoDup_incl_length; [assumption|]. intros x Hx.
        apply Hincl. now apply new_Set_members. }
      lia. }
  split; [exact Hnever|]. split; [exact Hevery|]. split.
  - intros H. apply Hnever in H. rewrite <- Hsize.
    now apply NoDup_incl_length.
  - rewrite Hnever, Hevery. split.
    + intros [Hnd Hall]. apply NoDup_Permutation; [assumption | assumption|].
      intros x. split; [apply Hincl | apply Hall].
    + intros Hperm. split.
      * apply (Permutation_NoDup (Permutation_sym Hperm) Halpha).
      * intros x Hx. apply (Permutation_in x (Permutation_sym Hperm) Hx).
Qed.

Lemma letter_rules_count_the_letters_witness :
  Checks.never_repeats_letters "Mr Jock, TV quiz PhD, bags few lynx" = true /\
  Checks.every_letter "Mr Jock, TV quiz PhD, bags few lynx" = true
  <-> Permutation (Checks.letters "Mr Jock, TV quiz PhD, bags few lynx") alphabet.
Proof.
  apply (letter_rules_count_the_letters "Mr Jock, TV quiz PhD, bags few lynx").
  reflexivity.
Defined.

(** ** The message handler *)

Lemma getViolations_fulfilled (rules : list Rule) (check : Rule -> string -> CheckResult)
    (activeRules : StringSet) (message : string) (found : list Rule) :
  let active := filter (fun rule => Set_has activeRules (id rule)) rules in
  outcome (getViolations rules check activeRules message) = Fulfilled found ->
  checksCalled (getViolations rules check activeRules message) = active /\
  (forall rule, In rule active -> checkFailure (check rule message) = None) /\
  found = filter (fun rule => violated (check rule message)) active.
Proof.
  intros active. unfold getViolations. fold active.
  assert (Hcases := launchChecks_cases check message active).
  destruct (launchChecks check message active) as [called [e|promises]];
    cbn [fst snd] in Hcases; cbn [outcome checksCalled]; [discriminate|].
  destruct Hcases as [-> [-> Hquiet]].
  unfold Promise_all.
  destruct (firstRejection _) as [[t e]|] eqn:Hfirst; [discriminate|].
  intros H.
  assert (Hpass : forall rule, In rule active -> checkFailure (check rule message) = None).
  { intros rule Hin.
    assert (Hp := firstRejection_None _ Hfirst
                    (violationPromise rule (check rule message))).
    specialize (Hquiet rule).
    destruct (check rule message) as [b|e|t b|t e] eqn:E; try reflexivity.
    - exfalso. now apply (Hquiet e).
    - exfalso. apply (Hp e); [|reflexivity].
      apply in_map_iff. exists rule. rewrite E. now split. }
  split; [reflexivity|]. split; [assumption|].
  destruct (promises_of_passing_checks check message active Hpass) as [_ E].
  rewrite E in H. now inversion H.
Qed.

Lemma relevant_decided (CHANNEL_ID : option string) (message : SlackMessage) :
  (match subtype message with
   | Some s => negb (String.eqb s "thread_broadcast")
   | None => false
   end = false /\
   match CHANNEL_ID with
   | Some c => negb (String.eqb (channel message) c)
   | None => true
   end = false) <-> relevant CHANNEL_ID message.
Proof.
  unfold relevant. destruct (subtype message) as [s|]; destruct CHANNEL_ID as [c|].
  - destruct (String.eqb_spec s "thread_broadcast") as [->|Hs];
      destruct (String.eqb_spec (channel message) c) as [->|Hc]; cbn [negb];
      split; intros [H1 H2]; try discriminate; try (split; [auto | reflexivity]);
      try (injection H2 as H2; congruence);
      destruct H1 as [H1|H1]; try discriminate; injection H1 as H1; congruence.
  - split; intros [H1 H2]; discriminate.
  - destruct (String.eqb_spec (channel message) c) as [->|Hc]; cbn [negb];
      split; intros [H1 H2]; try discriminate; try (split; [auto | reflexivity]).
    injection H2 as H2. congruence.
  - split; intros [H1 H2]; discriminate.
Qed.

(** X22. The handler of [app.message] calls no check for a message of
    another channel or with another subtype. It reaches the engine only for
    a message of the channel whose checks all completed without a failure
    and whose posts the platform accepted; the violations it then records
    are the active rules whose check produced [false], the last thing it
    posted is the reaction, a cross exactly when there are violations, and
    a reply precedes it exactly then. When it fails, no reaction has been
    posted. *)
Theorem a_message_is_counted_only_after_its_checks (rules : list Rule)
    (check : Rule -> string -> CheckResult) (CHANNEL_ID say reactionsAdd : option string)
    (activeRules : StringSet) (message : SlackMessage) :
  let active := filter (fun rule => Set_has activeRules (id rule)) rules in
  let run := receiveMessage rules check CHANNEL_ID say reactionsAdd activeRules message in
  (snd run = Ignored <-> ~ relevant CHANNEL_ID message) /\
  (snd run = Ignored -> fst run = []) /\
  (forall posted error, snd run = Failed posted error ->
     forallb (fun post => negb (isReaction post)) posted = true) /\
  (forall posted found, snd run = Passed posted found ->
     relevant CHANNEL_ID message /\
     fst run = active /\
     (forall rule, In rule active -> checkFailure (check rule (textOf message)) = None) /\
     found = filter (fun rule => violated (check rule (textOf message))) active /\
     reactionsAdd = None /\
     (found = [] ->
      posted = [ReactionsAdd "tw_white_check_mark" (channel message) (ts message)]) /\
     (found <> [] ->
      say = None /\
      posted = [Say (replyText message found) (ts message);
                ReactionsAdd "x" (channel message) (ts message)])).
Proof.
  intros active run. subst run. unfold receiveMessage. fold (textOf message).
  assert (Hrel := relevant_decided CHANNEL_ID message).
  destruct (match subtype message with
            | Some s => negb (String.eqb s "thread_broadcast")
            | None => false
            end) eqn:Hsub.
  { cbn [fst snd]. split; [split; [intros _ Hr; apply Hrel in Hr; destruct Hr; discriminate
                                 | reflexivity]|].
    split; [reflexivity|]. split; intros; discriminate. }
  destruct (match CHANNEL_ID with
            | Some c => negb (String.eqb (channel message) c)
            | None => true
            end) eqn:Hchan.
  { cbn [fst snd]. split; [split; [intros _ Hr; apply Hrel in Hr; destruct Hr; discriminate
                                 | reflexivity]|].
    split; [reflexivity|]. split; intros; discriminate. }
  assert (Hr : relevant CHANNEL_ID message) by (apply Hrel; now split).
  cbn [fst snd].
  assert (Hfull := getViolations_fulfilled rules check activeRules (textOf message)).
  cbv zeta in Hfull. fold active in Hfull.
  destruct (outcome (getViolations rules check activeRules (textOf message)))
    as [found|e].
  2:{ split; [split; [discriminate | tauto]|]. split; [discriminate|].
      split; [|discriminate]. intros posted error H. now inversion H. }
  specialize (Hfull found eq_refl). destruct Hfull as [Hcalled [Hpass Hfound]].
  unfold emojiFor.
  destruct found as [|v found'] eqn:Efound; cbn [List.length Nat.ltb Nat.leb].
  - destruct reactionsAdd as [e|].
    + split; [split; [discriminate | tauto]|]. split; [discriminate|].
      split; [|discriminate]. intros posted error H. now inversion H.
    + split; [split; [discriminate | tauto]|]. split; [discriminate|].
      split; [discriminate|]. intros posted found0 H. inversion H; subst; clear H.
      split; [assumption|]. split; [assumption|]. split; [assumption|].
      split; [assumption|]. split; [reflexivity|]. split; [reflexivity | congruence].
  - destruct say as [e|].
    + split; [split; [discriminate | tauto]|]. split; [discriminate|].
      split; [|discriminate]. intros posted error H. now inversion H.
    + destruct reactionsAdd as [e|].
      * split; [split; [discriminate | tauto]|]. split; [discriminate|].
        split; [|discriminate]. intros posted error H. now inversion H.
      * split; [split; [discriminate | tauto]|]. split; [discriminate|].
        split; [discriminate|]. intros posted found0 H. inversion H; subst; clear H.
        split; [assumption|]. split; [assumption|]. split; [assumption|].
        split; [assumption|]. split; [reflexivity|].
        split; [discriminate | intros _; split; reflexivity].
Qed.

Lemma a_message_is_counted_only_after_its_checks_witness :
  relevant (Some "C0123456789") helloMessage /\
  fst (receiveMessage Chameleon.rules searchFails (Some "C0123456789") None None
         ["all-lowercase"] helloMessage) = lowercaseOnly.
Proof.
  destruct (proj2 (proj2 (proj2
              (a_message_is_counted_only_after_its_checks Chameleon.rules searchFails
                 (Some "C0123456789") None None ["all-lowercase"] helloMessage)))
              helloPosts lowercaseOnly) as [Hr [Hcalled _]].
  - vm_compute. reflexivity.
  - split; [exact Hr | exact Hcalled].
Defined.
